(** * LocalWebAI: the IndexedDB model cache

    A shallow embedding of the two [ModelCache] classes of the TypeScript
    wrapper: the chunked cache with LRU eviction (database version 2, stores
    [modelMetadata] and [modelChunks]) and the earlier single-store cache
    (database version 1, store [models]); of the [LlamaRunner] that loads a
    model through a cache and drives the worker; and of the worker's side of
    that protocol.

    Conventions of the embedding.
    - JavaScript numbers that hold sizes, counts, indices and timestamps are
      integers [Z]; every quotient taken by the code is between integers below
      2^53, where [Math.ceil (a / b)] is the exact integer ceiling.
    - An [ArrayBuffer] is a [list byte].
    - An object store with an in-line key path is a [gmap] from the key to the
      stored record; [put] extracts the key from the record.
    - A promise is described by how it settles ([Resolved], [Rejected]) or by
      the fact that it never does ([Pending]).
    - IndexedDB requests may fail.  Each operation takes a record saying which
      of its requests fail; a request error that is not cancelled aborts its
      transaction, and an aborted transaction leaves the stores as they were
      when it started.
    - [Date.now ()] is an argument [now] of the operation that reads it.
    - A cache value stands for the cache once [indexedDB.open] has answered:
      the constructors do not wait for it, and a call of the single-store
      cache that comes earlier finds [this.db] null, as with [NoIndexedDB].
    - String keys are ordered as [String.compare] orders them, character by
      character.  This is the key order of IndexedDB, which compares UTF-16
      code units, for ids of ASCII characters; the two orders differ for some
      ids beyond.  Only the order in which a sweep takes models of equal
      [lastAccessed] depends on it.
    - Each operation runs to completion before the next one starts;
      failures at commit time are left out.  The upgrade of the schema is
      described on the names of the object stores.
    - The runner and the worker are state machines: a handler takes the state
      and gives the new state and the list of what it did (messages posted,
      callbacks called, the promise of a load settled).  What the browser
      gives them (the response of a fetch, the reads of a file, the import of
      the module, the bytes llama.cpp writes) is an argument.  The numbers of
      the generation options stay abstract, with their truthiness and their
      printing. *)

From Stdlib Require Import ZArith Lia Strings.String Strings.Byte.
From stdpp Require Import base decidable option list list_numbers sorting
  strings pretty gmap fin_maps.

Local Open Scope Z_scope.

(** ** Promises and errors *)

Inductive Error : Type :=
| CachingDisabled   (* the [Error] thrown by [getDb] when [this.db] is null *)
| OpenError         (* [request.error] of a failed [indexedDB.open] *)
| RequestError.     (* the error of a failed request or of its transaction *)

Inductive Promise (A : Type) : Type :=
| Resolved (a : A)
| Rejected (e : Error)
| Pending.

Arguments Resolved {A} a.
Arguments Rejected {A} e.
Arguments Pending {A}.

(** ** JavaScript built-ins used by the cache *)

Abbreviation ArrayBuffer := (list byte).

Definition byteLength (b : ArrayBuffer) : Z := Z.of_nat (length b).

Definition MAX_SAFE_INTEGER : Z := 2 ^ 53 - 1.

(** [x || d] on an optional number: [undefined] and [0] are falsy. *)
Definition js_or (x : option Z) (d : Z) : Z :=
  match x with
  | Some v => if decide (v = 0) then d else v
  | None => d
  end.

(** [Math.ceil (a / b)] for integers [a] and [b], [b] not zero. *)
Definition ceil_div (a b : Z) : Z := - ((- a) / b).

(** [ArrayBuffer.prototype.slice (start, end)]: both positions are clamped to
    the buffer, a negative one counts from its end. *)
Definition clamp_index (len i : Z) : Z :=
  if decide (i < 0) then Z.max (len + i) 0 else Z.min i len.

Definition slice (start end_ : Z) (b : ArrayBuffer) : ArrayBuffer :=
  let len := byteLength b in
  let first := clamp_index len start in
  let final := clamp_index len end_ in
  let newLen := Z.max (final - first) 0 in
  take (Z.to_nat newLen) (drop (Z.to_nat first) b).

(** [target.set (src, offset)] on a [Uint8Array]: a [RangeError] ([None]) when
    the source does not fit. *)
Definition typed_set (target src : ArrayBuffer) (offset : Z) : option ArrayBuffer :=
  if decide (0 ≤ offset ∧ offset + byteLength src ≤ byteLength target) then
    Some (take (Z.to_nat offset) target ++ src
            ++ drop (Z.to_nat (offset + byteLength src)) target)
  else None.

(** [new ArrayBuffer (n)]: zero filled, a [RangeError] for a negative size. *)
Definition new_ArrayBuffer (n : Z) : option ArrayBuffer :=
  if decide (0 ≤ n) then Some (replicate (Z.to_nat n) x00) else None.

(** [Array.prototype.sort (cmp)]: a stable sort; [cmp a b <= 0] keeps [a]
    before [b]. *)
Section js_sort.
Context {A : Type} (cmp : A → A → Z).

Fixpoint sort_insert (x : A) (l : list A) : list A :=
  match l with
  | [] => [x]
  | y :: l' => if decide (cmp x y ≤ 0) then x :: l else y :: sort_insert x l'
  end.

Definition js_sort (l : list A) : list A := foldr sort_insert [] l.

(** The order the comparator describes. *)
Definition cmp_le (a b : A) : Prop := cmp a b ≤ 0.
End js_sort.

(** ** IndexedDB keys *)

Definition comparison_sign (c : comparison) : Z :=
  match c with Lt => -1 | Eq => 0 | Gt => 1 end.

(** Order of the string keys of [modelMetadata]. *)
Definition string_cmp (a b : string) : Z := comparison_sign (String.compare a b).

(** Order of the array keys [[modelId, chunkIndex]] of [modelChunks]:
    component by component. *)
Definition key_cmp (a b : string * Z) : Z :=
  match String.compare a.1 b.1 with
  | Lt => -1
  | Gt => 1
  | Eq => comparison_sign (a.2 ?= b.2)
  end.

(** [IDBKeyRange.bound (lower, upper)], both ends included. *)
Definition in_bound (lower upper k : string * Z) : bool :=
  bool_decide (key_cmp lower k ≤ 0) && bool_decide (key_cmp k upper ≤ 0).

(** ** The chunked cache (database version 2) *)

Definition DEFAULT_CHUNK_SIZE_BYTES : Z := 16 * 1024 * 1024.
Definition DEFAULT_MAX_CACHE_SIZE_BYTES : Z := 512 * 1024 * 1024.

Record ModelMetadata : Type := {
  modelId : string;
  totalSize : Z;
  chunkCount : Z;
  chunkSize : Z;
  createdAt : Z;
  lastAccessed : Z;
  fileName : option string;
  contentType : option string;
}.

Record ModelChunk : Type := {
  chunk_modelId : string;
  chunkIndex : Z;
  data : ArrayBuffer;
}.

(** The two object stores, [modelMetadata] with key path [modelId] and
    [modelChunks] with key path [[modelId, chunkIndex]]. *)
Record IDB : Type := {
  modelMetadata : gmap string ModelMetadata;
  modelChunks : gmap (string * Z) ModelChunk;
}.

Definition empty_IDB : IDB := {| modelMetadata := ∅; modelChunks := ∅ |}.

Definition chunk_key (ch : ModelChunk) : string * Z :=
  (chunk_modelId ch, chunkIndex ch).

(** The store entry of a chunk. *)
Definition chunk_entry (ch : ModelChunk) : string * Z * ModelChunk := (chunk_key ch, ch).

Definition put_metadata (m : ModelMetadata)
    (s : gmap string ModelMetadata) : gmap string ModelMetadata :=
  <[modelId m := m]> s.

Definition put_chunk (s : gmap (string * Z) ModelChunk)
    (ch : ModelChunk) : gmap (string * Z) ModelChunk :=
  <[chunk_key ch := ch]> s.

(** [store.getAll ()] and [store.getAll (range)]: the records in ascending key
    order. *)
Definition getAll_metadata (s : gmap string ModelMetadata) : list ModelMetadata :=
  (js_sort (λ a b, string_cmp a.1 b.1) (map_to_list s)).*2.

Definition chunkRange (id : string) : (string * Z) * (string * Z) :=
  ((id, 0), (id, MAX_SAFE_INTEGER)).

Definition in_chunkRange (id : string) (k : string * Z) : bool :=
  in_bound (chunkRange id).1 (chunkRange id).2 k.

Definition range_entries (id : string)
    (s : gmap (string * Z) ModelChunk) : list (string * Z * ModelChunk) :=
  js_sort (λ a b, key_cmp a.1 b.1)
    (filter (λ kv, in_chunkRange id kv.1 = true) (map_to_list s)).

Definition getAll_chunks (id : string)
    (s : gmap (string * Z) ModelChunk) : list ModelChunk :=
  (range_entries id s).*2.

(** What is stored for one model: its metadata record and the chunk records
    of its key range. *)
Definition model_records (id : string) (st : IDB)
    : option ModelMetadata * list ModelChunk :=
  (modelMetadata st !! id, getAll_chunks id (modelChunks st)).

(** The sum of the byte lengths of chunk records. *)
Definition chunks_byteLength (chunks : list ModelChunk) : Z :=
  foldr (λ ch acc, byteLength (data ch) + acc) 0 chunks.

(** The handle [this.db]. *)
Inductive IDBDatabase : Type := Handle.

Record ModelCache : Type := {
  db : option IDBDatabase;
  dbReadyPromise : Promise unit;
  cache_chunkSize : Z;
  maxCacheSize : Z;
}.

(** What the environment answers to [indexedDB.open]. *)
Inductive OpenOutcome : Type :=
| NoIndexedDB      (* [typeof indexedDB === 'undefined'] *)
| OpenFails        (* [request.onerror] *)
| OpenSucceeds.    (* [request.onsuccess] *)

(** [initDatabase]: the value left in [this.db] and the promise returned. *)
Definition initDatabase (env : OpenOutcome) : option IDBDatabase * Promise unit :=
  match env with
  | NoIndexedDB => (None, Resolved tt)
  | OpenFails => (None, Rejected OpenError)
  | OpenSucceeds => (Some Handle, Resolved tt)
  end.

(** [new ModelCache (chunkSizeInBytes, maxCacheSizeInBytes)]. *)
Definition new_ModelCache (env : OpenOutcome)
    (chunkSizeInBytes maxCacheSizeInBytes : option Z) : ModelCache :=
  let this_chunkSize := js_or chunkSizeInBytes DEFAULT_CHUNK_SIZE_BYTES in
  let this_maxCacheSize := js_or maxCacheSizeInBytes DEFAULT_MAX_CACHE_SIZE_BYTES in
  let init := initDatabase env in
  {| db := init.1; dbReadyPromise := init.2;
     cache_chunkSize := this_chunkSize; maxCacheSize := this_maxCacheSize |}.

Definition getDb (this : ModelCache) : Promise IDBDatabase :=
  match dbReadyPromise this with
  | Resolved _ =>
      match db this with
      | Some h => Resolved h
      | None => Rejected CachingDisabled
      end
  | Rejected e => Rejected e
  | Pending => Pending
  end.

(** *** deleteModel *)

(** The cursor over [chunkRange id] deletes every record it visits. *)
Definition delete_chunks (id : string)
    (s : gmap (string * Z) ModelChunk) : gmap (string * Z) ModelChunk :=
  foldl (λ acc kv, delete kv.1 acc) s (range_entries id s).

(** [fails] says that a request of the transaction fails: the transaction
    aborts, [transaction.onerror] rejects and nothing is deleted. *)
Definition deleteModel (this : ModelCache) (fails : bool) (id : string)
    (dbInstance : option IDBDatabase) (st : IDB) : Promise unit * IDB :=
  match (match dbInstance with Some h => Resolved h | None => getDb this end) with
  | Resolved _ =>
      if fails then (Rejected RequestError, st)
      else (Resolved tt,
            {| modelMetadata := delete id (modelMetadata st);
               modelChunks := delete_chunks id (modelChunks st) |})
  | Rejected e => (Rejected e, st)
  | Pending => (Pending, st)
  end.

(** *** evictModelsIfNeeded *)

Record EvictFaults : Type := {
  scan_fails : bool;               (* [getAllMetadataRequest.onerror] *)
  evict_fails : string → bool;     (* [deleteModel] of that model rejects *)
}.

(** The [for (const meta of allMetadata)] loop. *)
Fixpoint evict_loop (this : ModelCache) (fails : string → bool) (h : IDBDatabase)
    (metas : list ModelMetadata) (currentCacheSize : Z) (st : IDB) : IDB :=
  match metas with
  | [] => st
  | meta :: rest =>
      if decide (currentCacheSize ≤ maxCacheSize this) then st
      else
        match deleteModel this (fails (modelId meta)) (modelId meta) (Some h) st with
        | (Resolved _, st') =>
            evict_loop this fails h rest (currentCacheSize - totalSize meta) st'
        | (_, st') => evict_loop this fails h rest currentCacheSize st'
        end
  end.

Definition sum_totalSize (metas : list ModelMetadata) : Z :=
  foldl (λ sum meta, sum + totalSize meta) 0 metas.

Definition by_lastAccessed (a b : ModelMetadata) : Z :=
  lastAccessed a - lastAccessed b.

Definition evictModelsIfNeeded (this : ModelCache) (f : EvictFaults)
    (dbInstance : option IDBDatabase) (st : IDB) : Promise unit * IDB :=
  match (match dbInstance with Some h => Resolved h | None => getDb this end) with
  | Resolved h =>
      if scan_fails f then (Rejected RequestError, st)
      else
        let allMetadata := getAll_metadata (modelMetadata st) in
        let currentCacheSize := sum_totalSize allMetadata in
        if decide (currentCacheSize ≤ maxCacheSize this) then (Resolved tt, st)
        else if decide (length allMetadata = 1%nat
                        ∧ currentCacheSize > maxCacheSize this) then (Resolved tt, st)
        else (Resolved tt,
              evict_loop this (evict_fails f) h
                (js_sort by_lastAccessed allMetadata) currentCacheSize st)
  | Rejected e => (Rejected e, st)
  | Pending => (Pending, st)
  end.

(** *** cacheModel *)

Record PutFaults : Type := {
  delete_fails : bool;             (* the initial [deleteModel] rejects *)
  put_metadata_fails : bool;       (* [putMetadataRequest.onerror] *)
  put_chunk_fails : Z → bool;      (* [putChunkRequest.onerror] of chunk [i] *)
  evict_faults : EvictFaults;
}.

Definition make_chunk (this : ModelCache) (id : string) (modelData : ArrayBuffer)
    (i : Z) : ModelChunk :=
  let start := i * cache_chunkSize this in
  let end_ := Z.min (start + cache_chunkSize this) (byteLength modelData) in
  {| chunk_modelId := id; chunkIndex := i; data := slice start end_ modelData |}.

Definition make_chunks (this : ModelCache) (id : string)
    (modelData : ArrayBuffer) : list ModelChunk :=
  make_chunk this id modelData
    <$> seqZ 0 (ceil_div (byteLength modelData) (cache_chunkSize this)).

Definition make_metadata (this : ModelCache) (now : Z) (id : string)
    (modelData : ArrayBuffer) (modelFileName modelContentType : option string)
    : ModelMetadata :=
  {| modelId := id;
     totalSize := byteLength modelData;
     chunkCount := ceil_div (byteLength modelData) (cache_chunkSize this);
     chunkSize := cache_chunkSize this;
     createdAt := now;
     lastAccessed := now;
     fileName := modelFileName;
     contentType := modelContentType |}.

(** The read-write transaction over both stores: [None] when a put request
    fails and the transaction is aborted. *)
Definition write_model (this : ModelCache) (f : PutFaults) (now : Z) (id : string)
    (modelData : ArrayBuffer) (modelFileName modelContentType : option string)
    (st : IDB) : option IDB :=
  let metadata := make_metadata this now id modelData modelFileName modelContentType in
  let chunks := make_chunks this id modelData in
  if put_metadata_fails f || existsb (λ ch, put_chunk_fails f (chunkIndex ch)) chunks
  then None
  else Some {| modelMetadata := put_metadata metadata (modelMetadata st);
               modelChunks := foldl put_chunk (modelChunks st) chunks |}.

Definition cacheModel (this : ModelCache) (f : PutFaults) (now : Z) (id : string)
    (modelData : ArrayBuffer) (modelFileName modelContentType : option string)
    (st : IDB) : Promise unit * IDB :=
  match getDb this with
  | Resolved h =>
      match deleteModel this (delete_fails f) id (Some h) st with
      | (Resolved _, st1) =>
          match write_model this f now id modelData modelFileName modelContentType st1 with
          | None => (Rejected RequestError, st1)
          | Some st2 =>
              (* [transaction.oncomplete]: resolve after the eviction; a
                 rejected eviction leaves the promise unsettled *)
              match evictModelsIfNeeded this (evict_faults f) (Some h) st2 with
              | (Resolved _, st3) => (Resolved tt, st3)
              | (_, st3) => (Pending, st3)
              end
          end
      | (Rejected e, st1) => (Rejected e, st1)
      | (Pending, st1) => (Pending, st1)
      end
  | Rejected e => (Rejected e, st)
  | Pending => (Pending, st)
  end.

(** *** getModelFromCache *)

Record GetFaults : Type := {
  get_metadata_fails : bool;       (* [metadataRequest.onerror] *)
  touch_fails : bool;              (* [updateMetadataRequest.onerror] *)
  get_chunks_fails : bool;         (* [getAllChunksRequest.onerror] *)
  cleanup_fails : bool;            (* the clean-up [deleteModel] rejects *)
}.

(** The reassembly loop: [None] when [set] raises. *)
Fixpoint reassemble (view : ArrayBuffer) (offset : Z)
    (chunks : list ModelChunk) : option ArrayBuffer :=
  match chunks with
  | [] => Some view
  | chunk :: rest =>
      match typed_set view (data chunk) offset with
      | Some view' => reassemble view' (offset + byteLength (data chunk)) rest
      | None => None
      end
  end.

Definition by_chunkIndex (a b : ModelChunk) : Z := chunkIndex a - chunkIndex b.

Definition touch (now : Z) (metadata : ModelMetadata) : ModelMetadata :=
  {| modelId := modelId metadata;
     totalSize := totalSize metadata;
     chunkCount := chunkCount metadata;
     chunkSize := chunkSize metadata;
     createdAt := createdAt metadata;
     lastAccessed := now;
     fileName := fileName metadata;
     contentType := contentType metadata |}.

Definition getModelFromCache (this : ModelCache) (f : GetFaults) (now : Z)
    (id : string) (st : IDB) : Promise (option ArrayBuffer) * IDB :=
  match getDb this with
  | Resolved h =>
      if get_metadata_fails f then (Rejected RequestError, st)
      else
        match modelMetadata st !! id with
        | None => (Resolved None, st)
        | Some metadata0 =>
            let metadata := touch now metadata0 in
            (* the update of [lastAccessed] is lost when its request fails *)
            let st1 :=
              if touch_fails f then st
              else {| modelMetadata := put_metadata metadata (modelMetadata st);
                      modelChunks := modelChunks st |} in
            if get_chunks_fails f then (Rejected RequestError, st1)
            else
              let chunks := getAll_chunks id (modelChunks st1) in
              if decide (Z.of_nat (length chunks) ≠ chunkCount metadata) then
                (* the clean-up is not awaited and its rejection only logged *)
                (Resolved None, (deleteModel this (cleanup_fails f) id None st1).2)
              else
                let chunks := js_sort by_chunkIndex chunks in
                match new_ArrayBuffer (totalSize metadata) with
                | Some reassembledView =>
                    match reassemble reassembledView 0 chunks with
                    | Some reassembledBuffer => (Resolved (Some reassembledBuffer), st1)
                    | None => (Pending, st1)
                    end
                | None => (Pending, st1)
                end
        end
  | Rejected e => (Rejected e, st)
  | Pending => (Pending, st)
  end.

(** Runs in which no request fails. *)
Definition no_evict_faults : EvictFaults :=
  {| scan_fails := false; evict_fails := λ _, false |}.

Definition no_put_faults : PutFaults :=
  {| delete_fails := false; put_metadata_fails := false;
     put_chunk_fails := λ _, false; evict_faults := no_evict_faults |}.

Definition no_get_faults : GetFaults :=
  {| get_metadata_fails := false; touch_fails := false;
     get_chunks_fails := false; cleanup_fails := false |}.

(** *** isModelCached and clearCache *)

Definition isModelCached (this : ModelCache) (fails : bool) (id : string)
    (st : IDB) : Promise bool :=
  match getDb this with
  | Resolved _ =>
      if fails then Rejected RequestError
      else Resolved (bool_decide (is_Some (modelMetadata st !! id)))
  | Rejected e => Rejected e
  | Pending => Pending
  end.

Definition clearCache (this : ModelCache) (fails : bool)
    (st : IDB) : Promise unit * IDB :=
  match getDb this with
  | Resolved _ =>
      if fails then (Rejected RequestError, st)
      else (Resolved tt, empty_IDB)
  | Rejected e => (Rejected e, st)
  | Pending => (Pending, st)
  end.

(** *** The sweep in the words of the specification *)

(** Removing a model: its metadata record and the chunk records of its range. *)
Definition delete_model_records (st : IDB) (id : string) : IDB :=
  {| modelMetadata := delete id (modelMetadata st);
     modelChunks := delete_chunks id (modelChunks st) |}.

Definition delete_models (ids : list string) (st : IDB) : IDB :=
  foldl delete_model_records st ids.

(** Every metadata record is stored under its own [modelId], as the key path
    of the store makes sure. *)
Definition store_wf (st : IDB) : Prop :=
  map_Forall (λ k m, modelId m = k) (modelMetadata st).

(** Least recently used first. *)
Definition older_or_same (a b : ModelMetadata) : Prop :=
  lastAccessed a ≤ lastAccessed b.

(** *** Small instances for the examples *)

(** Chunks of two bytes and a budget of four. *)
Definition small_cache : ModelCache := new_ModelCache OpenSucceeds (Some 2) (Some 4).

Definition three_bytes : ArrayBuffer := [x01; x02; x03].
Definition five_bytes : ArrayBuffer := [x01; x02; x03; x04; x05].

(** The store after a one-byte model ["a"] was cached at time 1. *)
Definition store_a : IDB :=
  (cacheModel small_cache no_put_faults 1 "a" [x07] None None empty_IDB).2.

(** A put in which the request that writes chunk 1 fails. *)
Definition failing_second_chunk : PutFaults :=
  {| delete_fails := false; put_metadata_fails := false;
     put_chunk_fails := λ i, bool_decide (i = 1); evict_faults := no_evict_faults |}.

(** The store after three bytes were cached under ["b"] and the second chunk
    record was then removed behind the cache's back. *)
Definition store_b_damaged : IDB :=
  let st := (cacheModel small_cache no_put_faults 2 "b" three_bytes None None
               empty_IDB).2 in
  {| modelMetadata := modelMetadata st;
     modelChunks := delete ("b", 1) (modelChunks st) |}.

(** The store after one byte under ["a"] at time 1 and three bytes under
    ["b"] at time 2: the budget of four bytes is used up. *)
Definition store_ab : IDB :=
  (cacheModel small_cache no_put_faults 2 "b" three_bytes None None store_a).2.

(** A put during whose eviction sweep the delete of model ["a"] fails. *)
Definition failing_evict_a : PutFaults :=
  {| delete_fails := false; put_metadata_fails := false;
     put_chunk_fails := λ _, false;
     evict_faults := {| scan_fails := false;
                        evict_fails := λ id, bool_decide (id = "a") |} |}.


(** [store_ab] with one more byte written under ["c"] at time 3, before the
    eviction runs: five bytes against a budget of four. *)
Definition store_abc : IDB :=
  {| modelMetadata :=
       put_metadata (make_metadata small_cache 3 "c" [x09] None None)
         (modelMetadata store_ab);
     modelChunks :=
       foldl put_chunk (modelChunks store_ab) (make_chunks small_cache "c" [x09]) |}.

(** ** The single-store cache (database version 1) *)

Module Legacy.

(** A record of the store [models], key path [modelId]. *)
Record CachedModel : Type := {
  modelId : string;
  data : ArrayBuffer;
  timestamp : Z;
}.

Record ModelCache : Type := {
  db : option IDBDatabase;
}.

(** [initDatabase] resolves in every case; [this.db] is set on success. *)
Definition initDatabase (env : OpenOutcome) : option IDBDatabase :=
  match env with
  | NoIndexedDB => None
  | OpenFails => None
  | OpenSucceeds => Some Handle
  end.

Definition new_ModelCache (env : OpenOutcome) : ModelCache :=
  {| db := initDatabase env |}.

(** [fails]: [request.onerror], answered with [resolve (null)]. *)
Definition getModelFromCache (this : ModelCache) (fails : bool) (id : string)
    (st : gmap string CachedModel) : Promise (option ArrayBuffer) :=
  match db this with
  | None => Resolved None
  | Some _ =>
      if fails then Resolved None
      else
        match st !! id with
        | Some result => Resolved (Some (data result))
        | None => Resolved None
        end
  end.

(** [fails]: [transaction.onerror], answered with [resolve ()]. *)
Definition cacheModel (this : ModelCache) (fails : bool) (now : Z) (id : string)
    (modelData : ArrayBuffer) (st : gmap string CachedModel)
    : Promise unit * gmap string CachedModel :=
  match db this with
  | None => (Resolved tt, st)
  | Some _ =>
      if fails then (Resolved tt, st)
      else (Resolved tt,
            <[id := {| modelId := id; data := modelData; timestamp := now |}]> st)
  end.

Definition isModelCached (this : ModelCache) (fails : bool) (id : string)
    (st : gmap string CachedModel) : Promise bool :=
  match getModelFromCache this fails id st with
  | Resolved cachedModel => Resolved (bool_decide (is_Some cachedModel))
  | Rejected e => Rejected e
  | Pending => Pending
  end.

Definition clearCache (this : ModelCache) (fails : bool)
    (st : gmap string CachedModel) : Promise unit * gmap string CachedModel :=
  match db this with
  | None => (Resolved tt, st)
  | Some _ =>
      if fails then (Rejected RequestError, st)
      else (Resolved tt, ∅)
  end.

End Legacy.

(** *** The cache as a map from ids to buffers *)

(** The store holds [bytes] under [id]: a metadata record keyed by its own
    [modelId] with the size and chunk count of [bytes], and the chunks an
    instance with the positive chunk size of the record makes of [bytes]. *)
Definition holds (st : IDB) (id : string) (bytes : ArrayBuffer) : Prop :=
  ∃ m writer,
    modelId m = id
    ∧ 0 < cache_chunkSize writer
    ∧ chunkSize m = cache_chunkSize writer
    ∧ totalSize m = byteLength bytes
    ∧ chunkCount m = ceil_div (byteLength bytes) (cache_chunkSize writer)
    ∧ model_records id st = (Some m, make_chunks writer id bytes).

(** The store holds the buffers of [g] and has no metadata for any other id. *)
Definition represents (st : IDB) (g : gmap string ArrayBuffer) : Prop :=
  ∀ id, match g !! id with
        | Some bytes => holds st id bytes
        | None => modelMetadata st !! id = None
        end.

(** The stores the operations of the cache lead to from the empty one,
    whatever requests fail on the way; the instances that write have a
    positive chunk size and the buffers a length an [ArrayBuffer] can have. *)
Inductive reachable : IDB → Prop :=
| reachable_empty : reachable empty_IDB
| reachable_cacheModel this f now id bytes fn ct st :
    reachable st →
    0 < cache_chunkSize this →
    byteLength bytes ≤ MAX_SAFE_INTEGER →
    reachable (cacheModel this f now id bytes fn ct st).2
| reachable_getModelFromCache this g now id st :
    reachable st →
    reachable (getModelFromCache this g now id st).2
| reachable_clearCache this fails st :
    reachable st →
    reachable (clearCache this fails st).2.

Global Instance ModelMetadata_eq_dec : EqDecision ModelMetadata.
Proof. solve_decision. Defined.

(** ** The worker (worker.ts) *)

(** Messages a worker posts to the main thread. *)
Inductive FromWorker : Type :=
| INITIALIZED
| WRITE_RESULT (text : string)
| RUN_COMPLETED
| ERROR (error : string).

Definition modelPath : string := "/models/model.bin".

Definition punctuationBytes : list Z :=
  [33; 34; 35; 36; 37; 38; 39; 40; 41; 42; 43; 44; 45; 46; 47; 58; 59; 60; 61;
   62; 63; 64; 91; 92; 93; 94; 95; 96; 123; 124; 125; 126].
Definition whitespaceBytes : list Z := [32; 9; 10; 13; 11; 12].
Definition splitBytes : list Z := punctuationBytes ++ whitespaceBytes.

(** [new Uint8Array (numbers)]: every number is taken modulo 256. *)
Definition Uint8Array_from (numbers : list Z) : list Z := (λ c, c mod 256) <$> numbers.

(** Options of a generation, as [GenerateTextParams] declares them; the
    numbers of JavaScript, their truthiness and their printing belong to the
    runtime. *)
Record GenerateTextParams (Number : Type) : Type := {
  n_predict : option Number;
  ctx_size : option Number;
  batch_size : option Number;
  temp : option Number;
  n_gpu_layers : option Number;
  top_k : option Number;
  top_p : option Number;
  no_display_prompt : option bool;
  chatml : option bool;
}.

Arguments n_predict {Number} _.
Arguments ctx_size {Number} _.
Arguments batch_size {Number} _.
Arguments temp {Number} _.
Arguments n_gpu_layers {Number} _.
Arguments top_k {Number} _.
Arguments top_p {Number} _.
Arguments no_display_prompt {Number} _.
Arguments chatml {Number} _.

Section worker_ts.
Context (decode : list Z → string).          (* [decoder.decode] *)
Context {Number : Type}.
Context (number_falsy : Number → bool).       (* 0 and NaN *)
Context (number_toString : Number → string).
(** [Module.callMain (args)]: the bytes llama.cpp writes to its standard
    output, in order, whether or not it ends with an exception. *)
Context (callMain : list string → list Z).

(** [stdout (c)]: the buffer left and the message posted, if any. *)
Definition stdout (c : Z) (stdoutBuffer : list Z) : list Z * list FromWorker :=
  let stdoutBuffer := stdoutBuffer ++ [c] in
  if bool_decide (c ∈ splitBytes) || bool_decide (20 < length stdoutBuffer)%nat
  then ([], [WRITE_RESULT (decode (Uint8Array_from stdoutBuffer))])
  else (stdoutBuffer, []).

(** The output of a run, byte after byte through [stdout]. *)
Definition write_all (output : list Z) (stdoutBuffer : list Z)
    : list Z * list FromWorker :=
  foldl (λ acc c, let r := stdout c acc.1 in (r.1, acc.2 ++ r.2))
        (stdoutBuffer, []) output.

(** [(x || d).toString ()], with [d] given as printed. *)
Definition or_toString (x : option Number) (d : string) : string :=
  match x with
  | Some v => if number_falsy v then d else number_toString v
  | None => d
  end.

Definition runMain_args (prompt : string) (params : GenerateTextParams Number)
    (sharedArrayBuffer : bool) (hardwareConcurrency : option Number) : list string :=
  let args :=
    ["--model"; modelPath;
     "--n-predict"; or_toString (n_predict params) "-2";
     "--ctx-size"; or_toString (ctx_size params) "2048";
     "--temp"; or_toString (temp params) "0.8";
     "--top_k"; or_toString (top_k params) "40";
     "--top_p"; or_toString (top_p params) "0.9";
     "--simple-io";
     "--log-disable";
     "--prompt"; prompt] in
  let args := if chatml params is Some true then args ++ ["--chatml"] else args in
  let args := if no_display_prompt params is Some false then args
              else args ++ ["--no-display-prompt"] in
  if sharedArrayBuffer
  then args ++ ["--threads"; or_toString hardwareConcurrency "4"]
  else args.

(** [runMain (prompt, params)]; [wasmModuleInstance] says whether the module
    was instantiated. *)
Definition runMain (wasmModuleInstance : bool) (prompt : string)
    (params : GenerateTextParams Number)
    (sharedArrayBuffer : bool) (hardwareConcurrency : option Number)
    (stdoutBuffer : list Z) : list Z * list FromWorker :=
  if negb wasmModuleInstance then (stdoutBuffer, [])
  else
    let args := runMain_args prompt params sharedArrayBuffer hardwareConcurrency in
    let run := write_all (callMain args) stdoutBuffer in
    let flushed :=
      if decide (0 < length run.1)%nat
      then run.2 ++ [WRITE_RESULT (decode (Uint8Array_from run.1))]
      else run.2 in
    ([], flushed ++ [RUN_COMPLETED]).

(** The texts posted for a list of byte segments. *)
Definition texts_of (segments : list (list Z)) : list FromWorker :=
  (λ s, WRITE_RESULT (decode (Uint8Array_from s))) <$> segments.

End worker_ts.

(** A segment [stdout] posts: it ends with a split byte or is 21 bytes long. *)
Definition closed_segment (s : list Z) : Prop :=
  (0 < length s ≤ 21)%nat
  ∧ ((∃ c, last s = Some c ∧ c ∈ splitBytes) ∨ length s = 21%nat).

(** A decoder for the examples: one character per byte. *)
Definition latin1_decode (bytes : list Z) : string :=
  string_of_list_ascii ((λ c, Ascii.ascii_of_N (Z.to_N c)) <$> bytes).

(** ** The runner (llama-runner.ts) *)

(** What a cache offers the runner: [getModelFromCache] and [cacheModel], at
    the times they read the clock and over the state of the cache's store. *)
Record CacheAPI (S : Type) : Type := {
  api_getModelFromCache : string → S → Promise (option ArrayBuffer) * S;
  api_cacheModel :
    string → ArrayBuffer → option string → option string → S → Promise unit * S;
}.

Arguments api_getModelFromCache {S} _ _ _.
Arguments api_cacheModel {S} _ _ _ _ _ _.

(** The chunked cache and the single-store cache behind that interface. *)
Definition chunked_api (this : ModelCache) (g : GetFaults) (f : PutFaults)
    (nowGet nowPut : Z) : CacheAPI IDB :=
  {| api_getModelFromCache := getModelFromCache this g nowGet;
     api_cacheModel := cacheModel this f nowPut |}.

Definition legacy_api (this : Legacy.ModelCache) (getFails putFails : bool)
    (nowPut : Z) : CacheAPI (gmap string Legacy.CachedModel) :=
  {| api_getModelFromCache := λ id st, (Legacy.getModelFromCache this getFails id st, st);
     api_cacheModel := λ id modelData _ _ st,
                         Legacy.cacheModel this putFails nowPut id modelData st |}.

(** A [File]. *)
Record File : Type := {
  file_name : string;
  file_size : Z;
  file_type : string;
}.

Inductive Source : Type :=
| SourceUrl (url : string)
| SourceFile (file : File).

(** What [fetch (url)] and the reads of the response body give: the chunks
    read before the stream ends, and the error of a read that fails. *)
Record Body : Type := {
  body_chunks : list ArrayBuffer;
  body_error : option string;
}.

Inductive FetchOutcome : Type :=
| FetchFails (error : string)
| FetchResponse (ok : bool) (statusText : string) (body : option Body)
    (contentLength : Z).

(** What the [FileReader] reports: progress events (computable or not, with
    [loaded] and [total]) and then a result or an error. *)
Record FileReadOutcome : Type := {
  read_progress : list (bool * Z * Z);
  read_result : option string + option ArrayBuffer;   (* [reader.error], or the result *)
}.

Inductive LoadError : Type :=
| ErrorMessage (message : string)
| ErrorOfCache (e : Error).

Section llama_runner.
Context {Number Callback : Type}.

(** Messages posted to the worker. *)
Inductive ToWorker : Type :=
| LOAD (wasmModulePath wasmPath : string)
| LOAD_MODEL_DATA (modelData : ArrayBuffer)
| RUN_MAIN (prompt : string) (params : GenerateTextParams Number).

(** What the runner does to the outside: messages to the worker, calls of the
    callbacks it was given, settling the promise of [loadModel]. *)
Inductive Effect : Type :=
| PostMessage (m : ToWorker)
| TerminateWorker
| Progress (progress total : Z)
| LoadResolved
| LoadRejected (error : LoadError)
| Token (tokenCallback : Callback) (text : string)
| Completion (completionCallback : Callback).

Record LlamaRunner : Type := {
  worker : bool;                        (* [this.worker] is not null *)
  isInitialized : bool;
  isLoadingModel : bool;
  onModelLoadedCallback : bool;         (* set, or null *)
  onModelLoadErrorCallback : bool;
  currentTokenCallback : option Callback;
  currentCompletionCallback : option Callback;
}.

(** [new LlamaRunner (workerPath, wasmModulePath, wasmPath)]; [href] resolves
    a path against the location of the page. *)
Definition new_LlamaRunner (href : string → string)
    (wasmModulePath wasmPath : string) : LlamaRunner * list Effect :=
  ({| worker := true; isInitialized := false; isLoadingModel := false;
      onModelLoadedCallback := false; onModelLoadErrorCallback := false;
      currentTokenCallback := None; currentCompletionCallback := None |},
   [PostMessage (LOAD (href wasmModulePath) (href wasmPath))]).

Definition load_settled (this : LlamaRunner) : LlamaRunner :=
  {| worker := worker this; isInitialized := isInitialized this;
     isLoadingModel := false;
     onModelLoadedCallback := false; onModelLoadErrorCallback := false;
     currentTokenCallback := currentTokenCallback this;
     currentCompletionCallback := currentCompletionCallback this |}.

(** [this.worker.onmessage]. *)
Definition onmessage (m : FromWorker) (this : LlamaRunner) : LlamaRunner * list Effect :=
  match m with
  | INITIALIZED =>
      ({| worker := worker this; isInitialized := true;
          isLoadingModel := false;
          onModelLoadedCallback := false; onModelLoadErrorCallback := false;
          currentTokenCallback := currentTokenCallback this;
          currentCompletionCallback := currentCompletionCallback this |},
       if isLoadingModel this && onModelLoadedCallback this then [LoadResolved] else [])
  | WRITE_RESULT text =>
      (this,
       match currentTokenCallback this with
       | Some cb => [Token cb text]
       | None => []
       end)
  | RUN_COMPLETED =>
      ({| worker := worker this; isInitialized := isInitialized this;
          isLoadingModel := isLoadingModel this;
          onModelLoadedCallback := onModelLoadedCallback this;
          onModelLoadErrorCallback := onModelLoadErrorCallback this;
          currentTokenCallback := None; currentCompletionCallback := None |},
       match currentCompletionCallback this with
       | Some cb => [Completion cb]
       | None => []
       end)
  | ERROR error =>
      (load_settled this,
       if isLoadingModel this && onModelLoadErrorCallback this
       then [LoadRejected
               (ErrorMessage (if decide (error = "")
                              then "Unknown worker error during model load"
                              else error))]
       else [])
  end.

(** [this.worker.onerror], with the [message] of the event. *)
Definition onerror (message : string) (this : LlamaRunner) : LlamaRunner * list Effect :=
  (load_settled this,
   if isLoadingModel this && onModelLoadErrorCallback this
   then [LoadRejected
           (ErrorMessage (if decide (message = "") then "Worker onerror" else message))]
   else []).

(** The messages of the worker, handled in the order they arrive. *)
Definition onmessages (ms : list FromWorker) (this : LlamaRunner)
    : LlamaRunner * list Effect :=
  foldl (λ acc m, let r := onmessage m acc.1 in (r.1, acc.2 ++ r.2)) (this, []) ms.

(** [generateText]: the exception thrown, or the new state and the message
    posted. *)
Definition generateText (prompt : string) (params : GenerateTextParams Number)
    (tokenCallback completionCallback : Callback) (this : LlamaRunner)
    : string + LlamaRunner * list Effect :=
  if negb (worker this) || negb (isInitialized this)
  then inl "LlamaRunner is not initialized or model not loaded."
  else if bool_decide (is_Some (currentTokenCallback this))
          || bool_decide (is_Some (currentCompletionCallback this))
  then inl "Text generation already in progress."
  else inr ({| worker := worker this; isInitialized := isInitialized this;
               isLoadingModel := isLoadingModel this;
               onModelLoadedCallback := onModelLoadedCallback this;
               onModelLoadErrorCallback := onModelLoadErrorCallback this;
               currentTokenCallback := Some tokenCallback;
               currentCompletionCallback := Some completionCallback |},
            [PostMessage (RUN_MAIN prompt params)]).

Definition terminate (this : LlamaRunner) : LlamaRunner * list Effect :=
  if worker this
  then ({| worker := false; isInitialized := false; isLoadingModel := false;
           onModelLoadedCallback := false; onModelLoadErrorCallback := false;
           currentTokenCallback := None; currentCompletionCallback := None |},
        [TerminateWorker])
  else (this, []).

(** The id under which a source is cached: [modelId] unless it is missing or
    empty, else the URL, else the name and the size of the file. *)
Definition actualModelId (source : Source) (modelId : option string) : string :=
  match modelId with
  | Some id => if decide (id = "") then
                 match source with
                 | SourceUrl url => url
                 | SourceFile file => file_name file +:+ "-" +:+ pretty (file_size file)
                 end
               else id
  | None =>
      match source with
      | SourceUrl url => url
      | SourceFile file => file_name file +:+ "-" +:+ pretty (file_size file)
      end
  end.

(** The loop that copies the chunks read into one buffer. *)
Fixpoint set_chunks (view : ArrayBuffer) (position : Z)
    (chunks : list ArrayBuffer) : option ArrayBuffer :=
  match chunks with
  | [] => Some view
  | chunk :: rest =>
      match typed_set view chunk position with
      | Some view' => set_chunks view' (position + byteLength chunk) rest
      | None => None
      end
  end.

Definition receivedLength (chunks : list ArrayBuffer) : Z :=
  foldl (λ n chunk, n + byteLength chunk) 0 chunks.

(** The progress calls of the read loop: the bytes received so far after
    every chunk. *)
Fixpoint stream_progress (received contentLength : Z)
    (chunks : list ArrayBuffer) : list Effect :=
  match chunks with
  | [] => []
  | chunk :: rest =>
      Progress (received + byteLength chunk) contentLength
        :: stream_progress (received + byteLength chunk) contentLength rest
  end.

(** Getting the bytes of the source: the progress reported, and the buffer or
    the exception thrown inside the [try]. *)
Definition read_source (source : Source) (progressCallback : bool)
    (fetched : FetchOutcome) (fileRead : FileReadOutcome)
    : list Effect * (LoadError + ArrayBuffer) :=
  match source with
  | SourceUrl url =>
      match fetched with
      | FetchFails error => ([], inl (ErrorMessage error))
      | FetchResponse ok statusText body contentLength =>
          if negb ok
          then ([], inl (ErrorMessage ("Failed to download model: " +:+ statusText)))
          else
            match body with
            | None => ([], inl (ErrorMessage "Response body is null"))
            | Some b =>
                let progress :=
                  if progressCallback
                  then stream_progress 0 contentLength (body_chunks b) else [] in
                match body_error b with
                | Some error => (progress, inl (ErrorMessage error))
                | None =>
                    match new_ArrayBuffer (receivedLength (body_chunks b)) with
                    | Some view =>
                        match set_chunks view 0 (body_chunks b) with
                        | Some modelData => (progress, inr modelData)
                        | None => (progress, inl (ErrorMessage "RangeError"))
                        end
                    | None => (progress, inl (ErrorMessage "RangeError"))
                    end
                end
            end
      end
  | SourceFile file =>
      let progress :=
        if progressCallback
        then omap (λ e : bool * Z * Z,
                     if e.1.1 then Some (Progress e.1.2 e.2) else None)
                  (read_progress fileRead)
        else [] in
      match read_result fileRead with
      | inl error => (progress, inl (ErrorMessage (default "File reading error" error)))
      | inr None => (progress, inl (ErrorMessage "Model data could not be retrieved."))
      | inr (Some modelData) => (progress, inr modelData)
      end
  end.

Definition loading (this : LlamaRunner) : LlamaRunner :=
  {| worker := worker this; isInitialized := isInitialized this;
     isLoadingModel := true;
     onModelLoadedCallback := true; onModelLoadErrorCallback := true;
     currentTokenCallback := currentTokenCallback this;
     currentCompletionCallback := currentCompletionCallback this |}.

(** [loadModel (source, modelId, progressCallback)] up to the point where it
    waits for the worker: the exception thrown by its guards, or the state of
    the runner and of the cache and what was done.  The promise it returns is
    settled by [LoadResolved] or [LoadRejected], here or in a later handler. *)
Definition loadModel {S} (cache : CacheAPI S) (source : Source)
    (modelId : option string) (progressCallback : bool)
    (fetched : FetchOutcome) (fileRead : FileReadOutcome)
    (this : LlamaRunner) (st : S) : string + LlamaRunner * S * list Effect :=
  if negb (worker this) then inl "Worker not initialized."
  else if isLoadingModel this then inl "Another model is already being loaded."
  else
    let this1 := loading this in
    let id := actualModelId source modelId in
    match api_getModelFromCache cache id st with
    | (Resolved (Some modelData), st1) =>
        inr (this1, st1,
             (if progressCallback
              then [Progress (byteLength modelData) (byteLength modelData)] else [])
             ++ [PostMessage (LOAD_MODEL_DATA modelData)])
    | (Resolved None, st1) =>
        match read_source source progressCallback fetched fileRead with
        | (progress, inr modelData) =>
            let modelFileName :=
              match source with SourceFile file => Some (file_name file) | _ => None end in
            let modelContentType :=
              match source with SourceFile file => Some (file_type file) | _ => None end in
            match api_cacheModel cache id modelData modelFileName modelContentType st1 with
            | (Resolved _, st2) =>
                inr (this1, st2, progress ++ [PostMessage (LOAD_MODEL_DATA modelData)])
            | (Rejected e, st2) =>
                inr (load_settled this1, st2,
                     progress ++ [LoadRejected (ErrorOfCache e)])
            | (Pending, st2) => inr (this1, st2, progress)
            end
        | (progress, inl err) =>
            inr (load_settled this1, st1, progress ++ [LoadRejected err])
        end
    | (_, st1) =>
        (* the executor stops at the rejected [await], outside the [try] *)
        inr (this1, st1, [])
    end.

End llama_runner.

(** Effects that settle the promise of [loadModel]. *)
Definition settles_load {Number Callback} (e : @Effect Number Callback) : bool :=
  match e with
  | LoadResolved | LoadRejected _ => true
  | _ => false
  end.

(** ** The worker's side of the protocol (worker.ts) *)

(** What the import of the Emscripten glue and the call of its factory give:
    an exception, with [err.message] or [String (err)]; a module without a
    default export; the instantiated module. *)
Inductive ImportOutcome : Type :=
| ImportThrows (errorMessage : string)
| NoDefaultExport
| Instantiated.

(** [wasmModuleInstance] is set, and the bytes in [stdoutBuffer]. *)
Record Worker : Type := {
  wasmModuleInstance : bool;
  stdoutBuffer : list Z;
}.

Definition new_Worker : Worker := {| wasmModuleInstance := false; stdoutBuffer := [] |}.

(** [loadModelData (modelData)]; [fs_throws]: a call of the file system of
    the module raises. *)
Definition loadModelData (fs_throws : bool) (modelData : ArrayBuffer)
    (w : Worker) : Worker * list FromWorker :=
  if negb (wasmModuleInstance w) then (w, [])
  else if fs_throws then (w, [])
  else (w, [INITIALIZED]).

(** [initWasmModule (wasmModulePath, wasmPath, modelUrl, modelData)];
    [fetched]: the body of the response for [modelUrl], [None] when the fetch
    raises or the response is not [ok]. *)
Definition initWasmModule (imported : ImportOutcome) (fs_throws : bool)
    (modelUrl : option string) (modelData : option ArrayBuffer)
    (fetched : option ArrayBuffer) (w : Worker) : Worker * list FromWorker :=
  match imported with
  | ImportThrows errorMessage =>
      (w, [ERROR ("Failed to load Wasm module: " +:+ errorMessage)])
  | NoDefaultExport =>
      (w, [ERROR ("Failed to load Wasm module: " +:+
                  "Wasm module does not have a default export. Check Emscripten build flags (MODULARIZE, EXPORT_ES6).")])
  | Instantiated =>
      let w := {| wasmModuleInstance := true; stdoutBuffer := stdoutBuffer w |} in
      match modelData with
      | Some modelData => loadModelData fs_throws modelData w
      | None =>
          match modelUrl with
          | Some url =>
              if decide (url = "") then (w, [INITIALIZED])
              else
                match fetched with
                | Some data => loadModelData fs_throws data w
                | None => (w, [])
                end
          | None => (w, [INITIALIZED])
          end
      end
  end.

(** What a message finds outside the worker. *)
Record WorkerEnv (Number : Type) : Type := {
  imported : ImportOutcome;
  fs_throws : bool;
  sharedArrayBuffer : bool;               (* [typeof SharedArrayBuffer !== 'undefined'] *)
  hardwareConcurrency : option Number;
}.

Arguments imported {Number} _.
Arguments fs_throws {Number} _.
Arguments sharedArrayBuffer {Number} _.
Arguments hardwareConcurrency {Number} _.

Section worker_onmessage.
Context (decode : list Z → string).
Context {Number : Type}.
Context (number_falsy : Number → bool).
Context (number_toString : Number → string).
Context (callMain : list string → list Z).

(** [self.onmessage] on a message of the runner, which names no [modelUrl]. *)
Definition Worker_onmessage (env : WorkerEnv Number) (m : @ToWorker Number)
    (w : Worker) : Worker * list FromWorker :=
  match m with
  | LOAD wasmModulePath wasmPath =>
      initWasmModule (imported env) (fs_throws env) None None None w
  | LOAD_MODEL_DATA modelData => loadModelData (fs_throws env) modelData w
  | RUN_MAIN prompt params =>
      let r := runMain decode number_falsy number_toString callMain
                 (wasmModuleInstance w) prompt params
                 (sharedArrayBuffer env) (hardwareConcurrency env) (stdoutBuffer w) in
      ({| wasmModuleInstance := wasmModuleInstance w; stdoutBuffer := r.1 |}, r.2)
  end.

End worker_onmessage.

(** A browser in which everything works, and one whose import fails. *)
Definition good_env : WorkerEnv Z :=
  {| imported := Instantiated; fs_throws := false; sharedArrayBuffer := false;
     hardwareConcurrency := None |}.

Definition no_wasm_env : WorkerEnv Z :=
  {| imported := ImportThrows "404"; fs_throws := false; sharedArrayBuffer := false;
     hardwareConcurrency := None |}.

(** Concrete runs for the examples: numbers as integers, callbacks by number. *)
Definition Z_falsy (z : Z) : bool := bool_decide (z = 0).

Definition no_params : GenerateTextParams Z :=
  {| n_predict := None; ctx_size := None; batch_size := None; temp := None;
     n_gpu_layers := None; top_k := None; top_p := None;
     no_display_prompt := None; chatml := None |}.

(** A run of llama.cpp that writes [Hi, yo]. *)
Definition hi_main (args : list string) : list Z := [72; 105; 44; 32; 121; 111].

Definition fresh_runner : @LlamaRunner nat :=
  (@new_LlamaRunner Z nat (λ path, path) "main.js" "main.wasm").1.

Definition ready_runner : @LlamaRunner nat :=
  (@onmessage Z nat INITIALIZED fresh_runner).1.

Definition one_chunk_response : FetchOutcome :=
  FetchResponse true "OK"
    (Some {| body_chunks := [three_bytes]; body_error := None |}) 3.

Definition no_file_read : FileReadOutcome :=
  {| read_progress := []; read_result := inr None |}.

(** A put whose metadata request fails. *)
Definition failing_metadata_put : PutFaults :=
  {| delete_fails := false; put_metadata_fails := true;
     put_chunk_fails := λ _, false; evict_faults := no_evict_faults |}.

(** ** The schema (onupgradeneeded) *)

Definition METADATA_STORE_NAME : string := "modelMetadata".
Definition CHUNK_STORE_NAME : string := "modelChunks".

(** [request.onupgradeneeded] of the chunked cache, on the names of the object
    stores of the database: the names it leaves, and whether it rejects the
    promise of [initDatabase].  [transaction] says whether the upgrade
    transaction of the event is there. *)
Definition onupgradeneeded (transaction : bool) (oldVersion : Z)
    (objectStoreNames : gset string) : gset string * bool :=
  if negb transaction then (objectStoreNames, bool_decide (0 < oldVersion))
  else
    let names :=
      if bool_decide (oldVersion < 2) && bool_decide ("models" ∈ objectStoreNames)
      then objectStoreNames ∖ {["models"]} else objectStoreNames in
    let names :=
      if bool_decide (METADATA_STORE_NAME ∈ names) then names
      else names ∪ {[METADATA_STORE_NAME]} in
    let names :=
      if bool_decide (CHUNK_STORE_NAME ∈ names) then names
      else names ∪ {[CHUNK_STORE_NAME]} in
    (names, false).

(** [request.onupgradeneeded] of the single-store cache. *)
Definition Legacy_onupgradeneeded (objectStoreNames : gset string) : gset string :=
  if bool_decide ("models" ∈ objectStoreNames) then objectStoreNames
  else objectStoreNames ∪ {["models"]}.

(** What [x || d] makes of an optional number: unset when missing or falsy. *)
Definition effective {Number} (number_falsy : Number → bool) (x : option Number)
    : option Number :=
  match x with
  | Some v => if number_falsy v then None else Some v
  | None => None
  end.

(** Options that set a zero temperature and the two options the worker does
    not read. *)
Definition zero_temp_params : GenerateTextParams Z :=
  {| n_predict := None; ctx_size := None; batch_size := Some 512; temp := Some 0;
     n_gpu_layers := Some 32; top_k := None; top_p := None;
     no_display_prompt := Some true; chatml := Some false |}.

(** * Properties *)

(** ** The stable sort *)

Section js_sort_facts.
Context {A : Type} (cmp : A → A → Z).

Lemma sort_insert_perm x l : sort_insert cmp x l ≡ₚ x :: l.
Proof.
  induction l as [|y l IH]; simpl; [done|].
  case_decide; [done|]. rewrite IH. apply Permutation_swap.
Qed.

Lemma js_sort_perm l : js_sort cmp l ≡ₚ l.
Proof.
  induction l as [|x l IH]; simpl; [done|].
  by rewrite sort_insert_perm, IH.
Qed.

Lemma js_sort_length l : length (js_sort cmp l) = length l.
Proof. by rewrite js_sort_perm. Qed.

Lemma elem_of_js_sort x l : x ∈ js_sort cmp l ↔ x ∈ l.
Proof. by rewrite js_sort_perm. Qed.

(** Sorting a list that is in order already changes nothing. *)
Lemma js_sort_sorted l : Sorted (cmp_le cmp) l → js_sort cmp l = l.
Proof.
  induction 1 as [|x l Hl IH Hhd]; simpl; [done|].
  rewrite IH. destruct Hhd as [|y l' Hxy]; simpl; [done|].
  unfold cmp_le in Hxy. by rewrite decide_True.
Qed.

(** On elements where the comparator is a total preorder the result is in
    order. *)
Section ordered.
Context (P : A → Prop).
Context (cmp_total : ∀ a b, P a → P b → cmp_le cmp a b ∨ cmp_le cmp b a).
Context (cmp_trans : ∀ a b c, P a → P b → P c →
                       cmp_le cmp a b → cmp_le cmp b c → cmp_le cmp a c).

Lemma sort_insert_StronglySorted x l :
  P x → Forall P l → StronglySorted (cmp_le cmp) l →
  StronglySorted (cmp_le cmp) (sort_insert cmp x l).
Proof.
  intros Hx HP Hl. induction Hl as [|y l Hl IH Hy]; simpl.
  { repeat constructor. }
  apply Forall_cons in HP as [HPy HP].
  case_decide as Hxy.
  - constructor; [by constructor|]. constructor; [done|].
    rewrite Forall_forall in HP, Hy. apply Forall_forall. intros z Hz.
    eapply (cmp_trans x y z); eauto.
  - constructor; [by apply IH|].
    rewrite sort_insert_perm. constructor; [|done].
    destruct (cmp_total x y Hx HPy); [done|done].
Qed.

Lemma js_sort_StronglySorted l :
  Forall P l → StronglySorted (cmp_le cmp) (js_sort cmp l).
Proof.
  induction 1 as [|x l Hx Hl IH]; simpl; [constructor|].
  apply sort_insert_StronglySorted; [done| |done].
  by rewrite js_sort_perm.
Qed.
End ordered.
End js_sort_facts.

(** ** Keys and key ranges *)

Lemma string_compare_refl (s : string) : String.compare s s = Eq.
Proof.
  pose proof (String.compare_antisym s s) as H.
  destruct (String.compare s s); [done|discriminate..].
Qed.

Lemma in_chunkRange_spec id k :
  in_chunkRange id k = true ↔ k.1 = id ∧ 0 ≤ k.2 ≤ MAX_SAFE_INTEGER.
Proof.
  destruct k as [s i]. unfold in_chunkRange, in_bound, chunkRange, key_cmp.
  cbn [fst snd]. rewrite andb_true_iff, !bool_decide_eq_true.
  rewrite (String.compare_antisym s id).
  destruct (String.compare id s) eqn:Hc; cbn [CompOpp].
  - apply String.compare_eq_iff in Hc as ->.
    assert (∀ a b, comparison_sign (a ?= b) ≤ 0 ↔ a ≤ b) as Hsign.
    { intros a b. destruct (Z.compare_spec a b); simpl; lia. }
    rewrite !Hsign. clear Hsign. intuition lia.
  - split; [lia|]. intros [-> _]. by rewrite string_compare_refl in Hc.
  - split; [lia|]. intros [-> _]. by rewrite string_compare_refl in Hc.
Qed.

Lemma in_chunkRange_own id i :
  0 ≤ i ≤ MAX_SAFE_INTEGER → in_chunkRange id (id, i) = true.
Proof. intros. by apply in_chunkRange_spec. Qed.

Lemma in_chunkRange_other id id' k :
  id ≠ id' → in_chunkRange id k = true → in_chunkRange id' k = false.
Proof.
  intros Hne [Hk _]%in_chunkRange_spec.
  apply not_true_is_false. intros [Hk' _]%in_chunkRange_spec. congruence.
Qed.

(** Inside one model's range the key order is the order of the indices. *)
Lemma key_cmp_same_model id i j : key_cmp (id, i) (id, j) ≤ 0 ↔ i ≤ j.
Proof.
  unfold key_cmp. cbn [fst snd]. rewrite string_compare_refl.
  destruct (Z.compare_spec i j); simpl; lia.
Qed.

Lemma elem_of_range_entries id s k ch :
  (k, ch) ∈ range_entries id s ↔ s !! k = Some ch ∧ in_chunkRange id k = true.
Proof.
  unfold range_entries. rewrite elem_of_js_sort, list_elem_of_filter.
  rewrite elem_of_map_to_list. simpl. tauto.
Qed.

Lemma range_entries_NoDup id s : NoDup (range_entries id s).
Proof.
  unfold range_entries. rewrite js_sort_perm.
  apply NoDup_filter, NoDup_map_to_list.
Qed.

Lemma range_entries_StronglySorted id s :
  StronglySorted (cmp_le (λ a b, key_cmp a.1 b.1)) (range_entries id s).
Proof.
  unfold range_entries.
  apply (js_sort_StronglySorted _ (λ kv, kv.1.1 = id)).
  - intros [[a i] ?] [[b j] ?]; simpl; intros -> ->.
    unfold cmp_le; cbn [fst snd]. rewrite !(key_cmp_same_model id). lia.
  - intros [[a i] ?] [[b j] ?] [[c k] ?]; simpl; intros -> -> ->.
    unfold cmp_le; cbn [fst snd]. rewrite !(key_cmp_same_model id). lia.
  - apply Forall_forall. intros [k ch] [Hin _]%list_elem_of_filter.
    by apply in_chunkRange_spec in Hin as [? _].
Qed.

(** A list in key order that holds exactly the records of the range is what
    the range query answers. *)
Lemma range_entries_unique id s l :
  StronglySorted (cmp_le (λ a b, key_cmp a.1 b.1)) l →
  NoDup l →
  (∀ k ch, (k, ch) ∈ l ↔ s !! k = Some ch ∧ in_chunkRange id k = true) →
  range_entries id s = l.
Proof.
  intros Hsorted Hnd Hl.
  apply (StronglySorted_unique_strong (cmp_le (λ a b, key_cmp a.1 b.1))).
  - intros [k1 c1] [k2 c2] [H1 R1]%elem_of_range_entries [H2 R2]%Hl.
    apply in_chunkRange_spec in R1 as [E1 _], R2 as [E2 _].
    destruct k1 as [a i], k2 as [b j]; simpl in *; subst.
    unfold cmp_le; cbn [fst snd]. rewrite !(key_cmp_same_model id). intros ??.
    assert (i = j) as -> by lia. congruence.
  - apply range_entries_StronglySorted.
  - done.
  - apply NoDup_Permutation; [apply range_entries_NoDup|done|].
    intros [k ch]. by rewrite elem_of_range_entries, Hl.
Qed.

(** The answer depends on the records of the range only. *)
Lemma range_entries_ext id s s' :
  (∀ k, in_chunkRange id k = true → s !! k = s' !! k) →
  range_entries id s = range_entries id s'.
Proof.
  intros Hext. apply range_entries_unique.
  - apply range_entries_StronglySorted.
  - apply range_entries_NoDup.
  - intros k ch. rewrite elem_of_range_entries. split.
    + intros [? Hin]. by rewrite (Hext _ Hin).
    + intros [? Hin]. by rewrite <-(Hext _ Hin).
Qed.

Lemma range_entries_nil id s :
  range_entries id s = [] ↔ ∀ k, in_chunkRange id k = true → s !! k = None.
Proof.
  split.
  - intros Hnil k Hin. destruct (s !! k) as [ch|] eqn:Hk; [|done].
    assert ((k, ch) ∈ range_entries id s) as Hel by by apply elem_of_range_entries.
    rewrite Hnil in Hel. by apply elem_of_nil in Hel.
  - intros Hnone. apply range_entries_unique; [constructor|constructor|].
    intros k ch. rewrite elem_of_nil. split; [done|].
    intros [Hk Hin]. by rewrite (Hnone _ Hin) in Hk.
Qed.

(** ** Slicing and reassembly *)

Lemma ceil_div_bounds a b :
  0 < b → (ceil_div a b - 1) * b < a ≤ ceil_div a b * b.
Proof.
  intros Hb. unfold ceil_div.
  pose proof (Z.div_mod (- a) b ltac:(lia)) as Hdm.
  pose proof (Z.mod_pos_bound (- a) b Hb) as Hm. nia.
Qed.

Lemma ceil_div_nonneg a b : 0 < b → 0 ≤ a → 0 ≤ ceil_div a b.
Proof. intros Hb Ha. pose proof (ceil_div_bounds a b Hb). nia. Qed.

Lemma ceil_div_le a b : 0 < b → 0 ≤ a → ceil_div a b ≤ a.
Proof. intros Hb Ha. pose proof (ceil_div_bounds a b Hb). nia. Qed.

Lemma byteLength_nonneg b : 0 ≤ byteLength b.
Proof. unfold byteLength. lia. Qed.

Lemma slice_inside (start end_ : Z) (b : ArrayBuffer) :
  0 ≤ start ≤ end_ → end_ ≤ byteLength b →
  slice start end_ b = take (Z.to_nat (end_ - start)) (drop (Z.to_nat start) b).
Proof.
  intros H1 H2. unfold slice, clamp_index.
  rewrite !decide_False by lia.
  by rewrite !Z.min_l, Z.max_l by lia.
Qed.

Lemma slice_length (start end_ : Z) (b : ArrayBuffer) :
  0 ≤ start ≤ end_ → end_ ≤ byteLength b →
  byteLength (slice start end_ b) = end_ - start.
Proof.
  intros H1 H2. rewrite slice_inside by done. unfold byteLength in *.
  rewrite length_take, length_drop. lia.
Qed.

(** Writing the next slice of [b] after the first [o] bytes of [b]. *)
Lemma typed_set_next (b : ArrayBuffer) (o e : Z) :
  0 ≤ o ≤ e → e ≤ byteLength b →
  typed_set (take (Z.to_nat o) b ++ replicate (Z.to_nat (byteLength b - o)) x00)
            (slice o e b) o
  = Some (take (Z.to_nat e) b ++ replicate (Z.to_nat (byteLength b - e)) x00).
Proof.
  intros H1 H2. unfold typed_set.
  rewrite slice_length by done.
  assert (byteLength (take (Z.to_nat o) b
            ++ replicate (Z.to_nat (byteLength b - o)) x00) = byteLength b) as Hlen.
  { unfold byteLength in *. rewrite length_app, length_take, length_replicate. lia. }
  rewrite Hlen, decide_True by lia. f_equal.
  rewrite slice_inside by done.
  assert (length (take (Z.to_nat o) b) = Z.to_nat o) as Hto.
  { rewrite length_take. unfold byteLength in *. lia. }
  rewrite take_app_length' by done.
  rewrite drop_app_ge by lia. rewrite Hto, drop_replicate.
  rewrite app_assoc. f_equal.
  - replace (Z.to_nat e) with (Z.to_nat o + Z.to_nat (e - o))%nat by lia.
    by rewrite take_take_drop.
  - f_equal. unfold byteLength in *. lia.
Qed.

Section chunking.
Context (this : ModelCache) (id : string) (modelData : ArrayBuffer).
Context (chunkSize_pos : 0 < cache_chunkSize this).

Local Abbreviation cs := (cache_chunkSize this).
Local Abbreviation L := (byteLength modelData).
Local Abbreviation n := (ceil_div (byteLength modelData) (cache_chunkSize this)).

Lemma chunk_start_inside i : 0 ≤ i < n → 0 ≤ i * cs < L.
Proof.
  intros Hi. pose proof (ceil_div_bounds L cs chunkSize_pos). nia.
Qed.

Lemma make_chunk_data i :
  0 ≤ i < n →
  data (make_chunk this id modelData i) = slice (i * cs) (Z.min (i * cs + cs) L) modelData.
Proof. done. Qed.

Lemma make_chunk_length i :
  0 ≤ i < n →
  byteLength (data (make_chunk this id modelData i)) = Z.min (i * cs + cs) L - i * cs.
Proof.
  intros Hi. pose proof (chunk_start_inside i Hi).
  unfold make_chunk. cbn [data].  rewrite slice_length; lia.
Qed.

Lemma reassemble_from (j : nat) (k : Z) :
  0 ≤ k → k + Z.of_nat j = n →
  let o := Z.min (k * cs) L in
  reassemble (take (Z.to_nat o) modelData ++ replicate (Z.to_nat (L - o)) x00) o
    (make_chunk this id modelData <$> seqZ k (Z.of_nat j)) = Some modelData.
Proof.
  revert k. induction j as [|j IH]; intros k Hk Hn o.
  - pose proof (ceil_div_bounds L cs chunkSize_pos) as Hb.
    assert (o = L) as -> by (subst o; nia).
    rewrite seqZ_nil by lia. simpl. f_equal.
    rewrite Z.sub_diag. simpl. rewrite app_nil_r.
    apply take_ge. unfold byteLength. lia.
  - rewrite seqZ_cons by lia. rewrite fmap_cons. cbn [reassemble].
    pose proof (chunk_start_inside k ltac:(lia)) as Hstart.
    assert (o = k * cs) as Ho by (subst o; lia).
    rewrite make_chunk_data by lia. rewrite Ho.
    rewrite (typed_set_next modelData (k * cs) (Z.min (k * cs + cs) L)) by lia.
    rewrite slice_length by lia.
    replace (Z.pred (Z.of_nat (S j))) with (Z.of_nat j) by lia.
    specialize (IH (Z.succ k) ltac:(lia) ltac:(lia)). cbn zeta in IH.
    replace (Z.min (Z.succ k * cs) L) with (Z.min (k * cs + cs) L) in IH by lia.
    replace (k * cs + (Z.min (k * cs + cs) L - k * cs))
      with (Z.min (k * cs + cs) L) by lia.
    exact IH.
Qed.

(** Reassembling the chunks of a buffer gives the buffer back. *)
Lemma reassemble_make_chunks :
  reassemble (replicate (Z.to_nat L) x00) 0 (make_chunks this id modelData)
  = Some modelData.
Proof.
  pose proof (byteLength_nonneg modelData).
  pose proof (ceil_div_nonneg L cs chunkSize_pos ltac:(done)) as Hn.
  pose proof (reassemble_from (Z.to_nat n) 0 ltac:(done) ltac:(lia)) as Hre.
  cbn zeta in Hre. rewrite Z.mul_0_l, Z.min_l, Z.sub_0_r in Hre by done.
  rewrite Z2Nat.id in Hre by done. exact Hre.
Qed.

Lemma make_chunks_length : Z.of_nat (length (make_chunks this id modelData)) = n.
Proof.
  pose proof (byteLength_nonneg modelData).
  pose proof (ceil_div_nonneg L cs chunkSize_pos ltac:(done)) as Hn.
  unfold make_chunks. rewrite length_fmap, length_seqZ.  lia.
Qed.

Lemma make_chunks_lookup (i : nat) :
  Z.of_nat i < n →
  make_chunks this id modelData !! i = Some (make_chunk this id modelData (Z.of_nat i)).
Proof.
  intros Hi. unfold make_chunks. rewrite list_lookup_fmap.
   by rewrite lookup_seqZ_lt.
Qed.
End chunking.

(** ** Deleting and writing records *)

Lemma lookup_foldl_delete {V} (l : list (string * Z * V))
    (s : gmap (string * Z) V) k :
  foldl (λ acc kv, delete kv.1 acc) s l !! k
  = if decide (k ∈ l.*1) then None else s !! k.
Proof.
  revert s. induction l as [|[k' v] l IH]; intros s; cbn [foldl fmap list_fmap fst].
  { rewrite decide_False; [done|]. apply not_elem_of_nil. }
  rewrite IH.
  destruct (decide (k ∈ l.*1)) as [Hin|Hin],
           (decide (k ∈ k' :: l.*1)) as [Hin'|Hin']; try done.
  - exfalso. apply Hin'. by right.
  - apply elem_of_cons in Hin' as [->|?]; [|done]. apply lookup_delete_eq.
  - apply lookup_delete_ne. intros ->. apply Hin'. left.
Qed.

Lemma lookup_delete_chunks id s k :
  delete_chunks id s !! k = if in_chunkRange id k then None else s !! k.
Proof.
  unfold delete_chunks. rewrite lookup_foldl_delete.
  destruct (in_chunkRange id k) eqn:Hin.
  - case_decide as Hel; [done|].
    destruct (s !! k) as [ch|] eqn:Hk; [|done].
    exfalso. apply Hel. apply list_elem_of_fmap. exists (k, ch). split; [done|].
    by apply elem_of_range_entries.
  - rewrite decide_False; [done|].
    intros ([k' ch] & -> & [_ Hin']%elem_of_range_entries)%list_elem_of_fmap.
    simpl in Hin. congruence.
Qed.

Lemma getAll_chunks_delete_chunks id s : getAll_chunks id (delete_chunks id s) = [].
Proof.
  unfold getAll_chunks.
  assert (range_entries id (delete_chunks id s) = []) as ->; [|done].
  apply range_entries_nil. intros k Hin. by rewrite lookup_delete_chunks, Hin.
Qed.

Lemma getAll_chunks_delete_chunks_ne id id' s :
  id ≠ id' → getAll_chunks id' (delete_chunks id s) = getAll_chunks id' s.
Proof.
  intros Hne. unfold getAll_chunks. f_equal. apply range_entries_ext.
  intros k Hin. rewrite lookup_delete_chunks.
  by rewrite (in_chunkRange_other id' id k).
Qed.

Lemma lookup_put_chunks (this : ModelCache) (id : string) (modelData : ArrayBuffer) (idxs : list Z)
    (base : gmap (string * Z) ModelChunk) k :
  foldl put_chunk base (make_chunk this id modelData <$> idxs) !! k
  = if decide (k.1 = id ∧ k.2 ∈ idxs) then Some (make_chunk this id modelData k.2)
    else base !! k.
Proof.
  revert base. induction idxs as [|i idxs IH]; intros base; simpl.
  { rewrite decide_False; [done|]. intros [_ []%elem_of_nil]. }
  rewrite IH. unfold put_chunk, chunk_key. cbn [make_chunk chunk_modelId chunkIndex].
  destruct k as [a j]. cbn [fst snd].
  destruct (decide (a = id ∧ j ∈ idxs)) as [[Hid Hin]|Hnin],
           (decide (a = id ∧ j ∈ i :: idxs)) as [[Hid' Hin']|Hnin']; try done.
  - exfalso. apply Hnin'. split; [done|]. by right.
  - apply elem_of_cons in Hin' as [->|?]; [|tauto]. subst a. apply lookup_insert_eq.
  - apply lookup_insert_ne. intros [= <- <-]. apply Hnin'. split; [done|]. left.
Qed.

Lemma StronglySorted_fmap_seqZ {B} (R : relation B) (f : Z → B) m (len : nat) :
  (∀ i j, m ≤ i < j → j < m + Z.of_nat len → R (f i) (f j)) →
  StronglySorted R (f <$> seqZ m (Z.of_nat len)).
Proof.
  revert m. induction len as [|len IH]; intros m HR.
  { rewrite seqZ_nil by lia. constructor. }
  rewrite seqZ_cons by lia. rewrite fmap_cons.
  replace (Z.pred (Z.of_nat (S len))) with (Z.of_nat len) by lia.
  constructor.
  - apply IH. intros i j ??. apply HR; lia.
  - apply Forall_fmap, Forall_seqZ. intros j Hj. simpl. apply HR; lia.
Qed.

(** After the chunks of a buffer are written over a store that holds no
    record of the model, the range query answers those chunks, in order. *)
Lemma getAll_chunks_put_chunks (this : ModelCache) (id : string) (modelData : ArrayBuffer)
    (base : gmap (string * Z) ModelChunk) :
  0 < cache_chunkSize this →
  byteLength modelData ≤ MAX_SAFE_INTEGER →
  (∀ k, in_chunkRange id k = true → base !! k = None) →
  getAll_chunks id (foldl put_chunk base (make_chunks this id modelData))
  = make_chunks this id modelData.
Proof.
  intros Hcs Hmax Hbase.
  pose proof (byteLength_nonneg modelData) as HL.
  pose proof (ceil_div_nonneg _ _ Hcs HL) as Hn.
  pose proof (ceil_div_le _ _ Hcs HL) as Hn'.
  unfold getAll_chunks.
  rewrite (range_entries_unique id _ (chunk_entry <$> make_chunks this id modelData)).
  - rewrite <-list_fmap_compose. apply (list_fmap_id (make_chunks this id modelData)).
  - unfold make_chunks. rewrite <-list_fmap_compose.
    rewrite <-(Z2Nat.id (ceil_div _ _)) by done.
    apply StronglySorted_fmap_seqZ. intros i j ??.
    unfold cmp_le, chunk_entry, chunk_key; cbn.
    apply key_cmp_same_model. lia.
  - unfold make_chunks. rewrite <-list_fmap_compose.
    apply NoDup_fmap_2_strong; [|apply NoDup_seqZ].
    intros i j _ _ Heq. by injection Heq.
  - intros k ch. unfold make_chunks. rewrite lookup_put_chunks. split.
    + intros (c & Heq & (i & -> & Hi%elem_of_seqZ)%list_elem_of_fmap)%list_elem_of_fmap.
      injection Heq as -> ->.
      change (chunk_key (make_chunk this id modelData i)) with (id, i).
      cbn [fst snd]. rewrite decide_True by (split; [done|apply elem_of_seqZ; lia]).
      split; [done|]. apply in_chunkRange_own. lia.
    + intros [Hk Hin]. destruct (decide _) as [[Hid Hi]|Hd].
      * apply list_elem_of_fmap. exists (make_chunk this id modelData k.2).
        split; [|apply list_elem_of_fmap; by exists k.2].
        injection Hk as <-. unfold chunk_entry, chunk_key; cbn.
        destruct k; simpl in *; by subst.
      * rewrite (Hbase _ Hin) in Hk. done.
Qed.

Lemma getAll_chunks_put_chunks_ne (this : ModelCache) (id id' : string) (modelData : ArrayBuffer)
    (base : gmap (string * Z) ModelChunk) :
  id ≠ id' →
  getAll_chunks id' (foldl put_chunk base (make_chunks this id modelData))
  = getAll_chunks id' base.
Proof.
  intros Hne. unfold getAll_chunks. f_equal. apply range_entries_ext.
  intros k [Hk _]%in_chunkRange_spec. unfold make_chunks.
  rewrite lookup_put_chunks. rewrite decide_False; [done|]. intros [? _]. congruence.
Qed.

(** The chunks of a buffer are in index order already. *)
Lemma js_sort_make_chunks (this : ModelCache) (id : string) (modelData : ArrayBuffer) :
  0 < cache_chunkSize this →
  js_sort by_chunkIndex (make_chunks this id modelData) = make_chunks this id modelData.
Proof.
  intros Hcs. apply js_sort_sorted, StronglySorted_Sorted.
  pose proof (byteLength_nonneg modelData) as HL.
  pose proof (ceil_div_nonneg _ _ Hcs HL) as Hn.
  unfold make_chunks. rewrite <-(Z2Nat.id (ceil_div _ _)) by done.
  apply StronglySorted_fmap_seqZ. intros i j ??.
  unfold cmp_le, by_chunkIndex; cbn. lia.
Qed.

(** ** deleteModel and the eviction sweep *)

Lemma deleteModel_ok this id h st :
  deleteModel this false id (Some h) st
  = (Resolved tt, {| modelMetadata := delete id (modelMetadata st);
                     modelChunks := delete_chunks id (modelChunks st) |}).
Proof. done. Qed.


Lemma deleteModel_cases this fails id h st :
  deleteModel this fails id (Some h) st
  = if fails then (Rejected RequestError, st)
    else (Resolved tt, {| modelMetadata := delete id (modelMetadata st);
                          modelChunks := delete_chunks id (modelChunks st) |}).
Proof. by destruct fails. Qed.

Lemma model_records_deleted id st :
  model_records id {| modelMetadata := delete id (modelMetadata st);
                      modelChunks := delete_chunks id (modelChunks st) |}
  = (None, []).
Proof.
  unfold model_records. cbn [modelMetadata modelChunks].
  by rewrite lookup_delete_eq, getAll_chunks_delete_chunks.
Qed.

Lemma model_records_deleted_ne id id' st :
  id ≠ id' →
  model_records id' {| modelMetadata := delete id (modelMetadata st);
                       modelChunks := delete_chunks id (modelChunks st) |}
  = model_records id' st.
Proof.
  intros Hne. unfold model_records. cbn [modelMetadata modelChunks].
  by rewrite lookup_delete_ne, getAll_chunks_delete_chunks_ne.
Qed.

(** The sweep removes the records of a model together or leaves them alone. *)
Lemma evict_loop_records this fails h metas cur st id :
  model_records id (evict_loop this fails h metas cur st) = model_records id st
  ∨ model_records id (evict_loop this fails h metas cur st) = (None, []).
Proof.
  revert cur st. induction metas as [|meta rest IH]; intros cur st; simpl.
  { by left. }
  case_decide; [by left|].
  rewrite deleteModel_cases. destruct (fails (modelId meta)); [apply IH|].
  match goal with |- context [evict_loop _ _ _ _ ?c ?s] =>
    destruct (IH c s) as [Hsame|Hgone] end; [|by right].
  rewrite Hsame. destruct (decide (modelId meta = id)) as [<-|Hne].
  - right. apply model_records_deleted.
  - left. by apply model_records_deleted_ne.
Qed.

(** The sweep never adds a metadata record. *)
Lemma evict_loop_metadata_Some this fails h metas cur st id m :
  modelMetadata (evict_loop this fails h metas cur st) !! id = Some m →
  modelMetadata st !! id = Some m.
Proof.
  revert cur st. induction metas as [|meta rest IH]; intros cur st; simpl; [done|].
  case_decide; [done|].
  rewrite deleteModel_cases. destruct (fails (modelId meta)); [apply IH|].
  intros Hm%IH. cbn [modelMetadata] in Hm.
  by apply lookup_delete_Some in Hm as [_ ?].
Qed.

Lemma evict_loop_metadata_None this fails h metas cur st id :
  modelMetadata st !! id = None →
  modelMetadata (evict_loop this fails h metas cur st) !! id = None.
Proof.
  intros Hnone.
  destruct (modelMetadata (evict_loop this fails h metas cur st) !! id) eqn:Hm; [|done].
  apply evict_loop_metadata_Some in Hm. congruence.
Qed.

Lemma evictModelsIfNeeded_records this f h st r st' id :
  evictModelsIfNeeded this f (Some h) st = (r, st') →
  model_records id st' = model_records id st ∨ model_records id st' = (None, []).
Proof.
  unfold evictModelsIfNeeded. intros Hev.
  destruct (scan_fails f); [injection Hev as <- <-; by left|].
  repeat case_decide; injection Hev as <- <-; try by left.
  apply evict_loop_records.
Qed.

Lemma evictModelsIfNeeded_resolves this f h st :
  scan_fails f = false →
  (evictModelsIfNeeded this f (Some h) st).1 = Resolved tt.
Proof.
  intros Hscan. unfold evictModelsIfNeeded. rewrite Hscan.
  by repeat case_decide.
Qed.

Lemma delete_chunks_absent id s :
  getAll_chunks id s = [] → delete_chunks id s = s.
Proof.
  unfold getAll_chunks, delete_chunks. intros Hnil.
  apply fmap_nil_inv in Hnil. by rewrite Hnil.
Qed.



(** ** cacheModel *)

Lemma write_model_Some this f now id modelData fn ct st st2 :
  write_model this f now id modelData fn ct st = Some st2 →
  st2 = {| modelMetadata :=
             <[id := make_metadata this now id modelData fn ct]> (modelMetadata st);
           modelChunks := foldl put_chunk (modelChunks st) (make_chunks this id modelData) |}.
Proof.
  unfold write_model. destruct (_ || _); [done|]. by intros [= <-].
Qed.

Lemma write_model_None this f now id modelData fn ct st :
  write_model this f now id modelData fn ct st = None ↔
  put_metadata_fails f = true
  ∨ ∃ i, 0 ≤ i < ceil_div (byteLength modelData) (cache_chunkSize this)
         ∧ put_chunk_fails f i = true.
Proof.
  unfold write_model.
  destruct (put_metadata_fails f) eqn:Hm; simpl; [by intuition|].
  destruct (existsb _ _) eqn:Hex.
  - split; [intros _; right|done].
    apply existsb_exists in Hex as (ch & Hin & Hf).
    apply list_elem_of_In in Hin. unfold make_chunks in Hin.
    apply list_elem_of_fmap in Hin as (i & -> & Hi%elem_of_seqZ).
    exists i. split; [lia|done].
  - split; [done|]. intros [?|(i & Hi & Hf)]; [done|].
    exfalso. apply not_true_iff_false in Hex. apply Hex.
    apply existsb_exists. exists (make_chunk this id modelData i).
    split; [|done]. apply list_elem_of_In. unfold make_chunks.
    apply list_elem_of_fmap. exists i. split; [done|]. apply elem_of_seqZ. lia.
Qed.

(** The records of the model right after a committed write. *)
Lemma model_records_written this now id modelData fn ct st :
  0 < cache_chunkSize this →
  byteLength modelData ≤ MAX_SAFE_INTEGER →
  model_records id
    {| modelMetadata :=
         <[id := make_metadata this now id modelData fn ct]>
           (delete id (modelMetadata st));
       modelChunks :=
         foldl put_chunk (delete_chunks id (modelChunks st))
           (make_chunks this id modelData) |}
  = (Some (make_metadata this now id modelData fn ct), make_chunks this id modelData).
Proof.
  intros Hcs Hmax. unfold model_records. cbn [modelMetadata modelChunks].
  rewrite lookup_insert_eq. f_equal.
  apply getAll_chunks_put_chunks; [done..|].
  intros k Hin. by rewrite lookup_delete_chunks, Hin.
Qed.

Lemma model_records_written_ne this now id id' modelData fn ct st :
  id ≠ id' →
  model_records id'
    {| modelMetadata :=
         <[id := make_metadata this now id modelData fn ct]>
           (delete id (modelMetadata st));
       modelChunks :=
         foldl put_chunk (delete_chunks id (modelChunks st))
           (make_chunks this id modelData) |}
  = model_records id' st.
Proof.
  intros Hne. unfold model_records. cbn [modelMetadata modelChunks].
  rewrite lookup_insert_ne, lookup_delete_ne by done. f_equal.
  by rewrite getAll_chunks_put_chunks_ne, getAll_chunks_delete_chunks_ne.
Qed.

(** How [cacheModel] runs once the database is open and the initial delete
    went through. *)
Lemma cacheModel_unfold this f now id modelData fn ct st h :
  getDb this = Resolved h →
  delete_fails f = false →
  cacheModel this f now id modelData fn ct st =
    let st1 := {| modelMetadata := delete id (modelMetadata st);
                  modelChunks := delete_chunks id (modelChunks st) |} in
    match write_model this f now id modelData fn ct st1 with
    | None => (Rejected RequestError, st1)
    | Some st2 =>
        match evictModelsIfNeeded this (evict_faults f) (Some h) st2 with
        | (Resolved _, st3) => (Resolved tt, st3)
        | (_, st3) => (Pending, st3)
        end
    end.
Proof.
  intros Hdb Hdel. unfold cacheModel. by rewrite Hdb, Hdel, deleteModel_ok.
Qed.

(** A resolved [cacheModel] wrote the model and ran the eviction. *)
Lemma cacheModel_Resolved this f now id modelData fn ct st st' :
  cacheModel this f now id modelData fn ct st = (Resolved tt, st') →
  ∃ h, getDb this = Resolved h ∧
    evictModelsIfNeeded this (evict_faults f) (Some h)
      {| modelMetadata :=
           <[id := make_metadata this now id modelData fn ct]>
             (delete id (modelMetadata st));
         modelChunks :=
           foldl put_chunk (delete_chunks id (modelChunks st))
             (make_chunks this id modelData) |}
    = (Resolved tt, st').
Proof.
  unfold cacheModel. destruct (getDb this) as [h| |] eqn:Hdb; [|done..].
  rewrite deleteModel_cases. destruct (delete_fails f); [done|].
  destruct (write_model _ _ _ _ _ _ _ _) as [st2|] eqn:Hw; [|done].
  apply write_model_Some in Hw. cbn [modelMetadata modelChunks] in Hw. subst st2.
  destruct (evictModelsIfNeeded _ _ _ _) as [[[]| |] st3] eqn:Hev; [|done..].
  intros [= <-]. by exists h.
Qed.

Lemma cacheModel_Resolved_records this f now id modelData fn ct st st' :
  0 < cache_chunkSize this →
  byteLength modelData ≤ MAX_SAFE_INTEGER →
  cacheModel this f now id modelData fn ct st = (Resolved tt, st') →
  model_records id st'
    = (Some (make_metadata this now id modelData fn ct), make_chunks this id modelData)
  ∨ model_records id st' = (None, []).
Proof.
  intros Hcs Hmax (h & Hdb & Hev)%cacheModel_Resolved.
  apply (evictModelsIfNeeded_records _ _ _ _ _ _ id) in Hev.
  by rewrite model_records_written in Hev.
Qed.

(** ** getModelFromCache *)

(** Reading a model whose records are the metadata and the chunks of a buffer
    gives the buffer; the chunk size of the reading instance plays no part. *)
Lemma getModelFromCache_stored this writer g now id modelData m st h :
  getDb this = Resolved h →
  get_metadata_fails g = false →
  get_chunks_fails g = false →
  0 < cache_chunkSize writer →
  totalSize m = byteLength modelData →
  chunkCount m = ceil_div (byteLength modelData) (cache_chunkSize writer) →
  model_records id st = (Some m, make_chunks writer id modelData) →
  (getModelFromCache this g now id st).1 = Resolved (Some modelData).
Proof.
  intros Hdb Hgm Hgc Hcs Htotal Hcount Hrec.
  injection Hrec as Hmeta Hchunks.
  unfold getModelFromCache. rewrite Hdb, Hgm, Hmeta, Hgc.
  assert (getAll_chunks id (modelChunks
            (if touch_fails g then st
             else {| modelMetadata := put_metadata (touch now m) (modelMetadata st);
                     modelChunks := modelChunks st |}))
          = make_chunks writer id modelData) as ->.
  { by destruct (touch_fails g). }
  cbn [touch chunkCount totalSize].
  rewrite decide_False by (rewrite Hcount, make_chunks_length by done; lia).
  rewrite js_sort_make_chunks by done.
  unfold new_ArrayBuffer. rewrite Htotal.
  rewrite decide_True by apply byteLength_nonneg.
  by rewrite reassemble_make_chunks.
Qed.

(** A miss: no metadata record. *)
Lemma getModelFromCache_miss this g now id st h :
  getDb this = Resolved h →
  get_metadata_fails g = false →
  modelMetadata st !! id = None →
  getModelFromCache this g now id st = (Resolved None, st).
Proof.
  intros Hdb Hgm Hmeta. unfold getModelFromCache. by rewrite Hdb, Hgm, Hmeta.
Qed.

(** ** Chunk sizes *)

Section chunk_sizes.
Context (this : ModelCache) (id : string) (modelData : ArrayBuffer).
Context (chunkSize_pos : 0 < cache_chunkSize this).

Local Abbreviation cs := (cache_chunkSize this).
Local Abbreviation L := (byteLength modelData).
Local Abbreviation n := (ceil_div (byteLength modelData) (cache_chunkSize this)).

Lemma make_chunk_full_length i :
  0 ≤ i < n - 1 → byteLength (data (make_chunk this id modelData i)) = cs.
Proof.
  intros Hi. rewrite make_chunk_length by lia.
  pose proof (ceil_div_bounds L cs chunkSize_pos). nia.
Qed.

Lemma make_chunk_last_length :
  0 < n →
  byteLength (data (make_chunk this id modelData (n - 1)))
  = if decide (L mod cs = 0) then cs else L mod cs.
Proof.
  intros Hn. rewrite make_chunk_length by lia.
  pose proof (ceil_div_bounds L cs chunkSize_pos) as Hb.
  rewrite Z.min_r by nia.
  assert (L mod cs = (L - (n - 1) * cs) mod cs) as Hmod.
  { replace L with ((L - (n - 1) * cs) + (n - 1) * cs) at 1 by lia.
    apply Z_mod_plus_full. }
  assert (0 < L - (n - 1) * cs ≤ cs) as Hr by nia.
  destruct (decide (L - (n - 1) * cs = cs)) as [Heq|Hne].
  - rewrite Hmod, Heq, Z_mod_same_full, decide_True by done. lia.
  - rewrite (Z.mod_small (L - (n - 1) * cs)) in Hmod by lia.
    rewrite decide_False by lia. lia.
Qed.

Lemma chunks_byteLength_from (j : nat) (k : Z) :
  0 ≤ k → k + Z.of_nat j = n →
  chunks_byteLength (make_chunk this id modelData <$> seqZ k (Z.of_nat j))
  = L - Z.min (k * cs) L.
Proof.
  revert k. induction j as [|j IH]; intros k Hk Hn.
  - pose proof (ceil_div_bounds L cs chunkSize_pos) as Hb.
    rewrite seqZ_nil by lia. simpl. nia.
  - rewrite seqZ_cons by lia. rewrite fmap_cons.
    replace (Z.pred (Z.of_nat (S j))) with (Z.of_nat j) by lia.
    unfold chunks_byteLength in *. cbn [foldr].
    rewrite IH by lia. rewrite make_chunk_length by lia.
    pose proof (chunk_start_inside this modelData chunkSize_pos k ltac:(lia)).
    nia.
Qed.

Lemma chunks_byteLength_make_chunks :
  chunks_byteLength (make_chunks this id modelData) = L.
Proof.
  pose proof (byteLength_nonneg modelData).
  pose proof (ceil_div_nonneg L cs chunkSize_pos ltac:(done)) as Hn.
  unfold make_chunks. rewrite <-(Z2Nat.id n) by done.
  rewrite chunks_byteLength_from by lia. lia.
Qed.
End chunk_sizes.

(** ** Reading back what was written *)

Lemma getModelFromCache_after_cacheModel this f g now now' id bytes fn ct st st' :
  0 < cache_chunkSize this →
  byteLength bytes ≤ MAX_SAFE_INTEGER →
  cacheModel this f now id bytes fn ct st = (Resolved tt, st') →
  is_Some (modelMetadata st' !! id) →
  get_metadata_fails g = false →
  get_chunks_fails g = false →
  (getModelFromCache this g now' id st').1 = Resolved (Some bytes).
Proof.
  intros Hcs Hmax Hput [m Hm] Hgm Hgc.
  pose proof (cacheModel_Resolved _ _ _ _ _ _ _ _ _ Hput) as (h & Hdb & _).
  destruct (cacheModel_Resolved_records _ _ _ _ _ _ _ _ _ Hcs Hmax Hput)
    as [Hrec|Hrec].
  - by apply (getModelFromCache_stored this this g now' id bytes
                (make_metadata this now id bytes fn ct) st' h).
  - injection Hrec as Hnone _. congruence.
Qed.

(** ** A store with one model *)

Lemma getAll_metadata_singleton id m : getAll_metadata {[id := m]} = [m].
Proof. unfold getAll_metadata. by rewrite map_to_list_singleton. Qed.

Lemma evictModelsIfNeeded_single this f h st id m :
  scan_fails f = false →
  modelMetadata st = {[id := m]} →
  evictModelsIfNeeded this f (Some h) st = (Resolved tt, st).
Proof.
  intros Hscan Hone. unfold evictModelsIfNeeded.
  rewrite Hscan, Hone, getAll_metadata_singleton.
  case_decide; [done|]. rewrite decide_True; [done|]. split; [done|lia].
Qed.

(** ** The eviction order *)

Lemma sum_totalSize_cons m metas :
  sum_totalSize (m :: metas) = totalSize m + sum_totalSize metas.
Proof.
  unfold sum_totalSize. cbn [foldl].
  assert (∀ l a, foldl (λ sum meta, sum + totalSize meta) a l
                 = a + foldl (λ sum meta, sum + totalSize meta) 0 l) as Hacc.
  { induction l as [|x l IH]; intros a; cbn [foldl]; [lia|].
    rewrite (IH (a + totalSize x)), (IH (0 + totalSize x)). lia. }
  rewrite Hacc. lia.
Qed.

Lemma sum_totalSize_perm l l' : l ≡ₚ l' → sum_totalSize l = sum_totalSize l'.
Proof.
  induction 1 as [|x l l' _ IH|x y l|l l' l'' _ IH1 _ IH2];
    rewrite ?sum_totalSize_cons; lia.
Qed.

Lemma StronglySorted_weaken {A} (R1 R2 : relation A) l :
  (∀ a b, R1 a b → R2 a b) → StronglySorted R1 l → StronglySorted R2 l.
Proof.
  intros Himp. induction 1 as [|x l _ IH Hx]; constructor; [done|].
  eapply Forall_impl; [exact Hx|]. intros y. apply Himp.
Qed.

Lemma js_sort_by_lastAccessed_sorted metas :
  StronglySorted older_or_same (js_sort by_lastAccessed metas).
Proof.
  apply (StronglySorted_weaken (cmp_le by_lastAccessed)).
  { intros a b. unfold cmp_le, by_lastAccessed, older_or_same. lia. }
  apply (js_sort_StronglySorted by_lastAccessed (λ _, True)).
  - intros a b _ _. unfold cmp_le, by_lastAccessed. lia.
  - intros a b c _ _ _. unfold cmp_le, by_lastAccessed. lia.
  - by apply Forall_true.
Qed.

Lemma getAll_metadata_perm s : getAll_metadata s ≡ₚ (map_to_list s).*2.
Proof. unfold getAll_metadata. by rewrite js_sort_perm. Qed.

Lemma elem_of_getAll_metadata s m :
  m ∈ getAll_metadata s ↔ ∃ k, s !! k = Some m.
Proof.
  rewrite getAll_metadata_perm, list_elem_of_fmap. split.
  - intros ([k m'] & -> & Hin%elem_of_map_to_list). by exists k.
  - intros [k Hk]. exists (k, m). split; [done|]. by apply elem_of_map_to_list.
Qed.

Lemma elem_of_getAll_metadata_wf st m :
  store_wf st →
  m ∈ getAll_metadata (modelMetadata st) ↔ modelMetadata st !! modelId m = Some m.
Proof.
  intros Hwf. rewrite elem_of_getAll_metadata. split; [|by eexists].
  intros [k Hk]. by rewrite (Hwf k m Hk).
Qed.

(** In a well-formed store the records of the scan have distinct ids. *)
Lemma getAll_metadata_NoDup_ids st :
  store_wf st → NoDup (modelId <$> getAll_metadata (modelMetadata st)).
Proof.
  intros Hwf. rewrite getAll_metadata_perm.
  assert (modelId <$> (map_to_list (modelMetadata st)).*2
          = (map_to_list (modelMetadata st)).*1) as ->.
  { rewrite <-list_fmap_compose. apply list_fmap_ext.
    intros i [k m] Hi. simpl. apply Hwf.
    apply elem_of_map_to_list. by eapply list_elem_of_lookup_2. }
  apply NoDup_fst_map_to_list.
Qed.

Lemma model_records_delete_models ids st id :
  model_records id (delete_models ids st)
  = if decide (id ∈ ids) then (None, []) else model_records id st.
Proof.
  revert st. induction ids as [|i ids IH]; intros st; cbn [delete_models foldl].
  { rewrite decide_False; [done|]. apply not_elem_of_nil. }
  fold (delete_models ids (delete_model_records st i)). rewrite IH.
  destruct (decide (id ∈ ids)) as [Hin|Hin].
  - rewrite decide_True; [done|]. by right.
  - destruct (decide (i = id)) as [->|Hne].
    + rewrite decide_True by left. apply model_records_deleted.
    + rewrite decide_False by (intros [?|?]%elem_of_cons; congruence).
      by apply model_records_deleted_ne.
Qed.

(** When no delete fails the sweep removes a prefix of the list it is given:
    the shortest one that brings the running size within the budget, or the
    whole list. *)
Lemma evict_loop_prefix this fails h metas cur st :
  (∀ id, fails id = false) →
  ∃ k : nat,
    (k ≤ length metas)%nat
    ∧ (∀ j : nat, (j < k)%nat →
         maxCacheSize this < cur - sum_totalSize (take j metas))
    ∧ (cur - sum_totalSize (take k metas) ≤ maxCacheSize this
       ∨ k = length metas)
    ∧ evict_loop this fails h metas cur st
      = delete_models (modelId <$> take k metas) st.
Proof.
  intros Hok. revert cur st.
  induction metas as [|m rest IH]; intros cur st.
  { exists 0%nat. repeat split; [lia|intros; lia|by right]. }
  cbn [evict_loop]. case_decide as Hcur.
  { exists 0%nat. cbn. repeat split; [lia|intros; lia|left; lia]. }
  rewrite Hok, deleteModel_ok.
  destruct (IH (cur - totalSize m) (delete_model_records st (modelId m)))
    as (k & Hk & Hbefore & Hstop & Heq).
  exists (S k). cbn [take length]. rewrite sum_totalSize_cons. repeat split.
  - lia.
  - intros [|j] Hj; cbn [take]; [cbn; lia|].
    rewrite sum_totalSize_cons. specialize (Hbefore j ltac:(lia)). lia.
  - destruct Hstop as [?| ->]; [left; lia|by right].
  - exact Heq.
Qed.

Lemma evict_loop_one this fails h m rest cur st :
  maxCacheSize this < cur →
  fails (modelId m) = false →
  cur - totalSize m ≤ maxCacheSize this →
  evict_loop this fails h (m :: rest) cur st = delete_model_records st (modelId m).
Proof.
  intros Hcur Hok Hfit. cbn [evict_loop].
  rewrite decide_False by lia. rewrite Hok, deleteModel_ok.
  destruct rest; cbn [evict_loop]; [done|]. by rewrite decide_True.
Qed.

(** ** Well-formed stores *)

Lemma empty_IDB_wf : store_wf empty_IDB.
Proof. apply map_Forall_empty. Qed.

Lemma delete_model_records_wf st id : store_wf st → store_wf (delete_model_records st id).
Proof. apply map_Forall_delete. Qed.

Lemma deleteModel_wf this fails id dbInstance st :
  store_wf st → store_wf (deleteModel this fails id dbInstance st).2.
Proof.
  intros Hwf. unfold deleteModel.
  destruct (match dbInstance with Some h => _ | None => _ end); [|done..].
  destruct fails; [done|]. by apply (delete_model_records_wf st id).
Qed.

Lemma evict_loop_wf this fails h metas cur st :
  store_wf st → store_wf (evict_loop this fails h metas cur st).
Proof.
  revert cur st. induction metas as [|m rest IH]; intros cur st Hwf; simpl; [done|].
  case_decide; [done|].
  rewrite deleteModel_cases. destruct (fails (modelId m)); apply IH; [done|].
  by apply (delete_model_records_wf st).
Qed.

Lemma evictModelsIfNeeded_wf this f dbInstance st :
  store_wf st → store_wf (evictModelsIfNeeded this f dbInstance st).2.
Proof.
  intros Hwf. unfold evictModelsIfNeeded.
  destruct (match dbInstance with Some h => _ | None => _ end); [|done..].
  destruct (scan_fails f); [done|]. repeat case_decide; try done.
  by apply evict_loop_wf.
Qed.

(** Every operation keeps the store well formed. *)
Lemma cacheModel_wf this f now id bytes fn ct st :
  store_wf st → store_wf (cacheModel this f now id bytes fn ct st).2.
Proof.
  intros Hwf. unfold cacheModel. destruct (getDb this) as [h| |]; [|done..].
  rewrite deleteModel_cases. destruct (delete_fails f); [done|].
  pose proof (delete_model_records_wf st id Hwf) as Hwf1.
  destruct (write_model _ _ _ _ _ _ _ _) as [st2|] eqn:Hw; [|done].
  apply write_model_Some in Hw.
  assert (store_wf st2) as Hwf2.
  { subst st2. unfold store_wf. cbn [modelMetadata].
    by apply map_Forall_insert_2. }
  pose proof (evictModelsIfNeeded_wf this (evict_faults f) (Some h) st2 Hwf2) as Hwf3.
  by destruct (evictModelsIfNeeded _ _ _ _) as [[[]| |] st3].
Qed.

Lemma getModelFromCache_wf this g now id st :
  store_wf st → store_wf (getModelFromCache this g now id st).2.
Proof.
  intros Hwf. unfold getModelFromCache. destruct (getDb this) as [h| |]; [|done..].
  destruct (get_metadata_fails g); [done|].
  destruct (modelMetadata st !! id) as [m|] eqn:Hm; [|done].
  set (st1 := if touch_fails g then st else _).
  assert (store_wf st1) as Hwf1.
  { subst st1. destruct (touch_fails g); [done|].
    unfold store_wf, put_metadata. cbn [modelMetadata].
    by apply map_Forall_insert_2. }
  destruct (get_chunks_fails g); [done|].
  case_decide; [by apply deleteModel_wf|].
  destruct (new_ArrayBuffer _); [|done]. by destruct (reassemble _ _ _).
Qed.

Lemma clearCache_wf this fails st : store_wf st → store_wf (clearCache this fails st).2.
Proof.
  intros Hwf. unfold clearCache. destruct (getDb this); [|done..].
  destruct fails; [done|apply empty_IDB_wf].
Qed.

(** ** What else a put that resolves leaves behind *)

(** A put that stays within the budget keeps the model it wrote. *)
Lemma cacheModel_within_budget this f now id bytes fn ct st st' :
  0 < cache_chunkSize this →
  byteLength bytes ≤ MAX_SAFE_INTEGER →
  cacheModel this f now id bytes fn ct st = (Resolved tt, st') →
  sum_totalSize (getAll_metadata
                   (<[id := make_metadata this now id bytes fn ct]>
                      (delete id (modelMetadata st)))) ≤ maxCacheSize this →
  model_records id st'
  = (Some (make_metadata this now id bytes fn ct), make_chunks this id bytes).
Proof.
  intros Hcs Hmax (h & _ & Hev)%cacheModel_Resolved Hfit.
  unfold evictModelsIfNeeded in Hev. cbn [modelMetadata] in Hev.
  destruct (scan_fails (evict_faults f)); [done|].
  rewrite decide_True in Hev by done. injection Hev as <-.
  by apply model_records_written.
Qed.

(** A failed metadata scan of the eviction leaves the put unsettled: the
    handler of [transaction.oncomplete] throws before it resolves. *)
Lemma cacheModel_scan_failure_pending this f now id bytes fn ct st h :
  getDb this = Resolved h →
  delete_fails f = false →
  put_metadata_fails f = false →
  (∀ i, put_chunk_fails f i = false) →
  scan_fails (evict_faults f) = true →
  (cacheModel this f now id bytes fn ct st).1 = Pending.
Proof.
  intros Hdb Hdel Hpm Hpc Hscan.
  rewrite (cacheModel_unfold _ _ _ _ _ _ _ _ h) by done. cbn zeta.
  destruct (write_model _ _ _ _ _ _ _ _) as [st2|] eqn:Hw.
  - unfold evictModelsIfNeeded. by rewrite Hscan.
  - apply write_model_None in Hw as [?|(i & _ & ?)]; [congruence|].
    rewrite Hpc in *. done.
Qed.

(** * The claims *)

(** C1, as stated, fails: a put that resolves can be followed by a miss.  With
    chunk size 2 and a budget of 4 bytes, a one-byte model ["a"] is stored
    first; storing five bytes under ["b"] resolves, but the sweep that follows
    the write deletes ["a"] and then ["b"] itself, and reading ["b"] finds
    nothing. *)
Lemma roundtrip_lost_to_eviction :
  (cacheModel small_cache no_put_faults 2 "b" five_bytes None None store_a).1
  = Resolved tt
  ∧ (getModelFromCache small_cache no_get_faults 3 "b"
       (cacheModel small_cache no_put_faults 2 "b" five_bytes None None store_a).2).1
    = Resolved None
  ∧ (getModelFromCache small_cache no_get_faults 3 "b"
       (cacheModel small_cache no_put_faults 2 "b" five_bytes None None store_a).2).1
    ≠ Resolved (Some five_bytes).
Proof. vm_compute. repeat split; discriminate. Qed.

(** C1 (amended): for a cache with a positive chunk size, every model id and
    every byte sequence, if [cacheModel id bytes] resolves and the model is
    still in the metadata store afterwards (the eviction sweep run by the put
    did not delete it), then [getModelFromCache id] resolves with a buffer
    equal to the input, of the same length. *)
Theorem cacheModel_getModelFromCache_roundtrip
    this f g now now' id bytes fn ct st st' :
  0 < cache_chunkSize this →
  byteLength bytes ≤ MAX_SAFE_INTEGER →
  cacheModel this f now id bytes fn ct st = (Resolved tt, st') →
  is_Some (modelMetadata st' !! id) →
  get_metadata_fails g = false →
  get_chunks_fails g = false →
  ∃ buffer,
    (getModelFromCache this g now' id st').1 = Resolved (Some buffer)
    ∧ buffer = bytes ∧ byteLength buffer = byteLength bytes.
Proof.
  intros Hcs Hmax Hput Hstored Hgm Hgc.
  exists bytes. split; [|done].
  by eapply getModelFromCache_after_cacheModel.
Qed.

Lemma cacheModel_getModelFromCache_roundtrip_witness :
  ∃ buffer,
    (getModelFromCache small_cache no_get_faults 3 "b"
       (cacheModel small_cache no_put_faults 2 "b" three_bytes None None store_a).2).1
    = Resolved (Some buffer)
    ∧ buffer = three_bytes ∧ byteLength buffer = byteLength three_bytes.
Proof.
  apply (cacheModel_getModelFromCache_roundtrip small_cache no_put_faults
           no_get_faults 2 3 "b" three_bytes None None store_a).
  - reflexivity.
  - vm_compute. discriminate.
  - vm_compute. reflexivity.
  - vm_compute. eexists. reflexivity.
  - reflexivity.
  - reflexivity.
Defined.

(** C2, as stated, fails: a put whose write fails is not rolled back as a
    whole.  The one-byte model ["a"] is stored and readable; a put of three
    bytes under ["a"] whose second chunk cannot be written rejects, and the
    write transaction leaves nothing behind, but the earlier entry, deleted by
    the put in a transaction of its own before the write, is not brought
    back: the read that found [x07] before now finds nothing. *)
Lemma write_failure_loses_stored_model :
  (getModelFromCache small_cache no_get_faults 2 "a" store_a).1
  = Resolved (Some [x07])
  ∧ (cacheModel small_cache failing_second_chunk 2 "a" three_bytes None None
       store_a).1 = Rejected RequestError
  ∧ (getModelFromCache small_cache no_get_faults 3 "a"
       (cacheModel small_cache failing_second_chunk 2 "a" three_bytes None None
          store_a).2).1 = Resolved None
  ∧ model_records "a"
      (cacheModel small_cache failing_second_chunk 2 "a" three_bytes None None
         store_a).2 ≠ model_records "a" store_a.
Proof. vm_compute. repeat split; discriminate. Qed.

(** C2 (amended): once the database is open and the initial delete went
    through, if the metadata put or any chunk put of [cacheModel id bytes]
    fails, the call rejects and only the write is rolled back: the store left
    is the store from before the put without the earlier records of [id],
    which is the store from before the put exactly when [id] had no records.
    So no metadata record and no chunk record remains under [id]
    ([isModelCached id] is false), the earlier model of [id] is lost, and the
    records of every other model are as before.  Whatever fails, after the
    call the records under [id] are either the complete set of the put
    (metadata and all chunks) or none: never chunks without metadata, never
    metadata without all of its chunks. *)
Theorem cacheModel_write_failure_rolls_back this f now id bytes fn ct st h :
  getDb this = Resolved h →
  delete_fails f = false →
  let result := cacheModel this f now id bytes fn ct st in
  (put_metadata_fails f = true
   ∨ (∃ i, 0 ≤ i < ceil_div (byteLength bytes) (cache_chunkSize this)
           ∧ put_chunk_fails f i = true) →
   result.1 = Rejected RequestError
   ∧ result.2 = (deleteModel this false id (Some h) st).2
   ∧ (result.2 = st ↔ model_records id st = (None, []))
   ∧ model_records id result.2 = (None, [])
   ∧ isModelCached this false id result.2 = Resolved false
   ∧ ∀ id', id' ≠ id → model_records id' result.2 = model_records id' st)
  ∧ (0 < cache_chunkSize this →
     byteLength bytes ≤ MAX_SAFE_INTEGER →
     model_records id result.2
       = (Some (make_metadata this now id bytes fn ct), make_chunks this id bytes)
     ∨ model_records id result.2 = (None, [])).
Proof.
  intros Hdb Hdel result. subst result.
  rewrite (cacheModel_unfold _ _ _ _ _ _ _ _ h) by done. cbn zeta.
  destruct (write_model _ _ _ _ _ _ _ _) as [st2|] eqn:Hw.
  - split.
    + intros Hfail.
      by rewrite (proj2 (write_model_None _ _ _ _ _ _ _ _) Hfail) in Hw.
    + intros Hcs Hmax.
      apply write_model_Some in Hw. cbn [modelMetadata modelChunks] in Hw. subst st2.
      destruct (evictModelsIfNeeded _ _ _ _) as [r st3] eqn:Hev.
      apply (evictModelsIfNeeded_records _ _ _ _ _ _ id) in Hev.
      rewrite model_records_written in Hev by done.
      by destruct r as [[]| |].
  - cbn [fst snd]. rewrite model_records_deleted.
    split; [|by right]. intros _. split; [done|].
    split; [by rewrite deleteModel_ok|]. split.
    { split.
      - intros <-. apply model_records_deleted.
      - destruct st as [metas chunks]. intros [= Hm Hc]. cbn in *.
        by rewrite delete_id, delete_chunks_absent. }
    split; [done|]. split.
    + unfold isModelCached. rewrite Hdb. cbn [modelMetadata].
      by rewrite lookup_delete_eq.
    + intros id' Hne. by apply model_records_deleted_ne.
Qed.

(** A put over the stored model ["a"] whose second chunk cannot be written:
    the call rejects, nothing is left under ["a"], and the store is not the
    one from before the put. *)
Lemma cacheModel_write_failure_rolls_back_witness :
  (cacheModel small_cache failing_second_chunk 2 "a" three_bytes None None
     store_a).1 = Rejected RequestError
  ∧ (cacheModel small_cache failing_second_chunk 2 "a" three_bytes None None
       store_a).2
    = (deleteModel small_cache false "a" (Some Handle) store_a).2
  ∧ model_records "a"
      (cacheModel small_cache failing_second_chunk 2 "a" three_bytes None None
         store_a).2 = (None, []).
Proof.
  pose proof (cacheModel_write_failure_rolls_back small_cache failing_second_chunk
                2 "a" three_bytes None None store_a Handle
                ltac:(reflexivity) ltac:(reflexivity)) as [Hfail _].
  destruct Hfail as (Hrej & Hstore & _ & Hgone & _).
  { right. exists 1. split; [vm_compute; split; [discriminate|reflexivity]|reflexivity]. }
  split; [exact Hrej|]. split; [exact Hstore|exact Hgone].
Defined.

(** C3, as stated, fails for the chunked cache: where IndexedDB is missing,
    [getModelFromCache] rejects with the error thrown by [getDb] instead of
    resolving with [null], and so do the other three operations. *)
Lemma unavailable_store_raises :
  (getModelFromCache (new_ModelCache NoIndexedDB None None) no_get_faults 0 "m"
     empty_IDB).1 = Rejected CachingDisabled
  ∧ (getModelFromCache (new_ModelCache NoIndexedDB None None) no_get_faults 0 "m"
       empty_IDB).1 ≠ Resolved None
  ∧ isModelCached (new_ModelCache NoIndexedDB None None) false "m" empty_IDB
    = Rejected CachingDisabled
  ∧ (cacheModel (new_ModelCache NoIndexedDB None None) no_put_faults 0 "m"
       three_bytes None None empty_IDB).1 = Rejected CachingDisabled
  ∧ (clearCache (new_ModelCache NoIndexedDB None None) false empty_IDB).1
    = Rejected CachingDisabled.
Proof. vm_compute. repeat split; discriminate. Qed.

(** C3 (amended): whenever the durable store could not be opened (IndexedDB
    missing, or the open request failed), every operation of the chunked cache
    fails fast: [getModelFromCache], [isModelCached], [cacheModel] and
    [clearCache] reject with one and the same error, whatever their arguments,
    and leave the stores untouched.  Only the single-store cache degrades
    silently: there [getModelFromCache] resolves with absent, [isModelCached]
    with false, and [cacheModel] and [clearCache] resolve without touching
    the store. *)
Theorem unavailable_store_behaviour env cs mx :
  env ≠ OpenSucceeds →
  (∃ e,
     e = match env with OpenFails => OpenError | _ => CachingDisabled end
     ∧ (∀ g now id st,
          getModelFromCache (new_ModelCache env cs mx) g now id st = (Rejected e, st))
     ∧ (∀ fails id st,
          isModelCached (new_ModelCache env cs mx) fails id st = Rejected e)
     ∧ (∀ f now id bytes fn ct st,
          cacheModel (new_ModelCache env cs mx) f now id bytes fn ct st
          = (Rejected e, st))
     ∧ (∀ fails st,
          clearCache (new_ModelCache env cs mx) fails st = (Rejected e, st)))
  ∧ (∀ fails id st,
       Legacy.getModelFromCache (Legacy.new_ModelCache env) fails id st
       = Resolved None)
  ∧ (∀ fails id st,
       Legacy.isModelCached (Legacy.new_ModelCache env) fails id st
       = Resolved false)
  ∧ (∀ fails now id bytes st,
       Legacy.cacheModel (Legacy.new_ModelCache env) fails now id bytes st
       = (Resolved tt, st))
  ∧ (∀ fails st,
       Legacy.clearCache (Legacy.new_ModelCache env) fails st = (Resolved tt, st)).
Proof.
  intros Henv. destruct env; [| |done].
  - split; [exists CachingDisabled|]; repeat split.
  - split; [exists OpenError|]; repeat split.
Qed.

Lemma unavailable_store_behaviour_witness :
  getModelFromCache (new_ModelCache OpenFails None None) no_get_faults 0 "m" store_a
  = (Rejected OpenError, store_a)
  ∧ Legacy.getModelFromCache (Legacy.new_ModelCache OpenFails) false "m" ∅
    = Resolved None.
Proof.
  destruct (unavailable_store_behaviour OpenFails None None ltac:(discriminate))
    as [(e & -> & Hget & _) (Hlegacy & _)].
  split; [apply Hget|apply Hlegacy].
Defined.

(** C4: [evictModelsIfNeeded] is what a resolved put runs on the store it
    wrote.  When no request of the sweep fails and the sizes of the stored
    models add up to more than [maxCacheSize] with more than one model
    stored, the models are taken least recently used first and a prefix of
    that order is deleted, each deletion taking the model's [totalSize] off
    the running total: the shortest prefix after which the total is at most
    [maxCacheSize], or every model.  The deleted models leave no record, the
    others keep theirs.  In particular with three models [A], [B] and [C],
    [A] strictly the least recently used and [B] and [C] together within the
    budget, [A] is absent afterwards while [B] and [C] remain. *)
Theorem evictModelsIfNeeded_lru this f h st :
  scan_fails f = false →
  (∀ id, evict_fails f id = false) →
  store_wf st →
  maxCacheSize this < sum_totalSize (getAll_metadata (modelMetadata st)) →
  (1 < length (getAll_metadata (modelMetadata st)))%nat →
  (∃ (sorted : list ModelMetadata) (k : nat),
     sorted ≡ₚ getAll_metadata (modelMetadata st)
     ∧ StronglySorted older_or_same sorted
     ∧ (k ≤ length sorted)%nat
     ∧ (∀ j : nat, (j < k)%nat →
          maxCacheSize this
          < sum_totalSize (getAll_metadata (modelMetadata st))
            - sum_totalSize (take j sorted))
     ∧ (sum_totalSize (getAll_metadata (modelMetadata st))
          - sum_totalSize (take k sorted) ≤ maxCacheSize this
        ∨ k = length sorted)
     ∧ evictModelsIfNeeded this f (Some h) st
       = (Resolved tt, delete_models (modelId <$> take k sorted) st)
     ∧ (∀ m, m ∈ take k sorted →
          model_records (modelId m)
            (delete_models (modelId <$> take k sorted) st) = (None, []))
     ∧ (∀ m, m ∈ drop k sorted →
          modelMetadata st !! modelId m = Some m
          ∧ model_records (modelId m)
              (delete_models (modelId <$> take k sorted) st)
            = model_records (modelId m) st))
  ∧ (∀ A B C,
       getAll_metadata (modelMetadata st) ≡ₚ [A; B; C] →
       lastAccessed A < lastAccessed B →
       lastAccessed A < lastAccessed C →
       totalSize B + totalSize C ≤ maxCacheSize this →
       ∃ st',
         evictModelsIfNeeded this f (Some h) st = (Resolved tt, st')
         ∧ model_records (modelId A) st' = (None, [])
         ∧ model_records (modelId B) st' = model_records (modelId B) st
         ∧ model_records (modelId C) st' = model_records (modelId C) st
         ∧ modelMetadata st' !! modelId B = Some B
         ∧ modelMetadata st' !! modelId C = Some C).
Proof.
  intros Hscan Hok Hwf Hover Hmany.
  assert (evictModelsIfNeeded this f (Some h) st
          = (Resolved tt,
             evict_loop this (evict_fails f) h
               (js_sort by_lastAccessed (getAll_metadata (modelMetadata st)))
               (sum_totalSize (getAll_metadata (modelMetadata st))) st)) as Hrun.
  { unfold evictModelsIfNeeded. rewrite Hscan.
    rewrite decide_False by lia. rewrite decide_False by lia. done. }
  pose proof (getAll_metadata_NoDup_ids st Hwf) as Hnd.
  split.
  - destruct (evict_loop_prefix this (evict_fails f) h
                (js_sort by_lastAccessed (getAll_metadata (modelMetadata st)))
                (sum_totalSize (getAll_metadata (modelMetadata st))) st Hok)
      as (k & Hk & Hbefore & Hstop & Heq).
    exists (js_sort by_lastAccessed (getAll_metadata (modelMetadata st))), k.
    split; [apply js_sort_perm|].
    split; [apply js_sort_by_lastAccessed_sorted|].
    do 3 (split; [done|]).
    split; [by rewrite Hrun, Heq|].
    set (sorted := js_sort by_lastAccessed (getAll_metadata (modelMetadata st))) in *.
    assert (NoDup (modelId <$> take k sorted ++ drop k sorted)) as Hnd'.
    { rewrite take_drop. subst sorted. by rewrite js_sort_perm. }
    rewrite fmap_app in Hnd'. apply NoDup_app in Hnd' as (_ & Hdisj & _).
    split.
    + intros m Hm. rewrite model_records_delete_models.
      rewrite decide_True; [done|]. by apply list_elem_of_fmap_2.
    + intros m Hm. split.
      * apply elem_of_getAll_metadata_wf; [done|].
        apply (elem_of_js_sort by_lastAccessed). fold sorted.
        rewrite <-(take_drop k sorted). apply elem_of_app. by right.
      * rewrite model_records_delete_models.
        rewrite decide_False; [done|]. intros Hin.
        apply (Hdisj _ Hin). by apply list_elem_of_fmap_2.
  - intros A B C Hperm HAB HAC Hfit.
    assert (sum_totalSize (getAll_metadata (modelMetadata st))
            = totalSize A + totalSize B + totalSize C) as Htotal.
    { rewrite (sum_totalSize_perm _ _ Hperm), !sum_totalSize_cons.
      unfold sum_totalSize. cbn. lia. }
    rewrite Hperm in Hnd. cbn in Hnd.
    apply NoDup_cons in Hnd as [HA Hnd]. apply NoDup_cons in Hnd as [HB _].
    rewrite !elem_of_cons, elem_of_nil in HA. rewrite elem_of_cons, elem_of_nil in HB.
    pose proof (js_sort_by_lastAccessed_sorted (getAll_metadata (modelMetadata st)))
      as Hsorted.
    pose proof (transitivity
                  (js_sort_perm by_lastAccessed (getAll_metadata (modelMetadata st)))
                  Hperm) as Hsp.
    destruct (js_sort by_lastAccessed (getAll_metadata (modelMetadata st)))
      as [|x rest] eqn:Hs.
    { by apply Permutation_nil_cons in Hsp. }
    assert (x = A) as ->.
    { apply StronglySorted_inv in Hsorted as [_ Hall].
      rewrite Forall_forall in Hall.
      assert (x ∈ [A; B; C]) as Hx by (rewrite <-Hsp; left).
      assert (A ∈ x :: rest) as HAin by (rewrite Hsp; left).
      apply elem_of_cons in HAin as [->|HAin]; [done|].
      specialize (Hall A HAin). unfold older_or_same in Hall.
      rewrite !elem_of_cons, elem_of_nil in Hx.
      destruct Hx as [->|[->|[->|[]]]]; [done|lia|lia]. }
    exists (delete_model_records st (modelId A)).
    split.
    { rewrite Hrun. f_equal. apply evict_loop_one; [lia|done|lia]. }
    assert (∀ M, M ∈ [B; C] → modelMetadata st !! modelId M = Some M) as Hstored.
    { intros M HM. apply elem_of_getAll_metadata_wf; [done|].
      rewrite Hperm. by right. }
    unfold delete_model_records.
    split; [apply model_records_deleted|].
    split; [apply model_records_deleted_ne; tauto|].
    split; [apply model_records_deleted_ne; tauto|].
    cbn [modelMetadata]. rewrite !lookup_delete_ne by tauto.
    split; apply Hstored; [left|right; left].
Qed.

(** ["a"] (one byte, used at time 1) goes; ["b"] and ["c"] stay. *)
Lemma evictModelsIfNeeded_lru_witness :
  ∃ st',
    evictModelsIfNeeded small_cache no_evict_faults (Some Handle) store_abc
    = (Resolved tt, st')
    ∧ model_records "a" st' = (None, [])
    ∧ model_records "b" st' = model_records "b" store_abc
    ∧ model_records "c" st' = model_records "c" store_abc.
Proof.
  destruct (evictModelsIfNeeded_lru small_cache no_evict_faults Handle store_abc
              ltac:(reflexivity) ltac:(reflexivity)
              ltac:(apply (bool_decide_unpack _); vm_compute; exact I)
              ltac:(vm_compute; reflexivity)
              ltac:(vm_compute; lia)) as [_ Habc].
  destruct (Habc (make_metadata small_cache 1 "a" [x07] None None)
                 (make_metadata small_cache 2 "b" three_bytes None None)
                 (make_metadata small_cache 3 "c" [x09] None None)
              ltac:(vm_compute; reflexivity) ltac:(reflexivity)
              ltac:(reflexivity) ltac:(vm_compute; discriminate))
    as (st' & Hrun & Ha & Hb & Hc & _).
  exists st'. split; [exact Hrun|]. split; [exact Ha|]. split; [exact Hb|exact Hc].
Defined.

(** The same through [cacheModel]: with ["a"] and ["b"] stored, a put of one
    byte under ["c"] evicts ["a"] and keeps the other two. *)
Example lru_eviction_after_put :
  (cacheModel small_cache no_put_faults 3 "c" [x09] None None store_ab).1
  = Resolved tt
  ∧ isModelCached small_cache false "a"
      (cacheModel small_cache no_put_faults 3 "c" [x09] None None store_ab).2
    = Resolved false
  ∧ (getModelFromCache small_cache no_get_faults 4 "b"
       (cacheModel small_cache no_put_faults 3 "c" [x09] None None store_ab).2).1
    = Resolved (Some three_bytes)
  ∧ (getModelFromCache small_cache no_get_faults 4 "c"
       (cacheModel small_cache no_put_faults 3 "c" [x09] None None store_ab).2).1
    = Resolved (Some [x09]).
Proof. vm_compute. done. Qed.

(** C5: when no other model is stored, a put of a model whose size alone
    exceeds [maxCacheSize] resolves with the model in place: its metadata and
    all its chunks are stored, [isModelCached] is true and
    [getModelFromCache] returns its bytes. *)
Theorem single_oversized_model_stays this f g now now' id bytes fn ct st h :
  getDb this = Resolved h →
  0 < cache_chunkSize this →
  byteLength bytes ≤ MAX_SAFE_INTEGER →
  delete_fails f = false →
  put_metadata_fails f = false →
  (∀ i, put_chunk_fails f i = false) →
  scan_fails (evict_faults f) = false →
  (∀ id', id' ≠ id → modelMetadata st !! id' = None) →
  maxCacheSize this < byteLength bytes →
  get_metadata_fails g = false →
  get_chunks_fails g = false →
  let result := cacheModel this f now id bytes fn ct st in
  result.1 = Resolved tt
  ∧ model_records id result.2
    = (Some (make_metadata this now id bytes fn ct), make_chunks this id bytes)
  ∧ isModelCached this false id result.2 = Resolved true
  ∧ (getModelFromCache this g now' id result.2).1 = Resolved (Some bytes).
Proof.
  intros Hdb Hcs Hmax Hdel Hpm Hpc Hscan Halone _ Hgm Hgc result.
  assert (result.1 = Resolved tt
          ∧ model_records id result.2
            = (Some (make_metadata this now id bytes fn ct),
               make_chunks this id bytes)) as [Hres Hrec].
  { subst result. rewrite (cacheModel_unfold _ _ _ _ _ _ _ _ h) by done. cbn zeta.
    destruct (write_model _ _ _ _ _ _ _ _) as [st2|] eqn:Hw.
    - apply write_model_Some in Hw. cbn [modelMetadata modelChunks] in Hw.
      rewrite (evictModelsIfNeeded_single _ _ _ _ id
                 (make_metadata this now id bytes fn ct)).
      + split; [done|]. subst st2. by apply model_records_written.
      + done.
      + subst st2. cbn [modelMetadata]. apply map_eq. intros id'.
        destruct (decide (id' = id)) as [->|Hne].
        * by rewrite lookup_insert_eq, lookup_singleton_eq.
        * rewrite lookup_insert_ne, lookup_delete_ne, lookup_singleton_ne by done.
          by apply Halone.
    - apply write_model_None in Hw as [?|(i & _ & ?)]; [congruence|].
      rewrite Hpc in *. done. }
  injection Hrec as Hmeta Hchunks.
  split; [done|]. split; [by rewrite <-Hmeta, <-Hchunks|]. split.
  - unfold isModelCached. by rewrite Hdb, Hmeta.
  - apply (getModelFromCache_stored this this g now' id bytes
             (make_metadata this now id bytes fn ct) _ h); try done.
    unfold model_records. by rewrite Hmeta, Hchunks.
Qed.

Lemma single_oversized_model_stays_witness :
  (cacheModel small_cache no_put_faults 1 "b" five_bytes None None empty_IDB).1
  = Resolved tt
  ∧ (getModelFromCache small_cache no_get_faults 2 "b"
       (cacheModel small_cache no_put_faults 1 "b" five_bytes None None
          empty_IDB).2).1
    = Resolved (Some five_bytes).
Proof.
  pose proof (single_oversized_model_stays small_cache no_put_faults no_get_faults
                1 2 "b" five_bytes None None empty_IDB Handle
                ltac:(reflexivity) ltac:(reflexivity) ltac:(vm_compute; discriminate)
                ltac:(reflexivity) ltac:(reflexivity) ltac:(reflexivity)
                ltac:(reflexivity) ltac:(reflexivity) ltac:(reflexivity)
                ltac:(reflexivity) ltac:(reflexivity))
    as (Hres & _ & _ & Hget).
  split; [exact Hres|exact Hget].
Defined.

(** C6: when [getModelFromCache id] finds a metadata record but the number of
    chunk records in the model's range differs from its [chunkCount], the
    call resolves with absent, whatever becomes of the update of
    [lastAccessed] and of the clean-up; when the clean-up transaction goes
    through, no metadata record and no chunk record is left under [id] and
    [isModelCached id] is false afterwards. *)
Theorem getModelFromCache_self_heals this g now id st h m :
  getDb this = Resolved h →
  get_metadata_fails g = false →
  get_chunks_fails g = false →
  modelMetadata st !! id = Some m →
  Z.of_nat (length (getAll_chunks id (modelChunks st))) ≠ chunkCount m →
  let result := getModelFromCache this g now id st in
  result.1 = Resolved None
  ∧ (cleanup_fails g = false →
     model_records id result.2 = (None, [])
     ∧ isModelCached this false id result.2 = Resolved false).
Proof.
  intros Hdb Hgm Hgc Hmeta Hcount result. subst result.
  unfold getModelFromCache. rewrite Hdb, Hgm, Hmeta, Hgc.
  set (st1 := if touch_fails g then st
              else {| modelMetadata := put_metadata (touch now m) (modelMetadata st);
                      modelChunks := modelChunks st |}).
  assert (modelChunks st1 = modelChunks st) as Hchunks
    by (subst st1; by destruct (touch_fails g)).
  rewrite Hchunks. cbn [touch chunkCount]. rewrite decide_True by done.
  split; [done|]. intros Hclean. cbn [snd].
  unfold deleteModel. rewrite Hdb, Hclean. cbn [snd].
  split; [apply model_records_deleted|].
  unfold isModelCached. rewrite Hdb. cbn [modelMetadata].
  by rewrite lookup_delete_eq.
Qed.

(** A store whose metadata promises two chunks and holds one. *)
Lemma getModelFromCache_self_heals_witness :
  (getModelFromCache small_cache no_get_faults 5 "b" store_b_damaged).1
  = Resolved None
  ∧ isModelCached small_cache false "b"
      (getModelFromCache small_cache no_get_faults 5 "b" store_b_damaged).2
    = Resolved false.
Proof.
  pose proof (getModelFromCache_self_heals small_cache no_get_faults 5 "b"
                store_b_damaged Handle
                (make_metadata small_cache 2 "b" three_bytes None None)
                ltac:(reflexivity) ltac:(reflexivity) ltac:(reflexivity)
                ltac:(vm_compute; reflexivity) ltac:(vm_compute; discriminate))
    as [Hres Hclean].
  split; [exact Hres|]. apply Hclean. reflexivity.
Defined.

(** C7: after a resolved put of [L] bytes by a cache with a positive chunk
    size, for the model's metadata record [m], if it is stored:
    [chunkCount m] is the ceiling of [L / chunkSize]; the range query finds
    exactly [chunkCount m] chunk records, the [i]-th with index [i]; each has
    [chunkSize] bytes except the last, which has [L mod chunkSize] bytes, or
    [chunkSize] when that remainder is zero; and the byte lengths add up to
    [totalSize m], which is [L]. *)
Theorem cacheModel_chunk_invariant this f now id bytes fn ct st st' m :
  0 < cache_chunkSize this →
  byteLength bytes ≤ MAX_SAFE_INTEGER →
  cacheModel this f now id bytes fn ct st = (Resolved tt, st') →
  modelMetadata st' !! id = Some m →
  let cs := cache_chunkSize this in
  let L := byteLength bytes in
  let chunks := getAll_chunks id (modelChunks st') in
  (chunkCount m - 1) * cs < L ≤ chunkCount m * cs
  ∧ chunkCount m = ceil_div L cs
  ∧ chunkSize m = cs
  ∧ totalSize m = L
  ∧ Z.of_nat (length chunks) = chunkCount m
  ∧ (∀ (i : nat) ch, chunks !! i = Some ch →
       chunk_modelId ch = id
       ∧ chunkIndex ch = Z.of_nat i
       ∧ byteLength (data ch) =
           if decide (Z.of_nat i < chunkCount m - 1) then cs
           else if decide (L mod cs = 0) then cs else L mod cs)
  ∧ chunks_byteLength chunks = totalSize m.
Proof.
  intros Hcs Hmax Hput Hm cs L chunks. subst cs L chunks.
  destruct (cacheModel_Resolved_records _ _ _ _ _ _ _ _ _ Hcs Hmax Hput)
    as [Hrec|Hrec]; injection Hrec as Hmeta Hchunks; [|congruence].
  rewrite Hm in Hmeta. injection Hmeta as ->.
  rewrite Hchunks. cbn [make_metadata chunkCount chunkSize totalSize].
  split; [apply ceil_div_bounds; done|].
  do 3 (split; [done|]).
  split; [by apply make_chunks_length|].
  split; [|by apply chunks_byteLength_make_chunks].
  intros i ch Hi.
  assert (Z.of_nat i < ceil_div (byteLength bytes) (cache_chunkSize this)) as Hlt.
  { apply lookup_lt_Some in Hi.
    pose proof (make_chunks_length this id bytes Hcs). lia. }
  rewrite make_chunks_lookup in Hi by done. injection Hi as <-.
  do 2 (split; [done|]).
  case_decide as Hfull.
  - apply make_chunk_full_length; [done|lia].
  - replace (Z.of_nat i)
      with (ceil_div (byteLength bytes) (cache_chunkSize this) - 1) by lia.
    apply make_chunk_last_length; [done|lia].
Qed.

Lemma cacheModel_chunk_invariant_witness :
  ∃ m st',
    cacheModel small_cache no_put_faults 2 "b" three_bytes None None store_a
      = (Resolved tt, st')
    ∧ modelMetadata st' !! "b" = Some m
    ∧ chunkCount m = 2 ∧ totalSize m = 3
    ∧ Z.of_nat (length (getAll_chunks "b" (modelChunks st'))) = chunkCount m
    ∧ chunks_byteLength (getAll_chunks "b" (modelChunks st')) = totalSize m.
Proof.
  eexists _, _. split; [vm_compute; reflexivity|].
  split; [vm_compute; reflexivity|].
  split; [reflexivity|]. split; [reflexivity|].
  pose proof (cacheModel_chunk_invariant small_cache no_put_faults 2 "b"
                three_bytes None None store_a _ _
                ltac:(reflexivity) ltac:(vm_compute; discriminate)
                ltac:(vm_compute; reflexivity) ltac:(vm_compute; reflexivity))
    as (_ & _ & _ & _ & Hlen & _ & Hsum).
  split; [exact Hlen|exact Hsum].
Defined.

(** C8, as stated, fails in its first half: after two resolved puts under
    ["b"], the second of five bytes against a budget of four with another
    model stored, the sweep run by the second put deletes ["b"] as well, and
    reading ["b"] finds nothing. *)
Lemma overwrite_lost_to_eviction :
  (cacheModel small_cache no_put_faults 2 "b" three_bytes None None store_a).1
  = Resolved tt
  ∧ (cacheModel small_cache no_put_faults 3 "b" five_bytes None None
       (cacheModel small_cache no_put_faults 2 "b" three_bytes None None store_a).2).1
    = Resolved tt
  ∧ (getModelFromCache small_cache no_get_faults 4 "b"
       (cacheModel small_cache no_put_faults 3 "b" five_bytes None None
          (cacheModel small_cache no_put_faults 2 "b" three_bytes None None
             store_a).2).2).1
    = Resolved None.
Proof. vm_compute. done. Qed.

(** C8 (amended): for a cache with a positive chunk size, after a resolved
    [cacheModel id A] followed by a resolved [cacheModel id B], the records
    under [id] are exactly those of [B] (its metadata and its chunks, none of
    the first put), or there is no record under [id] at all, when the
    eviction sweep run by the second put deleted the model; whenever the
    model is still stored, [getModelFromCache id] returns [B]. *)
Theorem cacheModel_overwrite this fA fB g nowA nowB now' id A B fnA ctA fnB ctB
    st st1 st2 :
  0 < cache_chunkSize this →
  byteLength B ≤ MAX_SAFE_INTEGER →
  cacheModel this fA nowA id A fnA ctA st = (Resolved tt, st1) →
  cacheModel this fB nowB id B fnB ctB st1 = (Resolved tt, st2) →
  (model_records id st2
     = (Some (make_metadata this nowB id B fnB ctB), make_chunks this id B)
   ∨ model_records id st2 = (None, []))
  ∧ (is_Some (modelMetadata st2 !! id) →
     get_metadata_fails g = false → get_chunks_fails g = false →
     (getModelFromCache this g now' id st2).1 = Resolved (Some B)).
Proof.
  intros Hcs Hmax _ HputB.
  split; [by eapply cacheModel_Resolved_records|].
  intros Hstored Hgm Hgc. by eapply getModelFromCache_after_cacheModel.
Qed.

Lemma cacheModel_overwrite_witness :
  (model_records "b"
     (cacheModel small_cache no_put_faults 3 "b" three_bytes None None
        (cacheModel small_cache no_put_faults 2 "b" five_bytes None None
           empty_IDB).2).2
   = (Some (make_metadata small_cache 3 "b" three_bytes None None),
      make_chunks small_cache "b" three_bytes)
   ∨ model_records "b"
       (cacheModel small_cache no_put_faults 3 "b" three_bytes None None
          (cacheModel small_cache no_put_faults 2 "b" five_bytes None None
             empty_IDB).2).2
     = (None, []))
  ∧ (getModelFromCache small_cache no_get_faults 4 "b"
       (cacheModel small_cache no_put_faults 3 "b" three_bytes None None
          (cacheModel small_cache no_put_faults 2 "b" five_bytes None None
             empty_IDB).2).2).1
    = Resolved (Some three_bytes).
Proof.
  pose proof (cacheModel_overwrite small_cache no_put_faults no_put_faults
                no_get_faults 2 3 4 "b" five_bytes three_bytes None None None None
                empty_IDB _ _
                ltac:(reflexivity) ltac:(vm_compute; discriminate)
                ltac:(vm_compute; reflexivity) ltac:(vm_compute; reflexivity))
    as [Hrecords Hget].
  split; [exact Hrecords|].
  apply Hget; [vm_compute; eexists; reflexivity|reflexivity..].
Defined.




Example eviction_skips_failed_delete :
  model_records "a"
    (cacheModel small_cache failing_evict_a 3 "c" [x09] None None store_ab).2
  = model_records "a" store_ab
  ∧ model_records "b"
      (cacheModel small_cache failing_evict_a 3 "c" [x09] None None store_ab).2
    = (None, [])
  ∧ isModelCached small_cache false "c"
      (cacheModel small_cache failing_evict_a 3 "c" [x09] None None store_ab).2
    = Resolved true.
Proof. vm_compute. done. Qed.

(** C10: a falsy [chunkSizeInBytes] or [maxCacheSizeInBytes] ([undefined] or
    an explicit 0) is replaced by the default, 16 MiB and 512 MiB, so the
    chunk size of an instance is never zero; a truthy argument is stored
    unchanged; opening the database, whatever its outcome, does not touch
    either field. *)
Theorem constructor_defaults env cs mx :
  cache_chunkSize (new_ModelCache env cs mx) ≠ 0
  ∧ maxCacheSize (new_ModelCache env cs mx) ≠ 0
  ∧ (cs = None ∨ cs = Some 0 →
     cache_chunkSize (new_ModelCache env cs mx) = 16 * 1024 * 1024)
  ∧ (mx = None ∨ mx = Some 0 →
     maxCacheSize (new_ModelCache env cs mx) = 512 * 1024 * 1024)
  ∧ (∀ v, cs = Some v → v ≠ 0 → cache_chunkSize (new_ModelCache env cs mx) = v)
  ∧ (∀ v, mx = Some v → v ≠ 0 → maxCacheSize (new_ModelCache env cs mx) = v)
  ∧ (∀ env', cache_chunkSize (new_ModelCache env' cs mx)
             = cache_chunkSize (new_ModelCache env cs mx)
             ∧ maxCacheSize (new_ModelCache env' cs mx)
               = maxCacheSize (new_ModelCache env cs mx))
  ∧ (∀ id bytes, chunkSize (make_metadata (new_ModelCache env cs mx) 0 id bytes
                              None None) ≠ 0).
Proof.
  unfold new_ModelCache, make_metadata, js_or; cbn [cache_chunkSize maxCacheSize chunkSize].
  assert (DEFAULT_CHUNK_SIZE_BYTES = 16 * 1024 * 1024) as Hc by done.
  assert (DEFAULT_MAX_CACHE_SIZE_BYTES = 512 * 1024 * 1024) as Hm by done.
  repeat split.
  - destruct cs as [v|]; [case_decide|]; lia.
  - destruct mx as [v|]; [case_decide|]; lia.
  - by intros [->| ->].
  - by intros [->| ->].
  - intros v -> Hv. by rewrite decide_False.
  - intros v -> Hv. by rewrite decide_False.
  - destruct cs as [v|]; [case_decide|]; lia.
Qed.

(** * Further properties of the chunked cache *)

(** ** Deleting *)

(** X1: deleting a model of which the store has no metadata record and no
    chunk record resolves and leaves the store exactly as it was; so deleting
    a model twice is the same as deleting it once. *)
Theorem deleteModel_absent_noop this h id st :
  (model_records id st = (None, []) →
   deleteModel this false id (Some h) st = (Resolved tt, st))
  ∧ deleteModel this false id (Some h) (deleteModel this false id (Some h) st).2
    = deleteModel this false id (Some h) st.
Proof.
  assert (∀ st0, model_records id st0 = (None, []) →
            deleteModel this false id (Some h) st0 = (Resolved tt, st0)) as Hnoop.
  { intros [metas chunks] [= Hm Hc]. rewrite deleteModel_ok. cbn in *.
    by rewrite delete_id, delete_chunks_absent. }
  split; [apply Hnoop|].
  rewrite (deleteModel_ok this id h st). cbn [snd].
  rewrite Hnoop; [done|]. apply model_records_deleted.
Qed.

Lemma deleteModel_absent_noop_witness :
  deleteModel small_cache false "zz" (Some Handle) store_ab = (Resolved tt, store_ab).
Proof.
  apply (proj1 (deleteModel_absent_noop small_cache Handle "zz" store_ab)).
  vm_compute. reflexivity.
Defined.

(** ** Clearing *)

(** X2: when [clearCache] resolves both stores are empty: every id is then
    reported as not cached and read as absent, by any instance whose database
    is open; when a clear request fails the call rejects and the stores are
    as before. *)
Theorem clearCache_clears this h fails st :
  getDb this = Resolved h →
  (fails = false →
   clearCache this fails st = (Resolved tt, empty_IDB)
   ∧ ∀ reader h' g now id,
       getDb reader = Resolved h' →
       isModelCached reader false id (clearCache this fails st).2 = Resolved false
       ∧ (get_metadata_fails g = false →
          getModelFromCache reader g now id (clearCache this fails st).2
          = (Resolved None, empty_IDB)))
  ∧ (fails = true → clearCache this fails st = (Rejected RequestError, st)).
Proof.
  intros Hdb. unfold clearCache. rewrite Hdb. split.
  - intros ->. split; [done|]. intros reader h' g now id Hdb'. cbn [snd]. split.
    + unfold isModelCached. by rewrite Hdb'.
    + intros Hgm. unfold getModelFromCache. by rewrite Hdb', Hgm.
  - by intros ->.
Qed.

Lemma clearCache_clears_witness :
  clearCache small_cache false store_ab = (Resolved tt, empty_IDB)
  ∧ isModelCached small_cache false "a" (clearCache small_cache false store_ab).2
    = Resolved false.
Proof.
  destruct (clearCache_clears small_cache Handle false store_ab ltac:(reflexivity))
    as [Hok _].
  destruct (Hok ltac:(reflexivity)) as [Hres Hall].
  split; [exact Hres|].
  apply (Hall small_cache Handle no_get_faults 0 "a"). reflexivity.
Defined.

(** ** Reading *)

(** X3: a read that finds a metadata record whose chunk count matches and
    whose [lastAccessed] update goes through changes nothing in the store but
    that record, and nothing in the record but [lastAccessed], which becomes
    the time of the read; the chunk store is not written.  (The record is
    stored under its own [modelId], as in every store the cache builds.) *)
Theorem getModelFromCache_refreshes_lastAccessed this h g now id st m :
  getDb this = Resolved h →
  get_metadata_fails g = false →
  touch_fails g = false →
  modelMetadata st !! id = Some m →
  modelId m = id →
  Z.of_nat (length (getAll_chunks id (modelChunks st))) = chunkCount m →
  let st' := (getModelFromCache this g now id st).2 in
  modelChunks st' = modelChunks st
  ∧ (∀ id', id' ≠ id → modelMetadata st' !! id' = modelMetadata st !! id')
  ∧ ∃ m', modelMetadata st' !! id = Some m'
          ∧ lastAccessed m' = now
          ∧ modelId m' = modelId m ∧ totalSize m' = totalSize m
          ∧ chunkCount m' = chunkCount m ∧ chunkSize m' = chunkSize m
          ∧ createdAt m' = createdAt m ∧ fileName m' = fileName m
          ∧ contentType m' = contentType m.
Proof.
  intros Hdb Hgm Htouch Hmeta Hid Hcount st'. subst st'.
  unfold getModelFromCache. rewrite Hdb, Hgm, Hmeta, Htouch.
  cbn [modelChunks touch chunkCount totalSize].
  destruct (get_chunks_fails g).
  - cbn [snd modelChunks modelMetadata]; unfold put_metadata; cbn [touch modelId].
    split; [done|]. split.
    + intros id' Hne. rewrite Hid. by rewrite lookup_insert_ne.
    + eexists. rewrite Hid, lookup_insert_eq. split; [done|]. by repeat split.
  - rewrite decide_False by (intros ?; done).
    destruct (new_ArrayBuffer _) as [view|];
      [destruct (reassemble _ _ _)|];
      cbn [snd modelChunks modelMetadata]; unfold put_metadata; cbn [touch modelId];
      (split; [done|]; split;
       [intros id' Hne; rewrite Hid; by rewrite lookup_insert_ne
       |eexists; rewrite Hid, lookup_insert_eq; split; [done|]; by repeat split]).
Qed.

Lemma getModelFromCache_refreshes_lastAccessed_witness :
  ∃ m', modelMetadata (getModelFromCache small_cache no_get_faults 9 "b" store_ab).2
          !! "b" = Some m'
        ∧ lastAccessed m' = 9 ∧ totalSize m' = 3.
Proof.
  destruct (getModelFromCache_refreshes_lastAccessed small_cache Handle
              no_get_faults 9 "b" store_ab
              (make_metadata small_cache 2 "b" three_bytes None None)
              ltac:(reflexivity) ltac:(reflexivity) ltac:(reflexivity)
              ltac:(vm_compute; reflexivity) ltac:(reflexivity)
              ltac:(vm_compute; reflexivity))
    as (_ & _ & m' & Hm' & Hnow & _ & Hsize & _).
  exists m'. split; [exact Hm'|]. split; [exact Hnow|exact Hsize].
Defined.

(** ** The cache as a map from ids to buffers *)

Lemma holds_records st st' id bytes :
  model_records id st' = model_records id st → holds st id bytes → holds st' id bytes.
Proof.
  intros Heq (m & w & ? & ? & ? & ? & ? & Hrec).
  exists m, w. by rewrite Heq.
Qed.

Lemma holds_metadata st id bytes :
  holds st id bytes →
  ∃ m, modelMetadata st !! id = Some m ∧ modelId m = id
       ∧ totalSize m = byteLength bytes.
Proof.
  intros (m & w & ? & ? & ? & ? & ? & [= Hm _]). by exists m.
Qed.

Lemma represents_Some st cont id m :
  represents st cont → modelMetadata st !! id = Some m →
  ∃ bytes, cont !! id = Some bytes ∧ holds st id bytes.
Proof.
  intros Hrep Hm. specialize (Hrep id).
  destruct (cont !! id) as [bytes|]; [by exists bytes|congruence].
Qed.

Lemma represents_None st cont id :
  represents st cont → modelMetadata st !! id = None → cont !! id = None.
Proof.
  intros Hrep Hm. specialize (Hrep id).
  destruct (cont !! id) as [bytes|]; [|done].
  apply holds_metadata in Hrep as (m & ? & _). congruence.
Qed.

Lemma represents_empty : represents empty_IDB ∅.
Proof. intros id. by rewrite lookup_empty. Qed.

(** Refreshing [lastAccessed] does not change what the store holds. *)
Lemma represents_touch st cont id m now :
  represents st cont →
  modelMetadata st !! id = Some m →
  represents {| modelMetadata := put_metadata (touch now m) (modelMetadata st);
                modelChunks := modelChunks st |} cont.
Proof.
  intros Hrep Hm.
  destruct (represents_Some _ _ _ _ Hrep Hm) as (bytes & Hc & Hh).
  destruct Hh as (m0 & w & Hid & Hcs & Hsz & Htot & Hcnt & Hrec).
  injection Hrec as Hm0 Hchunks. rewrite Hm in Hm0. injection Hm0 as <-.
  intros id'. destruct (decide (id' = id)) as [->|Hne].
  - rewrite Hc. exists (touch now m), w. repeat split; try done.
    unfold model_records, put_metadata. cbn [modelMetadata modelChunks touch modelId].
    by rewrite Hid, lookup_insert_eq, Hchunks.
  - specialize (Hrep id').
    assert (modelMetadata
              {| modelMetadata := put_metadata (touch now m) (modelMetadata st);
                 modelChunks := modelChunks st |} !! id'
            = modelMetadata st !! id') as Hsame.
    { unfold put_metadata. cbn [modelMetadata touch modelId].
      rewrite Hid. by rewrite lookup_insert_ne. }
    destruct (cont !! id') as [b|]; [|by rewrite Hsame].
    eapply holds_records; [|exact Hrep].
    unfold model_records. by rewrite Hsame.
Qed.

Lemma getModelFromCache_represents this g now id st cont :
  represents st cont →
  represents (getModelFromCache this g now id st).2 cont
  ∧ (∀ h, getDb this = Resolved h →
          get_metadata_fails g = false → get_chunks_fails g = false →
          (getModelFromCache this g now id st).1 = Resolved (cont !! id)).
Proof.
  intros Hrep. unfold getModelFromCache.
  destruct (getDb this) as [h| |] eqn:Hdb; [|by split..].
  destruct (get_metadata_fails g) eqn:Hgm; [by split|].
  destruct (modelMetadata st !! id) as [m|] eqn:Hm.
  2:{ split; [done|]. intros _ _ _ _. by rewrite (represents_None _ _ _ Hrep Hm). }
  set (st1 := if touch_fails g then st
              else {| modelMetadata := put_metadata (touch now m) (modelMetadata st);
                      modelChunks := modelChunks st |}).
  assert (represents st1 cont) as Hrep1.
  { subst st1. destruct (touch_fails g); [done|]. by apply (represents_touch st cont id m now). }
  assert (modelChunks st1 = modelChunks st) as Hchunks
    by (subst st1; by destruct (touch_fails g)).
  destruct (represents_Some _ _ _ _ Hrep Hm) as (bytes & Hc & Hh).
  destruct Hh as (m0 & w & Hid & Hcs & Hsz & Htot & Hcnt & Hrec).
  injection Hrec as Hm0 Hall. rewrite Hm in Hm0. injection Hm0 as <-.
  destruct (get_chunks_fails g) eqn:Hgc; [by split|].
  rewrite Hchunks, Hall. cbn [touch chunkCount totalSize].
  rewrite decide_False by (rewrite Hcnt, (make_chunks_length w id bytes) by done; lia).
  rewrite js_sort_make_chunks by done.
  unfold new_ArrayBuffer. rewrite Htot.
  rewrite decide_True by apply byteLength_nonneg.
  rewrite (reassemble_make_chunks w id bytes) by done.
  split; [done|]. intros _ _ _ _. by rewrite Hc.
Qed.

(** X4: on a store that holds the buffers of a map [cont], and nothing else,
    [getModelFromCache id] answers [cont !! id]: the buffer held under [id],
    or absent; and the store still holds exactly [cont] afterwards, whatever
    request of the read failed. *)
Theorem getModelFromCache_is_lookup this h g now id st cont :
  getDb this = Resolved h →
  represents st cont →
  represents (getModelFromCache this g now id st).2 cont
  ∧ (get_metadata_fails g = false → get_chunks_fails g = false →
     (getModelFromCache this g now id st).1 = Resolved (cont !! id)).
Proof.
  intros Hdb Hrep.
  destruct (getModelFromCache_represents this g now id st cont Hrep) as [H1 H2].
  split; [done|]. intros. by eapply H2.
Qed.

Lemma represents_deleted st cont id :
  represents st cont →
  represents {| modelMetadata := delete id (modelMetadata st);
                modelChunks := delete_chunks id (modelChunks st) |} (delete id cont).
Proof.
  intros Hrep id'. destruct (decide (id' = id)) as [->|Hne].
  - rewrite lookup_delete_eq. cbn [modelMetadata]. apply lookup_delete_eq.
  - rewrite lookup_delete_ne by done. specialize (Hrep id').
    destruct (cont !! id') as [b|].
    + eapply holds_records; [|exact Hrep]. by apply model_records_deleted_ne.
    + cbn [modelMetadata]. by rewrite lookup_delete_ne.
Qed.

Lemma represents_written this now id bytes fn ct st cont :
  0 < cache_chunkSize this →
  byteLength bytes ≤ MAX_SAFE_INTEGER →
  represents st cont →
  represents
    {| modelMetadata :=
         <[id := make_metadata this now id bytes fn ct]> (delete id (modelMetadata st));
       modelChunks :=
         foldl put_chunk (delete_chunks id (modelChunks st)) (make_chunks this id bytes) |}
    (<[id := bytes]> cont).
Proof.
  intros Hcs Hmax Hrep id'. destruct (decide (id' = id)) as [->|Hne].
  - rewrite lookup_insert_eq.
    exists (make_metadata this now id bytes fn ct), this.
    repeat split; try done. by apply model_records_written.
  - rewrite lookup_insert_ne by done. specialize (Hrep id').
    destruct (cont !! id') as [b|].
    + eapply holds_records; [|exact Hrep]. by apply model_records_written_ne.
    + cbn [modelMetadata]. by rewrite lookup_insert_ne, lookup_delete_ne.
Qed.

Lemma represents_store_a : represents store_a {["a" := [x07]]}.
Proof.
  assert (store_a
          = {| modelMetadata :=
                 <["a" := make_metadata small_cache 1 "a" [x07] None None]>
                   (delete "a" (modelMetadata empty_IDB));
               modelChunks :=
                 foldl put_chunk (delete_chunks "a" (modelChunks empty_IDB))
                   (make_chunks small_cache "a" [x07]) |}) as ->
    by (vm_compute; reflexivity).
  rewrite <-insert_empty.
  apply represents_written; [reflexivity|vm_compute; discriminate|].
  exact represents_empty.
Qed.

Lemma represents_store_ab :
  represents store_ab (<["b" := three_bytes]> {["a" := [x07]]}).
Proof.
  assert (store_ab
          = {| modelMetadata :=
                 <["b" := make_metadata small_cache 2 "b" three_bytes None None]>
                   (delete "b" (modelMetadata store_a));
               modelChunks :=
                 foldl put_chunk (delete_chunks "b" (modelChunks store_a))
                   (make_chunks small_cache "b" three_bytes) |}) as ->
    by (vm_compute; reflexivity).
  apply represents_written; [reflexivity|vm_compute; discriminate|].
  exact represents_store_a.
Qed.

(** A read of the two-chunk model ["b"] from the store that holds ["a"] and
    ["b"]: the buffer of ["b"] comes back and the store holds what it held. *)
Lemma getModelFromCache_is_lookup_witness :
  (getModelFromCache small_cache no_get_faults 5 "b" store_ab).1
  = Resolved (Some three_bytes)
  ∧ represents (getModelFromCache small_cache no_get_faults 5 "b" store_ab).2
      (<["b" := three_bytes]> {["a" := [x07]]}).
Proof.
  destruct (getModelFromCache_is_lookup small_cache Handle no_get_faults 5 "b"
              store_ab (<["b" := three_bytes]> {["a" := [x07]]})
              eq_refl represents_store_ab) as [Hrep Hget].
  split; [|exact Hrep].
  rewrite (Hget eq_refl eq_refl). by rewrite lookup_insert_eq.
Defined.

(** What is left of [cont] once the models without metadata in [st] are
    forgotten. *)
Lemma represents_evicted this f h st cont r st' :
  represents st cont →
  evictModelsIfNeeded this f (Some h) st = (r, st') →
  ∃ cont', represents st' cont'
           ∧ ∀ id, cont' !! id = cont !! id ∨ cont' !! id = None.
Proof.
  intros Hrep Hev.
  exists (filter (λ kv, is_Some (modelMetadata st' !! kv.1)) cont). split.
  - intros id.
    pose proof (evictModelsIfNeeded_records _ _ _ _ _ _ id Hev) as Hrec.
    specialize (Hrep id).
    destruct (filter _ cont !! id) as [b|] eqn:Hf.
    + apply map_lookup_filter_Some in Hf as [Hc [m Hm]]. cbn [fst] in Hm.
      rewrite Hc in Hrep.
      destruct Hrec as [Hsame|[= Hnone _]]; [|congruence].
      by eapply holds_records.
    + apply map_lookup_filter_None in Hf as [Hc|Hf].
      * rewrite Hc in Hrep.
        destruct Hrec as [[= Hsame _]|[= Hnone _]]; [congruence|done].
      * destruct (cont !! id) as [b|] eqn:Hc;
          [|destruct Hrec as [[= Hsame _]|[= Hnone _]]; [congruence|done]].
        specialize (Hf b eq_refl). cbn [fst] in Hf.
        destruct (modelMetadata st' !! id) eqn:Hm; [|done].
        exfalso. apply Hf. by eexists.
  - intros id. destruct (filter _ cont !! id) as [b|] eqn:Hf; [|by right].
    apply map_lookup_filter_Some in Hf as [Hc _]. by left.
Qed.

Lemma cacheModel_represents this f now id bytes fn ct st cont :
  0 < cache_chunkSize this →
  byteLength bytes ≤ MAX_SAFE_INTEGER →
  represents st cont →
  ∃ cont',
    represents (cacheModel this f now id bytes fn ct st).2 cont'
    ∧ match (cacheModel this f now id bytes fn ct st).1 with
      | Resolved _ =>
          ∀ id', cont' !! id' = <[id := bytes]> cont !! id' ∨ cont' !! id' = None
      | Rejected _ => cont' = cont ∨ cont' = delete id cont
      | Pending => cont' = cont ∨ cont' = <[id := bytes]> cont
      end.
Proof.
  intros Hcs Hmax Hrep. unfold cacheModel.
  destruct (getDb this) as [h| |] eqn:Hdb;
    [|exists cont; split; [done|by left]..].
  rewrite deleteModel_cases.
  destruct (delete_fails f); [exists cont; split; [done|by left]|].
  destruct (write_model _ _ _ _ _ _ _ _) as [st2|] eqn:Hw.
  2:{ exists (delete id cont). split; [by apply represents_deleted|by right]. }
  apply write_model_Some in Hw. cbn [modelMetadata modelChunks] in Hw. subst st2.
  pose proof (represents_written this now id bytes fn ct st cont Hcs Hmax Hrep) as Hrep2.
  destruct (evictModelsIfNeeded _ _ _ _) as [r st3] eqn:Hev.
  destruct r as [[]|e|].
  - destruct (represents_evicted _ _ _ _ _ _ _ Hrep2 Hev) as (cont' & Hrep3 & Hsub).
    exists cont'. by split.
  - assert (st3 = {| modelMetadata :=
                       <[id := make_metadata this now id bytes fn ct]>
                         (delete id (modelMetadata st));
                     modelChunks :=
                       foldl put_chunk (delete_chunks id (modelChunks st))
                         (make_chunks this id bytes) |}) as ->.
    { unfold evictModelsIfNeeded in Hev.
      destruct (scan_fails (evict_faults f)); [by injection Hev|].
      by repeat case_decide. }
    exists (<[id := bytes]> cont). split; [done|by right].
  - exfalso. unfold evictModelsIfNeeded in Hev.
    destruct (scan_fails (evict_faults f)); [done|by repeat case_decide].
Qed.



(** ** Stores the cache builds *)

Lemma reachable_represents st : reachable st → ∃ cont, represents st cont.
Proof.
  induction 1 as [|this f now id bytes fn ct st _ [cont Hrep] Hcs Hmax
                  |this g now id st _ [cont Hrep]
                  |this fails st _ [cont Hrep]].
  - exists ∅. apply represents_empty.
  - destruct (cacheModel_represents this f now id bytes fn ct st cont Hcs Hmax Hrep)
      as (cont' & Hrep' & _). by exists cont'.
  - exists cont. by apply getModelFromCache_represents.
  - unfold clearCache. destruct (getDb this); [|by exists cont..].
    destruct fails; [by exists cont|]. exists ∅. apply represents_empty.
Qed.

(** X6: in every store the cache builds from the empty one, whatever requests
    failed on the way, each metadata record is stored under its own [modelId],
    has a positive [chunkSize], a [chunkCount] that is the ceiling of
    [totalSize / chunkSize], and exactly [chunkCount] chunk records in its key
    range, the [i]-th with index [i], whose byte lengths add up to
    [totalSize]. *)
Theorem reachable_consistent st id m :
  reachable st →
  modelMetadata st !! id = Some m →
  modelId m = id
  ∧ 0 < chunkSize m
  ∧ (chunkCount m - 1) * chunkSize m < totalSize m ≤ chunkCount m * chunkSize m
  ∧ Z.of_nat (length (getAll_chunks id (modelChunks st))) = chunkCount m
  ∧ (∀ (i : nat) ch, getAll_chunks id (modelChunks st) !! i = Some ch →
       chunk_modelId ch = id ∧ chunkIndex ch = Z.of_nat i)
  ∧ chunks_byteLength (getAll_chunks id (modelChunks st)) = totalSize m.
Proof.
  intros [cont Hrep]%reachable_represents Hm.
  destruct (represents_Some _ _ _ _ Hrep Hm) as (bytes & _ & Hh).
  destruct Hh as (m0 & w & Hid & Hcs & Hsz & Htot & Hcnt & Hrec).
  injection Hrec as Hm0 Hchunks. rewrite Hm in Hm0. injection Hm0 as <-.
  rewrite Hchunks, Hsz, Htot, Hcnt.
  split; [done|]. split; [done|].
  split; [by apply ceil_div_bounds|].
  split; [by apply make_chunks_length|].
  split; [|by apply chunks_byteLength_make_chunks].
  intros i ch Hi.
  assert (Z.of_nat i < ceil_div (byteLength bytes) (cache_chunkSize w)) as Hlt.
  { apply lookup_lt_Some in Hi.
    pose proof (make_chunks_length w id bytes Hcs). lia. }
  rewrite make_chunks_lookup in Hi by done. by injection Hi as <-.
Qed.

Lemma reachable_store_ab : reachable store_ab.
Proof.
  unfold store_ab, store_a.
  apply reachable_cacheModel; [|reflexivity|vm_compute; discriminate].
  apply reachable_cacheModel; [|reflexivity|vm_compute; discriminate].
  apply reachable_empty.
Qed.

Lemma reachable_consistent_witness :
  Z.of_nat (length (getAll_chunks "b" (modelChunks store_ab))) = 2
  ∧ chunks_byteLength (getAll_chunks "b" (modelChunks store_ab)) = 3.
Proof.
  destruct (reachable_consistent store_ab "b"
              (make_metadata small_cache 2 "b" three_bytes None None)
              reachable_store_ab ltac:(vm_compute; reflexivity))
    as (_ & _ & _ & Hlen & _ & Hsum).
  split; [exact Hlen|exact Hsum].
Defined.

(** X7: in every store the cache builds from the empty one, a model that has
    a metadata record is read back in full: [getModelFromCache] resolves with
    a buffer of [totalSize] bytes and keeps the model; the clean-up of an
    inconsistent entry is never run and the reassembly never overflows. *)
Theorem reachable_model_is_readable this h g now st id m :
  reachable st →
  getDb this = Resolved h →
  get_metadata_fails g = false →
  get_chunks_fails g = false →
  modelMetadata st !! id = Some m →
  ∃ buffer,
    (getModelFromCache this g now id st).1 = Resolved (Some buffer)
    ∧ byteLength buffer = totalSize m
    ∧ is_Some (modelMetadata (getModelFromCache this g now id st).2 !! id).
Proof.
  intros [cont Hrep]%reachable_represents Hdb Hgm Hgc Hm.
  destruct (represents_Some _ _ _ _ Hrep Hm) as (bytes & Hc & Hh).
  destruct (getModelFromCache_represents this g now id st cont Hrep) as [Hrep' Hget].
  exists bytes. split; [rewrite <-Hc; by eapply Hget|].
  pose proof (Hrep' id) as Hh'. rewrite Hc in Hh'.
  destruct Hh as (m0 & w & _ & _ & _ & Htot & _ & [= Hm0 _]).
  apply holds_metadata in Hh' as (m1 & Hm1 & _).
  rewrite Hm in Hm0. injection Hm0 as <-.
  split; [done|]. by eexists.
Qed.

Lemma reachable_model_is_readable_witness :
  ∃ buffer,
    (getModelFromCache small_cache no_get_faults 7 "b" store_ab).1
    = Resolved (Some buffer)
    ∧ byteLength buffer = 3.
Proof.
  destruct (reachable_model_is_readable small_cache Handle no_get_faults 7
              store_ab "b" (make_metadata small_cache 2 "b" three_bytes None None)
              reachable_store_ab ltac:(reflexivity) ltac:(reflexivity)
              ltac:(reflexivity) ltac:(vm_compute; reflexivity))
    as (buffer & Hget & Hlen & _).
  exists buffer. split; [exact Hget|exact Hlen].
Defined.

(** ** The budget *)

Lemma sum_totalSize_delete (s : gmap string ModelMetadata) k m :
  s !! k = Some m →
  sum_totalSize (getAll_metadata (delete k s))
  = sum_totalSize (getAll_metadata s) - totalSize m.
Proof.
  intros Hk.
  rewrite (sum_totalSize_perm _ _ (getAll_metadata_perm (delete k s))).
  rewrite (sum_totalSize_perm _ _ (getAll_metadata_perm s)).
  rewrite <-(sum_totalSize_perm _ _
               (fmap_Permutation snd _ _ (map_to_list_delete s k m Hk))).
  rewrite fmap_cons, sum_totalSize_cons. cbn [snd]. lia.
Qed.

Lemma sum_totalSize_insert (s : gmap string ModelMetadata) k m :
  s !! k = None →
  sum_totalSize (getAll_metadata (<[k := m]> s))
  = sum_totalSize (getAll_metadata s) + totalSize m.
Proof.
  intros Hk.
  rewrite (sum_totalSize_perm _ _ (getAll_metadata_perm (<[k := m]> s))).
  rewrite (sum_totalSize_perm _ _ (getAll_metadata_perm s)).
  rewrite (sum_totalSize_perm _ _
             (fmap_Permutation snd _ _ (map_to_list_insert s k m Hk))).
  rewrite fmap_cons, sum_totalSize_cons. cbn [snd]. lia.
Qed.

Lemma sum_totalSize_empty : sum_totalSize (getAll_metadata ∅) = 0.
Proof. unfold getAll_metadata. by rewrite map_to_list_empty. Qed.

(** While the running size is the size of what is stored, a sweep without
    failures ends within the budget or with every listed model deleted. *)
Lemma evict_loop_budget this fails h metas cur st :
  (∀ id, fails id = false) →
  cur = sum_totalSize (getAll_metadata (modelMetadata st)) →
  (∀ m, m ∈ metas → modelMetadata st !! modelId m = Some m) →
  NoDup (modelId <$> metas) →
  sum_totalSize (getAll_metadata
                   (modelMetadata (evict_loop this fails h metas cur st)))
    ≤ maxCacheSize this
  ∨ (∀ m, m ∈ metas →
       modelMetadata (evict_loop this fails h metas cur st) !! modelId m = None).
Proof.
  intros Hok. revert cur st.
  induction metas as [|m rest IH]; intros cur st Hcur Hstored Hnd.
  { right. intros m []%elem_of_nil. }
  cbn [evict_loop]. case_decide as Hfit; [left; lia|].
  rewrite Hok, deleteModel_ok.
  rewrite fmap_cons in Hnd. apply NoDup_cons in Hnd as [Hm Hnd].
  pose proof (Hstored m ltac:(left)) as Hmstored.
  destruct (IH (cur - totalSize m)
               {| modelMetadata := delete (modelId m) (modelMetadata st);
                  modelChunks := delete_chunks (modelId m) (modelChunks st) |})
    as [Hle|Hgone]; [..|by left|].
  - cbn [modelMetadata]. rewrite (sum_totalSize_delete _ _ m) by done. lia.
  - intros m' Hm'. cbn [modelMetadata]. rewrite lookup_delete_ne.
    + apply Hstored. by right.
    + intros Heq. apply Hm. rewrite Heq. by apply list_elem_of_fmap_2.
  - done.
  - right. intros m' [->|Hm']%elem_of_cons; [|by apply Hgone].
    apply evict_loop_metadata_None. cbn [modelMetadata]. apply lookup_delete_eq.
Qed.

(** X8: when no request of the eviction fails, on a store whose metadata
    records are keyed by their [modelId], [evictModelsIfNeeded] ends in one of
    three ways: the sizes of the models left add up to at most
    [maxCacheSize]; or no model is left; or the store held a single model and
    is untouched.  In each case a model that is left has the records it had. *)
Theorem evictModelsIfNeeded_enforces_budget this f h st :
  scan_fails f = false →
  (∀ id, evict_fails f id = false) →
  store_wf st →
  (sum_totalSize (getAll_metadata
                    (modelMetadata (evictModelsIfNeeded this f (Some h) st).2))
     ≤ maxCacheSize this
   ∨ modelMetadata (evictModelsIfNeeded this f (Some h) st).2 = ∅
   ∨ ((evictModelsIfNeeded this f (Some h) st).2 = st
      ∧ length (getAll_metadata (modelMetadata st)) = 1%nat))
  ∧ ∀ id m,
      modelMetadata (evictModelsIfNeeded this f (Some h) st).2 !! id = Some m →
      model_records id (evictModelsIfNeeded this f (Some h) st).2
      = model_records id st.
Proof.
  intros Hscan Hok Hwf. split.
  - unfold evictModelsIfNeeded. rewrite Hscan.
    case_decide as Hfit; [by left|].
    case_decide as Hone; [right; right; by destruct Hone|].
    cbn [snd].
    destruct (evict_loop_budget this (evict_fails f) h
                (js_sort by_lastAccessed (getAll_metadata (modelMetadata st)))
                (sum_totalSize (getAll_metadata (modelMetadata st))) st Hok eq_refl)
      as [Hle|Hgone]; [..|by left|].
    + intros m Hm%elem_of_js_sort. by apply elem_of_getAll_metadata_wf.
    + rewrite js_sort_perm. by apply getAll_metadata_NoDup_ids.
    + right; left. apply map_eq. intros k. rewrite lookup_empty.
      destruct (modelMetadata st !! k) as [m|] eqn:Hk.
      * rewrite <-(Hwf k m Hk). apply Hgone. apply elem_of_js_sort.
        apply elem_of_getAll_metadata. by exists k.
      * by apply evict_loop_metadata_None.
  - intros id m Hm.
    destruct (evictModelsIfNeeded this f (Some h) st) as [r st'] eqn:Hev.
    cbn [snd] in *.
    destruct (evictModelsIfNeeded_records _ _ _ _ _ _ id Hev) as [?|[= Hnone _]];
      [done|congruence].
Qed.

Lemma evictModelsIfNeeded_enforces_budget_witness :
  sum_totalSize (getAll_metadata
                   (modelMetadata
                      (evictModelsIfNeeded small_cache no_evict_faults (Some Handle)
                         store_abc).2)) ≤ 4
  ∨ modelMetadata (evictModelsIfNeeded small_cache no_evict_faults (Some Handle)
                     store_abc).2 = ∅
  ∨ ((evictModelsIfNeeded small_cache no_evict_faults (Some Handle) store_abc).2
     = store_abc
     ∧ length (getAll_metadata (modelMetadata store_abc)) = 1%nat).
Proof.
  apply (evictModelsIfNeeded_enforces_budget small_cache no_evict_faults Handle
           store_abc).
  - reflexivity.
  - reflexivity.
  - apply (bool_decide_unpack _). vm_compute. exact I.
Defined.

(** ** Recency *)

(** When the removal of the strictly least recently used model is enough, the
    sweep removes that model and no other. *)
Lemma evict_strictly_oldest this f h st X Y :
  scan_fails f = false →
  evict_fails f (modelId X) = false →
  X ∈ getAll_metadata (modelMetadata st) →
  Y ∈ getAll_metadata (modelMetadata st) →
  X ≠ Y →
  (∀ M, M ∈ getAll_metadata (modelMetadata st) → M ≠ X →
        lastAccessed X < lastAccessed M) →
  maxCacheSize this < sum_totalSize (getAll_metadata (modelMetadata st)) →
  sum_totalSize (getAll_metadata (modelMetadata st)) - totalSize X
    ≤ maxCacheSize this →
  evictModelsIfNeeded this f (Some h) st
  = (Resolved tt, delete_model_records st (modelId X)).
Proof.
  intros Hscan Hok HX HY Hne Hold Hover Hfit.
  unfold evictModelsIfNeeded. rewrite Hscan.
  rewrite decide_False by lia.
  rewrite decide_False.
  2:{ intros [Hlen _].
      destruct (getAll_metadata (modelMetadata st)) as [|x [|y l]]; try done.
      apply list_elem_of_singleton in HX, HY. congruence. }
  f_equal.
  pose proof (js_sort_by_lastAccessed_sorted (getAll_metadata (modelMetadata st)))
    as Hsorted.
  apply (elem_of_js_sort by_lastAccessed) in HX.
  assert (∀ M, M ∈ js_sort by_lastAccessed (getAll_metadata (modelMetadata st)) →
               M ≠ X → lastAccessed X < lastAccessed M) as Hold'.
  { intros M HM. apply Hold. by apply (elem_of_js_sort by_lastAccessed). }
  destruct (js_sort by_lastAccessed (getAll_metadata (modelMetadata st)))
    as [|x rest]; [by apply elem_of_nil in HX|].
  assert (x = X) as ->.
  { apply StronglySorted_inv in Hsorted as [_ Hall].
    rewrite Forall_forall in Hall.
    apply elem_of_cons in HX as [->|HX]; [done|].
    specialize (Hall X HX). unfold older_or_same in Hall.
    destruct (decide (x = X)) as [|Hx]; [done|].
    specialize (Hold' x ltac:(left) Hx). lia. }
  apply evict_loop_one; [lia|done|lia].
Qed.

(** X9: a read protects its model from the next eviction.  With two models
    [a] and [b] stored, whatever [lastAccessed] the record of [a] had, once
    [a] has been read at a time later than the [lastAccessed] of [b], a put
    of a third model that overflows the budget by no more than the size of
    [b] evicts [b]: the put resolves, [b] is gone, [a] and the new model are
    stored and read back. *)
Theorem read_protects_from_eviction this h g f nowGet nowPut a b c bytes fn ct st A B :
  getDb this = Resolved h →
  0 < cache_chunkSize this →
  byteLength bytes ≤ MAX_SAFE_INTEGER →
  get_metadata_fails g = false → touch_fails g = false →
  delete_fails f = false → put_metadata_fails f = false →
  (∀ i, put_chunk_fails f i = false) →
  scan_fails (evict_faults f) = false →
  evict_fails (evict_faults f) b = false →
  a ≠ b → c ≠ a → c ≠ b →
  modelMetadata st !! a = Some A → modelId A = a →
  modelMetadata st !! b = Some B → modelId B = b →
  (∀ k, is_Some (modelMetadata st !! k) → k = a ∨ k = b) →
  Z.of_nat (length (getAll_chunks a (modelChunks st))) = chunkCount A →
  lastAccessed B < nowGet →
  lastAccessed B < nowPut →
  maxCacheSize this < totalSize A + totalSize B + byteLength bytes →
  totalSize A + byteLength bytes ≤ maxCacheSize this →
  let st1 := (getModelFromCache this g nowGet a st).2 in
  let put := cacheModel this f nowPut c bytes fn ct st1 in
  put.1 = Resolved tt
  ∧ model_records b put.2 = (None, [])
  ∧ modelMetadata put.2 !! a = Some (touch nowGet A)
  ∧ getAll_chunks a (modelChunks put.2) = getAll_chunks a (modelChunks st)
  ∧ model_records c put.2
    = (Some (make_metadata this nowPut c bytes fn ct), make_chunks this c bytes).
Proof.
  intros Hdb Hcs Hmax Hgm Htouch Hdel Hpm Hpc Hscan Hevb Hab Hca Hcb
    HA HidA HB HidB Honly Hcount HBget HBput Hover Hfit st1 put.
  assert (st1 = {| modelMetadata := <[a := touch nowGet A]> (modelMetadata st);
                   modelChunks := modelChunks st |}) as Hst1.
  { subst st1. unfold getModelFromCache. rewrite Hdb, Hgm, HA, Htouch.
    unfold put_metadata. cbn [modelChunks touch chunkCount totalSize modelId].
    rewrite HidA. destruct (get_chunks_fails g); [done|].
    rewrite decide_False by (intros ?; done).
    destruct (new_ArrayBuffer _); [|done]. by destruct (reassemble _ _ _). }
  assert (modelMetadata st = <[a := A]> (<[b := B]> ∅)) as Hmap.
  { apply map_eq. intros k.
    destruct (decide (k = a)) as [->|Hka]; [by rewrite lookup_insert_eq|].
    rewrite lookup_insert_ne by done.
    destruct (decide (k = b)) as [->|Hkb]; [by rewrite lookup_insert_eq|].
    rewrite lookup_insert_ne, lookup_empty by done.
    destruct (modelMetadata st !! k) eqn:Hk; [|done].
    destruct (Honly k ltac:(by eexists)); congruence. }
  set (C := make_metadata this nowPut c bytes fn ct).
  set (st2 := {| modelMetadata := <[c := C]> (delete c (modelMetadata st1));
                 modelChunks := foldl put_chunk (delete_chunks c (modelChunks st1))
                                  (make_chunks this c bytes) |}).
  assert (modelMetadata st2 = <[c := C]> (<[a := touch nowGet A]> (<[b := B]> ∅)))
    as Hmap2.
  { subst st2. cbn [modelMetadata]. rewrite Hst1. cbn [modelMetadata]. rewrite Hmap.
    rewrite insert_insert_eq. f_equal. apply delete_id.
    by rewrite lookup_insert_ne, lookup_insert_ne, lookup_empty. }
  assert (sum_totalSize (getAll_metadata (modelMetadata st2))
          = totalSize A + totalSize B + byteLength bytes) as Hsum.
  { rewrite Hmap2.
    rewrite sum_totalSize_insert
      by (by rewrite lookup_insert_ne, lookup_insert_ne, lookup_empty).
    rewrite sum_totalSize_insert by (by rewrite lookup_insert_ne, lookup_empty).
    rewrite sum_totalSize_insert by apply lookup_empty.
    rewrite sum_totalSize_empty. subst C. cbn. lia. }
  assert (∀ M, M ∈ getAll_metadata (modelMetadata st2) ↔
               M = C ∨ M = touch nowGet A ∨ M = B) as Hall.
  { intros M. rewrite elem_of_getAll_metadata, Hmap2. split.
    - intros [k Hk].
      destruct (decide (k = c)) as [->|?];
        [rewrite lookup_insert_eq in Hk; left; congruence|].
      rewrite lookup_insert_ne in Hk by done.
      destruct (decide (k = a)) as [->|?];
        [rewrite lookup_insert_eq in Hk; right; left; congruence|].
      rewrite lookup_insert_ne in Hk by done.
      destruct (decide (k = b)) as [->|?];
        [rewrite lookup_insert_eq in Hk; right; right; congruence|].
      by rewrite lookup_insert_ne, lookup_empty in Hk.
    - intros [-> | [-> | ->]].
      + exists c. apply lookup_insert_eq.
      + exists a. by rewrite lookup_insert_ne, lookup_insert_eq.
      + exists b. by rewrite lookup_insert_ne, lookup_insert_ne, lookup_insert_eq. }
  assert (evictModelsIfNeeded this (evict_faults f) (Some h) st2
          = (Resolved tt, delete_model_records st2 b)) as Hev.
  { rewrite <-HidB.
    apply (evict_strictly_oldest this (evict_faults f) h st2 B C).
    - done.
    - by rewrite HidB.
    - apply Hall. by right; right.
    - apply Hall. by left.
    - intros ->. subst C. cbn in HidB. congruence.
    - intros M [-> | [-> | ->]]%Hall HM; [subst C; cbn; lia|cbn; lia|done].
    - lia.
    - lia. }
  assert (put = (Resolved tt, delete_model_records st2 b)) as ->.
  { subst put. rewrite (cacheModel_unfold _ _ _ _ _ _ _ _ h) by done. cbn zeta.
    destruct (write_model _ _ _ _ _ _ _ _) as [st2'|] eqn:Hw.
    - apply write_model_Some in Hw. cbn [modelMetadata modelChunks] in Hw.
      subst st2'. fold C. fold st2. by rewrite Hev.
    - apply write_model_None in Hw as [?|(i & _ & ?)]; [congruence|].
      rewrite Hpc in *. done. }
  cbn [fst snd]. split; [done|].
  split; [apply model_records_deleted|].
  unfold delete_model_records. cbn [modelMetadata modelChunks].
  assert (model_records c st2 = (Some C, make_chunks this c bytes)) as Hc.
  { subst st2 C. by apply model_records_written. }
  split; [|split].
  - rewrite lookup_delete_ne by done. rewrite Hmap2.
    by rewrite lookup_insert_ne, lookup_insert_eq.
  - rewrite getAll_chunks_delete_chunks_ne by done. subst st2. cbn [modelChunks].
    rewrite getAll_chunks_put_chunks_ne by done.
    rewrite getAll_chunks_delete_chunks_ne by done. by rewrite Hst1.
  - rewrite <-Hc. apply (model_records_deleted_ne b c st2). congruence.
Qed.

(** In [store_ab] the older model is ["a"]; it is read at time 5, and the put
    of ["c"] at time 6 evicts ["b"] in its place. *)
Lemma read_protects_from_eviction_witness :
  (cacheModel small_cache no_put_faults 6 "c" [x09] None None
     (getModelFromCache small_cache no_get_faults 5 "a" store_ab).2).1
  = Resolved tt
  ∧ model_records "b"
      (cacheModel small_cache no_put_faults 6 "c" [x09] None None
         (getModelFromCache small_cache no_get_faults 5 "a" store_ab).2).2
    = (None, []).
Proof.
  pose proof (read_protects_from_eviction small_cache Handle no_get_faults
                no_put_faults 5 6 "a" "b" "c" [x09] None None store_ab
                (make_metadata small_cache 1 "a" [x07] None None)
                (make_metadata small_cache 2 "b" three_bytes None None)
                ltac:(reflexivity) ltac:(reflexivity) ltac:(vm_compute; discriminate)
                ltac:(reflexivity) ltac:(reflexivity) ltac:(reflexivity)
                ltac:(reflexivity) ltac:(reflexivity) ltac:(reflexivity)
                ltac:(reflexivity) ltac:(discriminate) ltac:(discriminate)
                ltac:(discriminate)
                ltac:(vm_compute; reflexivity) ltac:(reflexivity)
                ltac:(vm_compute; reflexivity) ltac:(reflexivity)) as Hthm.
  destruct Hthm as (Hres & Hb & _).
  - intros k [m Hk]. revert k m Hk.
    change (map_Forall (λ k _, k = "a" ∨ k = "b") (modelMetadata store_ab)).
    apply (bool_decide_unpack _). vm_compute. exact I.
  - vm_compute. reflexivity.
  - reflexivity.
  - reflexivity.
  - vm_compute. reflexivity.
  - vm_compute. discriminate.
  - split; [exact Hres|exact Hb].
Defined.

(** ** Puts that fit *)

(** X10: a put that resolves and fits the budget evicts nothing.  When the
    sizes of the other stored models and the new buffer add up to at most
    [maxCacheSize], the store after the put holds the new model in full and
    the records of every other model are what they were. *)
Theorem cacheModel_within_budget_evicts_nothing this f now id bytes fn ct st st' :
  0 < cache_chunkSize this →
  byteLength bytes ≤ MAX_SAFE_INTEGER →
  cacheModel this f now id bytes fn ct st = (Resolved tt, st') →
  sum_totalSize (getAll_metadata (delete id (modelMetadata st))) + byteLength bytes
    ≤ maxCacheSize this →
  model_records id st'
    = (Some (make_metadata this now id bytes fn ct), make_chunks this id bytes)
  ∧ ∀ id', id' ≠ id → model_records id' st' = model_records id' st.
Proof.
  intros Hcs Hmax (h & _ & Hev)%cacheModel_Resolved Hfit.
  unfold evictModelsIfNeeded in Hev. cbn [modelMetadata] in Hev.
  destruct (scan_fails (evict_faults f)); [done|].
  rewrite sum_totalSize_insert in Hev by apply lookup_delete_eq.
  cbn [make_metadata totalSize] in Hev.
  rewrite decide_True in Hev by done. injection Hev as <-.
  split; [by apply model_records_written|].
  intros id' Hne. by apply model_records_written_ne.
Qed.

Lemma cacheModel_within_budget_evicts_nothing_witness :
  model_records "a"
    (cacheModel small_cache no_put_faults 2 "b" three_bytes None None store_a).2
  = model_records "a" store_a.
Proof.
  destruct (cacheModel_within_budget_evicts_nothing small_cache no_put_faults 2
              "b" three_bytes None None store_a
              (cacheModel small_cache no_put_faults 2 "b" three_bytes None None
                 store_a).2
              ltac:(reflexivity) ltac:(vm_compute; discriminate)
              ltac:(vm_compute; reflexivity) ltac:(vm_compute; discriminate))
    as [_ Hothers].
  apply Hothers. discriminate.
Defined.

(** ** isModelCached *)

(** X11: in every store the cache builds from the empty one, [isModelCached]
    and [getModelFromCache] agree: the first answers true exactly when the
    second returns a buffer. *)
Theorem isModelCached_agrees_with_read this h g now id st :
  reachable st →
  getDb this = Resolved h →
  get_metadata_fails g = false →
  get_chunks_fails g = false →
  ∃ cached buffer,
    isModelCached this false id st = Resolved cached
    ∧ (getModelFromCache this g now id st).1 = Resolved buffer
    ∧ (cached = true ↔ is_Some buffer).
Proof.
  intros [cont Hrep]%reachable_represents Hdb Hgm Hgc.
  destruct (getModelFromCache_represents this g now id st cont Hrep) as [_ Hget].
  exists (bool_decide (is_Some (modelMetadata st !! id))), (cont !! id).
  split; [unfold isModelCached; by rewrite Hdb|].
  split; [by eapply Hget|].
  rewrite bool_decide_eq_true. split.
  - intros [m Hm]. destruct (represents_Some _ _ _ _ Hrep Hm) as (b & -> & _).
    by eexists.
  - intros [b Hb]. specialize (Hrep id). rewrite Hb in Hrep.
    apply holds_metadata in Hrep as (m & -> & _). by eexists.
Qed.

Lemma isModelCached_agrees_with_read_witness :
  ∃ cached buffer,
    isModelCached small_cache false "b" store_ab = Resolved cached
    ∧ (getModelFromCache small_cache no_get_faults 7 "b" store_ab).1 = Resolved buffer
    ∧ (cached = true ↔ is_Some buffer).
Proof.
  apply (isModelCached_agrees_with_read small_cache Handle no_get_faults 7 "b"
           store_ab reachable_store_ab); reflexivity.
Defined.

(** On a store damaged behind the cache's back they differ: the metadata is
    there, the read is a miss. *)
Example isModelCached_on_damaged_store :
  isModelCached small_cache false "b" store_b_damaged = Resolved true
  ∧ (getModelFromCache small_cache no_get_faults 5 "b" store_b_damaged).1
    = Resolved None.
Proof. vm_compute. done. Qed.

(** * The worker *)

Section worker_facts.
Context (decode : list Z → string).

Lemma write_all_snoc output c buf :
  write_all decode (output ++ [c]) buf
  = let acc := write_all decode output buf in
    let r := stdout decode c acc.1 in (r.1, acc.2 ++ r.2).
Proof. unfold write_all. by rewrite foldl_app. Qed.

Lemma write_all_segments output buf :
  (length buf ≤ 20)%nat →
  Forall (λ c, c ∉ splitBytes) buf →
  ∃ segments,
    (write_all decode output buf).2 = texts_of decode segments
    ∧ concat segments ++ (write_all decode output buf).1 = buf ++ output
    ∧ Forall closed_segment segments
    ∧ (length (write_all decode output buf).1 ≤ 20)%nat
    ∧ Forall (λ c, c ∉ splitBytes) (write_all decode output buf).1.
Proof.
  intros Hlen Hclean. induction output as [|c output IH] using rev_ind.
  { exists []. cbn. rewrite app_nil_r. by repeat split. }
  destruct IH as (segs & Hmsgs & Hcat & Hsegs & Hlen' & Hclean').
  rewrite write_all_snoc. cbn zeta.
  destruct (write_all decode output buf) as [b msgs]. cbn [fst snd] in *.
  unfold stdout. cbn zeta.
  destruct (bool_decide (c ∈ splitBytes) || bool_decide (20 < length (b ++ [c]))%nat)
    eqn:Hflush; cbn [fst snd].
  - exists (segs ++ [b ++ [c]]). split; [|split; [|split; [|split]]].
    + unfold texts_of. rewrite fmap_app, Hmsgs. done.
    + rewrite concat_app, app_nil_r. cbn [concat].
      rewrite app_nil_r, (app_assoc buf), <-Hcat. by rewrite <-app_assoc.
    + apply Forall_app. split; [done|]. apply Forall_singleton.
      unfold closed_segment. rewrite length_app, last_snoc. cbn [length].
      split; [lia|].
      apply orb_true_iff in Hflush as [Hc%bool_decide_eq_true|Hl%bool_decide_eq_true].
      * left. by exists c.
      * right. rewrite length_app in Hl. cbn [length] in Hl. lia.
    + cbn. lia.
    + constructor.
  - apply orb_false_iff in Hflush as [Hc%bool_decide_eq_false Hl%bool_decide_eq_false].
    exists segs. split; [|split; [|split; [|split]]].
    + by rewrite app_nil_r.
    + by rewrite (app_assoc (concat segs)), Hcat, <-app_assoc.
    + done.
    + lia.
    + apply Forall_app. split; [done|]. by apply Forall_singleton.
Qed.

(** X12: the bytes a run writes to its standard output reach the main thread
    unchanged in number and order.  Starting from a buffer of at most 20 bytes
    none of which is a split byte, as [stdout] always leaves it, the texts
    posted are the decodings of consecutive segments of the old buffer
    followed by the output; what is not posted yet is in the buffer; every
    posted segment ends with a punctuation or whitespace byte or is exactly
    21 bytes long, and none is longer. *)
Theorem stdout_segments_output output buf :
  (length buf ≤ 20)%nat →
  Forall (λ c, c ∉ splitBytes) buf →
  ∃ segments,
    (write_all decode output buf).2 = texts_of decode segments
    ∧ concat segments ++ (write_all decode output buf).1 = buf ++ output
    ∧ Forall closed_segment segments
    ∧ (length (write_all decode output buf).1 ≤ 20)%nat
    ∧ Forall (λ c, c ∉ splitBytes) (write_all decode output buf).1.
Proof. apply write_all_segments. Qed.


Lemma runMain_ready {Number} (number_falsy : Number → bool)
    (number_toString : Number → string) (callMain : list string → list Z)
    prompt params sab hc buf :
  (length buf ≤ 20)%nat →
  Forall (λ c, c ∉ splitBytes) buf →
  ∃ segments,
    runMain decode number_falsy number_toString callMain true prompt params
      sab hc buf
    = ([], texts_of decode segments ++ [RUN_COMPLETED])
    ∧ concat segments
      = buf ++ callMain (runMain_args number_falsy number_toString prompt params
                           sab hc)
    ∧ Forall (λ s, (0 < length s ≤ 21)%nat) segments.
Proof.
  intros Hlen Hclean.
  unfold runMain. cbn [negb]. cbn zeta.
  destruct (write_all_segments
              (callMain (runMain_args number_falsy number_toString prompt params
                           sab hc)) buf Hlen Hclean)
    as (segs & Hmsgs & Hcat & Hsegs & Hlen' & _).
  destruct (write_all decode _ buf) as [b msgs]. cbn [fst snd] in *.
  assert (Forall (λ s : list Z, (0 < length s ≤ 21)%nat) segs) as Hsegs'.
  { eapply Forall_impl; [exact Hsegs|]. by intros s [? _]. }
  case_decide as Hb.
  - exists (segs ++ [b]). split; [|split].
    + unfold texts_of. by rewrite fmap_app, Hmsgs.
    + by rewrite concat_app, <-Hcat; cbn; rewrite app_nil_r.
    + apply Forall_app. split; [done|]. apply Forall_singleton. lia.
  - exists segs. split; [by rewrite Hmsgs|]. split; [|done].
    destruct b; [|cbn in Hb; lia]. by rewrite app_nil_r in Hcat.
Qed.

(** X13: [runMain] posts nothing when the module is not instantiated, not
    even the completion.  When it is, it posts the decodings of consecutive
    segments of the buffered bytes followed by the whole output of the run,
    none longer than 21 bytes, then [RUN_COMPLETED] as the last message, and
    leaves the buffer empty. *)
Theorem runMain_posts_whole_output {Number} (number_falsy : Number → bool)
    (number_toString : Number → string) (callMain : list string → list Z)
    ready prompt params sab hc buf :
  (length buf ≤ 20)%nat →
  Forall (λ c, c ∉ splitBytes) buf →
  (ready = false →
   runMain decode number_falsy number_toString callMain ready prompt params sab hc buf
   = (buf, []))
  ∧ (ready = true →
     ∃ segments,
       runMain decode number_falsy number_toString callMain ready prompt params
         sab hc buf
       = ([], texts_of decode segments ++ [RUN_COMPLETED])
       ∧ concat segments
         = buf ++ callMain (runMain_args number_falsy number_toString prompt params
                              sab hc)
       ∧ Forall (λ s, (0 < length s ≤ 21)%nat) segments).
Proof.
  intros Hlen Hclean. split; [by intros ->|]. intros ->.
  by apply runMain_ready.
Qed.

End worker_facts.

Lemma stdout_segments_output_witness :
  ∃ segments,
    (write_all latin1_decode [72; 105; 44; 32; 121; 111] []).2
    = texts_of latin1_decode segments
    ∧ concat segments ++ (write_all latin1_decode [72; 105; 44; 32; 121; 111] []).1
      = [72; 105; 44; 32; 121; 111].
Proof.
  destruct (stdout_segments_output latin1_decode [72; 105; 44; 32; 121; 111] []
              ltac:(simpl; lia) ltac:(constructor))
    as (segments & Hmsgs & Hcat & _).
  exists segments. split; [exact Hmsgs|exact Hcat].
Defined.

Example stdout_segments_example :
  write_all latin1_decode [72; 105; 44; 32; 121; 111] []
  = ([121; 111], [WRITE_RESULT "Hi,"; WRITE_RESULT " "]).
Proof. vm_compute. reflexivity. Qed.

(** * The runner *)

Section runner_facts.
Context {Number Callback : Type}.
Implicit Types this : @LlamaRunner Callback.
Implicit Types ms : list FromWorker.

Local Abbreviation onmessage := (@onmessage Number Callback).
Local Abbreviation onmessages := (@onmessages Number Callback).
Local Abbreviation generateText := (@generateText Number Callback).
Local Abbreviation loadModel := (@loadModel Number Callback).
Local Abbreviation terminate := (@terminate Number Callback).
Local Abbreviation onerror := (@onerror Number Callback).

Lemma onmessages_nil this : onmessages [] this = (this, []).
Proof. done. Qed.

Lemma onmessages_acc ms this (es : list (@Effect Number Callback)) :
  foldl (λ acc m, let r := onmessage m acc.1 in (r.1, acc.2 ++ r.2)) (this, es) ms
  = ((onmessages ms this).1, es ++ (onmessages ms this).2).
Proof.
  unfold onmessages. revert this es.
  induction ms as [|m ms IH]; intros this es; cbn [foldl fst snd].
  - by rewrite app_nil_r.
  - rewrite IH. rewrite (IH _ ([] ++ _)). cbn [fst snd]. by rewrite app_assoc.
Qed.

Lemma onmessages_cons m ms this :
  onmessages (m :: ms) this
  = ((onmessages ms (onmessage m this).1).1,
     (onmessage m this).2 ++ (onmessages ms (onmessage m this).1).2).
Proof.
  unfold onmessages at 1. cbn [foldl fst snd]. rewrite app_nil_l.
  apply onmessages_acc.
Qed.

Lemma onmessages_app ms1 ms2 this :
  onmessages (ms1 ++ ms2) this
  = ((onmessages ms2 (onmessages ms1 this).1).1,
     (onmessages ms1 this).2
       ++ (onmessages ms2 (onmessages ms1 this).1).2).
Proof.
  revert this. induction ms1 as [|m ms1 IH]; intros this.
  { rewrite app_nil_l, onmessages_nil. cbn [fst snd].
    by destruct (onmessages ms2 this). }
  rewrite <-app_comm_cons, !onmessages_cons. rewrite IH.
  cbn [fst snd]. by rewrite app_assoc.
Qed.

(** While a generation runs, every text goes to its token callback. *)
Lemma onmessages_texts decode (segments : list (list Z)) this cb :
  currentTokenCallback this = Some cb →
  onmessages (texts_of decode segments) this
  = (this, (λ s, Token cb (decode (Uint8Array_from s))) <$> segments).
Proof.
  intros Hcb. induction segments as [|s segments IH]; [done|].
  unfold texts_of in *. rewrite !fmap_cons, onmessages_cons.
  cbn [onmessage fst snd]. by rewrite Hcb, IH.
Qed.

(** X14: a generation, end to end.  On a runner that is initialized and idle,
    [generateText] posts [RUN_MAIN]; when the worker runs it and its messages
    come back, the token callback receives, in order, the decodings of
    consecutive segments of what llama.cpp wrote (after what was still
    buffered), the completion callback is then called once, and the runner is
    idle again: a new [generateText] is accepted. *)
Theorem generation_end_to_end decode (number_falsy : Number → bool)
    (number_toString : Number → string) (callMain : list string → list Z)
    prompt params (tokenCallback completionCallback : Callback) sab hc buf this :
  worker this = true →
  isInitialized this = true →
  currentTokenCallback this = None →
  currentCompletionCallback this = None →
  (length buf ≤ 20)%nat →
  Forall (λ c, c ∉ splitBytes) buf →
  ∃ this1 segments,
    generateText prompt params tokenCallback completionCallback this
    = inr (this1, [PostMessage (RUN_MAIN prompt params)])
    ∧ (onmessages
         (runMain decode number_falsy number_toString callMain true prompt params
            sab hc buf).2 this1).2
      = ((λ s, Token tokenCallback (decode (Uint8Array_from s))) <$> segments)
          ++ [Completion completionCallback]
    ∧ concat segments
      = buf ++ callMain (runMain_args number_falsy number_toString prompt params
                           sab hc)
    ∧ ∀ prompt' params' (t' c' : Callback),
        ∃ next,
          generateText prompt' params' t' c'
            (onmessages
               (runMain decode number_falsy number_toString callMain true
                  prompt params sab hc buf).2 this1).1
          = inr next.
Proof.
  intros Hw Hi Ht Hc Hlen Hclean.
  destruct (runMain_ready decode number_falsy number_toString callMain
              prompt params sab hc buf Hlen Hclean)
    as (segments & Hrun & Hcat & _).
  eexists _, segments. split.
  { unfold generateText. by rewrite Hw, Hi, Ht, Hc. }
  rewrite Hrun. cbn [snd]. rewrite onmessages_app.
  rewrite (onmessages_texts decode segments _ tokenCallback) by done.
  cbn [fst snd]. rewrite onmessages_cons, onmessages_nil.
  cbn [onmessage fst snd currentCompletionCallback]. rewrite app_nil_r.
  split; [done|]. split; [done|].
  intros prompt' params' t' c'. unfold generateText.
  cbn [worker isInitialized currentTokenCallback currentCompletionCallback].
  rewrite ?Hw, ?Hi. by eexists.
Qed.

(** X15: the promise of a load is settled at most once.  Whatever messages
    the worker sends, in whatever order, the handlers resolve or reject the
    pending load at most once, and not at all when no load is pending; the
    first [INITIALIZED] or [ERROR] settles it, whichever request of the
    runner it answers. *)
Theorem load_settled_at_most_once ms this :
  (length (filter (λ e, settles_load e = true) (onmessages ms this).2)
   ≤ if isLoadingModel this then 1 else 0)%nat
  ∧ (isLoadingModel this = true → onModelLoadedCallback this = true →
     (onmessage INITIALIZED this).2 = [LoadResolved]
     ∧ isLoadingModel (onmessage INITIALIZED this).1 = false).
Proof.
  split; [|intros Hl Hc; cbn; by rewrite Hl, Hc].
  revert this. induction ms as [|m ms IH]; intros this.
  { rewrite onmessages_nil. cbn. lia. }
  rewrite onmessages_cons. cbn [snd]. rewrite filter_app, length_app.
  specialize (IH (onmessage m this).1).
  destruct m as [|text| |error]; cbn [onmessage fst snd] in *.
  - cbn [isLoadingModel] in IH.
    match goal with |- (_ + ?b ≤ _)%nat => assert (b = 0%nat) as -> by lia end.
    destruct (isLoadingModel this), (onModelLoadedCallback this); compute; lia.
  - assert (length (filter (λ e : @Effect Number Callback, settles_load e = true)
                      match currentTokenCallback this with
                      | Some cb => [Token cb text]
                      | None => []
                      end) = 0%nat) as ->; [by destruct (currentTokenCallback this)|].
    lia.
  - cbn [isLoadingModel] in IH.
    assert (length (filter (λ e : @Effect Number Callback, settles_load e = true)
                      match currentCompletionCallback this with
                      | Some cb => [Completion cb]
                      | None => []
                      end) = 0%nat) as ->;
      [by destruct (currentCompletionCallback this)|].
    lia.
  - cbn [load_settled isLoadingModel] in IH.
    match goal with |- (_ + ?b ≤ _)%nat => assert (b = 0%nat) as -> by lia end.
    destruct (isLoadingModel this), (onModelLoadErrorCallback this); compute; lia.
Qed.

(** X16: a terminated runner does nothing any more.  After [terminate], no
    message of the worker makes the runner call a callback, settle a load or
    post anything, and [generateText] and [loadModel] throw; terminating
    again changes nothing. *)
Theorem terminated_runner_is_inert {S} (cache : CacheAPI S) this ms :
  worker this = true →
  (terminate this).2 = [TerminateWorker]
  ∧ (onmessages ms (terminate this).1).2 = []
  ∧ (∀ prompt params (t c : Callback),
       generateText prompt params t c (onmessages ms (terminate this).1).1
       = inl "LlamaRunner is not initialized or model not loaded.")
  ∧ (∀ source modelId progress fetched fileRead st,
       loadModel cache source modelId progress fetched fileRead
         (onmessages ms (terminate this).1).1 st
       = inl "Worker not initialized.")
  ∧ terminate (terminate this).1 = ((terminate this).1, []).
Proof.
  intros Hlive.
  assert (∀ ms this0,
            worker this0 = false → isLoadingModel this0 = false →
            currentTokenCallback this0 = None →
            currentCompletionCallback this0 = None →
            (onmessages ms this0).2 = []
            ∧ worker (onmessages ms this0).1 = false) as Hinert.
  { clear. induction ms as [|m ms IH]; intros this0 Hw Hl Ht Hc; [done|].
    rewrite onmessages_cons. cbn [fst snd].
    destruct (IH (onmessage m this0).1) as [IH1 IH2];
      [destruct m; cbn; try done; by rewrite ?Ht, ?Hc..|].
    rewrite IH1, IH2. split; [|done].
    destruct m; cbn; by rewrite ?Hl, ?Ht, ?Hc. }
  unfold terminate. rewrite Hlive. cbn [fst snd].
  split; [done|].
  destruct (Hinert ms {| worker := false; isInitialized := false;
                         isLoadingModel := false;
                         onModelLoadedCallback := false;
                         onModelLoadErrorCallback := false;
                         currentTokenCallback := None;
                         currentCompletionCallback := None |}) as [He Hw'];
    [done..|].
  split; [done|]. split; [|split].
  - intros. unfold generateText. by rewrite Hw'.
  - intros. unfold loadModel. by rewrite Hw'.
  - done.
Qed.

(** ** Loading a model *)

Lemma receivedLength_concat (chunks : list ArrayBuffer) :
  receivedLength chunks = byteLength (concat chunks).
Proof.
  unfold receivedLength.
  assert (∀ n, foldl (λ n chunk, n + byteLength chunk) n chunks
               = n + byteLength (concat chunks)) as Hacc.
  { induction chunks as [|c chunks IH]; intros n; cbn [foldl concat].
    - unfold byteLength. cbn. lia.
    - rewrite IH. unfold byteLength. rewrite length_app. lia. }
  by rewrite Hacc.
Qed.

Lemma set_chunks_concat (written : ArrayBuffer) (chunks : list ArrayBuffer) :
  set_chunks (written ++ replicate (length (concat chunks)) x00)
    (byteLength written) chunks
  = Some (written ++ concat chunks).
Proof.
  revert written. induction chunks as [|c chunks IH]; intros written.
  { cbn. by rewrite !app_nil_r. }
  cbn [set_chunks concat]. unfold typed_set.
  rewrite decide_True.
  2:{ unfold byteLength. rewrite !length_app, length_replicate. lia. }
  replace (Z.to_nat (byteLength written)) with (length written)
    by (unfold byteLength; lia).
  replace (Z.to_nat (byteLength written + byteLength c))
    with (length written + length c)%nat by (unfold byteLength; lia).
  rewrite take_app_length, drop_app_add', length_app, replicate_add by done.
  rewrite drop_app_length' by (by rewrite length_replicate).
  replace (byteLength written + byteLength c) with (byteLength (written ++ c))
    by (unfold byteLength; rewrite length_app; lia).
  rewrite app_assoc, IH. by rewrite <-app_assoc.
Qed.

Lemma stream_assembles (chunks : list ArrayBuffer) :
  ∃ view, new_ArrayBuffer (receivedLength chunks) = Some view
          ∧ set_chunks view 0 chunks = Some (concat chunks).
Proof.
  unfold new_ArrayBuffer. rewrite receivedLength_concat.
  rewrite decide_True by apply byteLength_nonneg. eexists. split; [done|].
  unfold byteLength. rewrite Nat2Z.id.
  apply (set_chunks_concat [] chunks).
Qed.

Local Abbreviation read_source := (@read_source Number Callback).
Local Abbreviation stream_progress := (@stream_progress Number Callback).

(** X17: a streamed download is the concatenation of its chunks.  For a
    response that is [ok] and whose body is read to its end, the buffer handed
    on is the chunks in the order they were read, and the progress callback,
    when given, is called once per chunk with the bytes received so far; a
    response that is not [ok], a missing body or a read that fails gives an
    error and no buffer, however many chunks were read before. *)
Theorem streamed_download_is_concat url progress statusText contentLength chunks
    fileRead :
  (read_source (SourceUrl url) progress
     (FetchResponse true statusText
        (Some {| body_chunks := chunks; body_error := None |}) contentLength)
     fileRead).2 = inr (concat chunks)
  ∧ (read_source (SourceUrl url) true
       (FetchResponse true statusText
          (Some {| body_chunks := chunks; body_error := None |}) contentLength)
       fileRead).1
    = (λ i, Progress (byteLength (concat (take (S i) chunks))) contentLength)
        <$> seq 0 (length chunks)
  ∧ (∀ body,
       (read_source (SourceUrl url) progress
          (FetchResponse false statusText body contentLength) fileRead).2
       = inl (ErrorMessage ("Failed to download model: " +:+ statusText)))
  ∧ (read_source (SourceUrl url) progress
       (FetchResponse true statusText None contentLength) fileRead).2
    = inl (ErrorMessage "Response body is null")
  ∧ (∀ error,
       (read_source (SourceUrl url) progress
          (FetchResponse true statusText
             (Some {| body_chunks := chunks; body_error := Some error |})
             contentLength) fileRead).2
       = inl (ErrorMessage error)).
Proof.
  split; [|split; [|by repeat split]].
  - unfold read_source. cbn [negb body_chunks body_error].
    destruct (stream_assembles chunks) as (view & -> & ->). done.
  - unfold read_source. cbn [negb body_chunks body_error].
    destruct (stream_assembles chunks) as (view & -> & ->). cbn [fst].
    assert (∀ received (done : list ArrayBuffer),
              received = byteLength (concat done) →
              stream_progress received contentLength chunks
              = (λ i, Progress (byteLength (concat (done ++ take (S i) chunks)))
                        contentLength) <$> seq 0 (length chunks)) as Hgen.
    { clear.
      assert (∀ (d : list ArrayBuffer) c,
                byteLength (concat (d ++ [c])) = byteLength (concat d) + byteLength c)
        as Hsnoc.
      { intros d c. rewrite concat_app. unfold byteLength.
        rewrite length_app. cbn [concat]. rewrite app_nil_r. lia. }
      induction chunks as [|c chunks IH]; intros received done' Hr; [done|].
      cbn [stream_progress length seq fmap list_fmap take].
      f_equal.
      - f_equal. rewrite Hsnoc. lia.
      - rewrite (IH _ (done' ++ [c])) by (rewrite Hsnoc; lia).
        rewrite <-fmap_S_seq, <-list_fmap_compose. apply list_fmap_ext.
        intros i j _. cbn. by rewrite <-app_assoc. }
    by rewrite (Hgen 0 []).
Qed.

(** X18: a cached model is loaded from the cache alone.  With the chunked
    cache over a store that holds the buffers of [cont], a [loadModel] whose
    id has a buffer in [cont] hands exactly that buffer to the worker, after
    reporting it as complete progress when asked to, whatever the network or
    the file reader would have given; it writes nothing to the cache; the load
    stays pending until the worker answers. *)
Theorem loadModel_serves_cached (cache : ModelCache) h g f nowGet nowPut
    source modelId progress fetched fileRead this st cont bytes :
  getDb cache = Resolved h →
  get_metadata_fails g = false →
  get_chunks_fails g = false →
  worker this = true →
  isLoadingModel this = false →
  represents st cont →
  cont !! actualModelId source modelId = Some bytes →
  ∃ st',
    loadModel (chunked_api cache g f nowGet nowPut) source modelId progress
      fetched fileRead this st
    = inr (loading this, st',
           (if progress then [Progress (byteLength bytes) (byteLength bytes)] else [])
             ++ [PostMessage (LOAD_MODEL_DATA bytes)])
    ∧ represents st' cont.
Proof.
  intros Hdb Hgm Hgc Hw Hl Hrep Hc.
  destruct (getModelFromCache_represents cache g nowGet
              (actualModelId source modelId) st cont Hrep) as [Hrep' Hget].
  specialize (Hget h Hdb Hgm Hgc). rewrite Hc in Hget.
  exists (getModelFromCache cache g nowGet (actualModelId source modelId) st).2.
  split; [|done].
  unfold loadModel. rewrite Hw, Hl. cbn [negb chunked_api api_getModelFromCache].
  destruct (getModelFromCache cache g nowGet _ st) as [r st']. cbn [fst snd] in *.
  by rewrite Hget.
Qed.

(** X19: with the single-store cache, what one load fetched is what the next
    load of the same id gets.  After a miss whose source was read, the buffer
    is posted to the worker and cached; once the worker has answered, a load
    of any source with the same id, be it a different file of the same name
    and size, posts the first buffer again and reads neither network nor
    file. *)
Theorem loadModel_caches_for_next_load now source modelId progress fetched
    fileRead this (st : gmap string Legacy.CachedModel) events modelData :
  worker this = true →
  isLoadingModel this = false →
  st !! actualModelId source modelId = None →
  read_source source progress fetched fileRead = (events, inr modelData) →
  ∃ st1,
    loadModel (legacy_api {| Legacy.db := Some Handle |} false false now)
      source modelId progress fetched fileRead this st
    = inr (loading this, st1, events ++ [PostMessage (LOAD_MODEL_DATA modelData)])
    ∧ ∀ now' source' modelId' progress' fetched' fileRead',
        actualModelId source' modelId' = actualModelId source modelId →
        loadModel (legacy_api {| Legacy.db := Some Handle |} false false now')
          source' modelId' progress' fetched' fileRead'
          (onmessage INITIALIZED (loading this)).1 st1
        = inr (loading (onmessage INITIALIZED (loading this)).1, st1,
               (if progress'
                then [Progress (byteLength modelData) (byteLength modelData)] else [])
                 ++ [PostMessage (LOAD_MODEL_DATA modelData)]).
Proof.
  intros Hw Hl Hmiss Hread. eexists. split.
  - unfold loadModel. rewrite Hw, Hl.
    cbn [negb legacy_api api_getModelFromCache api_cacheModel].
    unfold Legacy.getModelFromCache. cbn [Legacy.db]. rewrite Hmiss.
    rewrite Hread.
    unfold Legacy.cacheModel. cbn [Legacy.db]. done.
  - intros now' source' modelId' progress' fetched' fileRead' Hid.
    unfold loadModel. cbn [onmessage fst worker isLoadingModel loading].
    rewrite Hw. cbn [negb legacy_api api_getModelFromCache].
    unfold Legacy.getModelFromCache. cbn [Legacy.db].
    rewrite Hid, lookup_insert_eq. done.
Qed.

(** Two files of the same name and size share an id. *)
Lemma actualModelId_same_name_and_size file file' :
  file_name file = file_name file' → file_size file = file_size file' →
  actualModelId (SourceFile file) None = actualModelId (SourceFile file') None.
Proof. intros Hn Hs. cbn. by rewrite Hn, Hs. Qed.

(** X20: when the cache cannot write.  With the chunked cache, a load that
    fetched its model but whose write to the cache fails rejects with the
    error of the cache: nothing is posted to the worker and the runner is free
    for another load.  With the single-store cache the same failure goes
    unnoticed and the model is posted. *)
Theorem loadModel_when_cache_write_fails (cache : ModelCache) h g f nowGet nowPut
    source modelId progress fetched fileRead this st
    (legacy_st : gmap string Legacy.CachedModel) events modelData :
  getDb cache = Resolved h →
  get_metadata_fails g = false →
  modelMetadata st !! actualModelId source modelId = None →
  legacy_st !! actualModelId source modelId = None →
  delete_fails f = false →
  put_metadata_fails f = true →
  worker this = true →
  isLoadingModel this = false →
  read_source source progress fetched fileRead = (events, inr modelData) →
  (∃ st',
     loadModel (chunked_api cache g f nowGet nowPut) source modelId progress
       fetched fileRead this st
     = inr (load_settled (loading this), st',
            events ++ [LoadRejected (ErrorOfCache RequestError)])
     ∧ isLoadingModel (load_settled (loading this)) = false
     ∧ modelMetadata st' !! actualModelId source modelId = None)
  ∧ loadModel (legacy_api {| Legacy.db := Some Handle |} false true nowPut)
      source modelId progress fetched fileRead this legacy_st
    = inr (loading this, legacy_st,
           events ++ [PostMessage (LOAD_MODEL_DATA modelData)]).
Proof.
  intros Hdb Hgm Hmiss Hmiss' Hdel Hfail Hw Hl Hread. split.
  - eexists. unfold loadModel. rewrite Hw, Hl.
    cbn [negb chunked_api api_getModelFromCache api_cacheModel].
    rewrite (getModelFromCache_miss cache g nowGet _ st h) by done.
    rewrite Hread.
    rewrite (cacheModel_unfold _ _ _ _ _ _ _ _ h) by done. cbn zeta.
    unfold write_model. rewrite Hfail. cbn [orb].
    split; [done|]. split; [done|]. cbn [modelMetadata]. apply lookup_delete_eq.
  - unfold loadModel. rewrite Hw, Hl.
    cbn [negb legacy_api api_getModelFromCache api_cacheModel].
    unfold Legacy.getModelFromCache. cbn [Legacy.db]. rewrite Hmiss'.
    rewrite Hread. done.
Qed.

Lemma onmessages_quiet ms this :
  Forall (λ m, m ≠ INITIALIZED ∧ ∀ error, m ≠ ERROR error) ms →
  worker (onmessages ms this).1 = worker this
  ∧ isLoadingModel (onmessages ms this).1 = isLoadingModel this
  ∧ Forall (λ e, settles_load e = false) (onmessages ms this).2.
Proof.
  intros Hquiet. revert this.
  induction Hquiet as [|m ms [Hi He] _ IH]; intros this.
  { rewrite onmessages_nil. by repeat split. }
  rewrite onmessages_cons. cbn [fst snd].
  destruct (IH (onmessage m this).1) as (Hw & Hl & Hs).
  rewrite Hw, Hl. rewrite Forall_app.
  destruct m as [|text| |error]; [done| | |by destruct (He error)];
    cbn [onmessage fst snd worker isLoadingModel].
  - repeat split; [|done]. by destruct (currentTokenCallback this); repeat constructor.
  - repeat split; [|done].
    by destruct (currentCompletionCallback this); repeat constructor.
Qed.

(** X21: when the store cannot be opened.  With the chunked cache
    [loadModel] stops at the rejected read of the cache: nothing is fetched,
    posted or reported, and the call does not settle its promise.  From then
    on, while the worker sends only [WRITE_RESULT] and [RUN_COMPLETED], the
    handlers do not settle it either and every [loadModel] throws; the first
    [INITIALIZED] of the worker resolves the load and frees the runner,
    although no model was posted, and an [ERROR] or an error event of the
    worker rejects it.  With the single-store cache the load goes on without
    a cache: the source is read and posted to the worker. *)
Theorem loadModel_when_store_unavailable env g f nowGet nowPut source modelId
    progress fetched fileRead this st
    (legacy_st : gmap string Legacy.CachedModel) events modelData :
  env ≠ OpenSucceeds →
  worker this = true →
  isLoadingModel this = false →
  read_source source progress fetched fileRead = (events, inr modelData) →
  loadModel (chunked_api (new_ModelCache env None None) g f nowGet nowPut)
    source modelId progress fetched fileRead this st
  = inr (loading this, st, [])
  ∧ (∀ ms,
       Forall (λ m, m ≠ INITIALIZED ∧ ∀ error, m ≠ ERROR error) ms →
       Forall (λ e, settles_load e = false) (onmessages ms (loading this)).2
       ∧ ∀ {S} (any : CacheAPI S) source' modelId' progress' fetched' fileRead' st',
           loadModel any source' modelId' progress' fetched' fileRead'
             (onmessages ms (loading this)).1 st'
           = inl "Another model is already being loaded.")
  ∧ ((onmessage INITIALIZED (loading this)).2 = [LoadResolved]
     ∧ isLoadingModel (onmessage INITIALIZED (loading this)).1 = false)
  ∧ (∀ error, ∃ message,
       (onmessage (ERROR error) (loading this)).2
       = [LoadRejected (ErrorMessage message)]
       ∧ (onerror error (loading this)).2
         = [LoadRejected (ErrorMessage (if decide (error = "") then "Worker onerror"
                                        else error))])
  ∧ loadModel (legacy_api (Legacy.new_ModelCache env) false false nowPut)
      source modelId progress fetched fileRead this legacy_st
    = inr (loading this, legacy_st,
           events ++ [PostMessage (LOAD_MODEL_DATA modelData)]).
Proof.
  intros Henv Hw Hl Hread. split; [|split; [|split; [|split]]].
  - unfold loadModel. rewrite Hw, Hl.
    cbn [negb chunked_api api_getModelFromCache].
    by destruct env.
  - intros ms Hquiet.
    destruct (onmessages_quiet ms (loading this) Hquiet) as (Hw' & Hl' & Hs).
    split; [done|].
    intros S any source' modelId' progress' fetched' fileRead' st'.
    unfold loadModel. rewrite Hw', Hl'. cbn [loading worker isLoadingModel].
    by rewrite Hw.
  - done.
  - intros error. eexists. split; done.
  - unfold loadModel. rewrite Hw, Hl.
    cbn [negb legacy_api api_getModelFromCache api_cacheModel].
    destruct env; [| |done]; cbn; by rewrite Hread.
Qed.

End runner_facts.

Lemma runMain_posts_whole_output_witness :
  ∃ segments,
    runMain latin1_decode Z_falsy pretty hi_main true "Hello" no_params false None []
    = ([], texts_of latin1_decode segments ++ [RUN_COMPLETED])
    ∧ concat segments = [72; 105; 44; 32; 121; 111].
Proof.
  destruct (runMain_posts_whole_output latin1_decode Z_falsy pretty hi_main true
              "Hello" no_params false None []
              ltac:(simpl; lia) ltac:(constructor)) as [_ Hrun].
  destruct (Hrun eq_refl) as (segments & Hposts & Hcat & _).
  exists segments. split; [exact Hposts|exact Hcat].
Defined.

Example runMain_example :
  runMain latin1_decode Z_falsy pretty hi_main true "Hello" no_params false None []
  = ([], [WRITE_RESULT "Hi,"; WRITE_RESULT " "; WRITE_RESULT "yo"; RUN_COMPLETED]).
Proof. vm_compute. reflexivity. Qed.

Lemma generation_end_to_end_witness :
  ∃ this1 segments,
    @generateText Z nat "Hello" no_params 1%nat 2%nat ready_runner
    = inr (this1, [PostMessage (RUN_MAIN "Hello" no_params)])
    ∧ (@onmessages Z nat
         (runMain latin1_decode Z_falsy pretty hi_main true "Hello" no_params
            false None []).2 this1).2
      = ((λ s, @Token Z nat 1%nat (latin1_decode (Uint8Array_from s))) <$> segments)
          ++ [Completion 2%nat]
    ∧ concat segments = [72; 105; 44; 32; 121; 111].
Proof.
  destruct (@generation_end_to_end Z nat latin1_decode Z_falsy pretty hi_main
              "Hello" no_params 1%nat 2%nat false None [] ready_runner
              eq_refl eq_refl eq_refl eq_refl
              ltac:(simpl; lia) ltac:(constructor))
    as (this1 & segments & Hgen & Hback & Hcat & _).
  exists this1, segments. split; [exact Hgen|]. split; [exact Hback|exact Hcat].
Defined.

Lemma terminated_runner_is_inert_witness :
  (@onmessages Z nat [WRITE_RESULT "late"; INITIALIZED; RUN_COMPLETED]
     (@terminate Z nat ready_runner).1).2 = [].
Proof.
  apply (@terminated_runner_is_inert Z nat _
           (legacy_api (Legacy.new_ModelCache OpenSucceeds) false false 1)
           ready_runner [WRITE_RESULT "late"; INITIALIZED; RUN_COMPLETED]).
  reflexivity.
Defined.

Lemma loadModel_serves_cached_witness :
  ∃ st',
    @loadModel Z nat _ (chunked_api small_cache no_get_faults no_put_faults 5 6)
      (SourceUrl "a") None true (FetchFails "offline") no_file_read
      fresh_runner store_a
    = inr (loading fresh_runner, st',
           [Progress 1 1; PostMessage (LOAD_MODEL_DATA [x07])])
    ∧ represents st' {["a" := [x07]]}.
Proof.
  apply (@loadModel_serves_cached Z nat small_cache Handle no_get_faults
           no_put_faults 5 6 (SourceUrl "a") None true (FetchFails "offline")
           no_file_read fresh_runner store_a {["a" := [x07]]} [x07]);
    try reflexivity.
  exact represents_store_a.
Defined.

Lemma loadModel_caches_for_next_load_witness :
  ∃ st1,
    @loadModel Z nat _ (legacy_api {| Legacy.db := Some Handle |} false false 1)
      (SourceUrl "u") None false one_chunk_response no_file_read fresh_runner ∅
    = inr (loading fresh_runner, st1, [PostMessage (LOAD_MODEL_DATA three_bytes)])
    ∧ @loadModel Z nat _ (legacy_api {| Legacy.db := Some Handle |} false false 2)
        (SourceUrl "other") (Some "u") false (FetchFails "offline") no_file_read
        (@onmessage Z nat INITIALIZED (loading fresh_runner)).1 st1
      = inr (loading (@onmessage Z nat INITIALIZED (loading fresh_runner)).1, st1,
             [PostMessage (LOAD_MODEL_DATA three_bytes)]).
Proof.
  destruct (@loadModel_caches_for_next_load Z nat 1 (SourceUrl "u") None false
              one_chunk_response no_file_read fresh_runner ∅ [] three_bytes
              eq_refl eq_refl (lookup_empty _) eq_refl) as (st1 & Hfirst & Hnext).
  exists st1. split; [exact Hfirst|].
  apply (Hnext 2 (SourceUrl "other") (Some "u") false (FetchFails "offline")
           no_file_read).
  reflexivity.
Defined.

Lemma loadModel_when_cache_write_fails_witness :
  (∃ st',
     @loadModel Z nat _ (chunked_api small_cache no_get_faults failing_metadata_put 5 6)
       (SourceUrl "u") None false one_chunk_response no_file_read fresh_runner
       empty_IDB
     = inr (load_settled (loading fresh_runner), st',
            [LoadRejected (ErrorOfCache RequestError)]))
  ∧ @loadModel Z nat _
      (legacy_api {| Legacy.db := Some Handle |} false true 6)
      (SourceUrl "u") None false one_chunk_response no_file_read fresh_runner ∅
    = inr (loading fresh_runner, ∅, [PostMessage (LOAD_MODEL_DATA three_bytes)]).
Proof.
  destruct (@loadModel_when_cache_write_fails Z nat small_cache Handle
              no_get_faults failing_metadata_put 5 6 (SourceUrl "u") None false
              one_chunk_response no_file_read fresh_runner empty_IDB ∅ []
              three_bytes eq_refl eq_refl (lookup_empty _) (lookup_empty _)
              eq_refl eq_refl eq_refl eq_refl eq_refl)
    as [(st' & Hchunked & _) Hlegacy].
  split; [|exact Hlegacy]. exists st'. exact Hchunked.
Defined.

(** A load without IndexedDB on a new runner: nothing is posted; a token and
    the end of a run leave the load pending and the runner locked; the
    [INITIALIZED] that answers the constructor's [LOAD] resolves it. *)
Lemma loadModel_when_store_unavailable_witness :
  @loadModel Z nat _
    (chunked_api (new_ModelCache NoIndexedDB None None) no_get_faults
       no_put_faults 5 6)
    (SourceUrl "u") None false one_chunk_response no_file_read fresh_runner
    empty_IDB
  = inr (loading fresh_runner, empty_IDB, [])
  ∧ @loadModel Z nat _
      (chunked_api (new_ModelCache NoIndexedDB None None) no_get_faults
         no_put_faults 7 8)
      (SourceUrl "u") None false one_chunk_response no_file_read
      (@onmessages Z nat [WRITE_RESULT "late"; RUN_COMPLETED]
         (loading fresh_runner)).1
      empty_IDB
    = inl "Another model is already being loaded."
  ∧ (@onmessage Z nat INITIALIZED (loading fresh_runner)).2 = [LoadResolved]
  ∧ @loadModel Z nat _
      (legacy_api (Legacy.new_ModelCache NoIndexedDB) false false 6)
      (SourceUrl "u") None false one_chunk_response no_file_read fresh_runner ∅
    = inr (loading fresh_runner, ∅, [PostMessage (LOAD_MODEL_DATA three_bytes)]).
Proof.
  destruct (@loadModel_when_store_unavailable Z nat NoIndexedDB no_get_faults
              no_put_faults 5 6 (SourceUrl "u") None false one_chunk_response
              no_file_read fresh_runner empty_IDB ∅ [] three_bytes
              ltac:(discriminate) eq_refl eq_refl eq_refl)
    as (Hchunked & Hquiet & [Hinit _] & _ & Hlegacy).
  split; [exact Hchunked|]. split; [|split; [exact Hinit|exact Hlegacy]].
  apply (Hquiet [WRITE_RESULT "late"; RUN_COMPLETED]).
  repeat constructor; discriminate.
Defined.

(** * The schema *)

(** X22: the schema after an upgrade.  With its transaction, the upgrade
    handler of the chunked cache leaves a database that has the metadata and
    the chunk store and, coming from a version below 2, no store [models]: what
    the single-store cache had cached is dropped, even right after that cache
    created its store.  It touches no other store, never rejects, and running
    it again changes nothing.  Without the transaction it changes nothing and
    rejects exactly for an old version above 0. *)
Theorem onupgradeneeded_schema oldVersion names :
  let names' := (onupgradeneeded true oldVersion names).1 in
  METADATA_STORE_NAME ∈ names'
  ∧ CHUNK_STORE_NAME ∈ names'
  ∧ (oldVersion < 2 → "models" ∉ names')
  ∧ (oldVersion < 2 →
     "models" ∉ (onupgradeneeded true oldVersion (Legacy_onupgradeneeded names)).1)
  ∧ (∀ name, name ≠ "models" → name ≠ METADATA_STORE_NAME →
             name ≠ CHUNK_STORE_NAME → name ∈ names' ↔ name ∈ names)
  ∧ (onupgradeneeded true oldVersion names).2 = false
  ∧ onupgradeneeded true oldVersion names' = (names', false)
  ∧ onupgradeneeded false oldVersion names = (names, bool_decide (0 < oldVersion)).
Proof.
  assert (∀ ns, let ns' := (onupgradeneeded true oldVersion ns).1 in
                METADATA_STORE_NAME ∈ ns' ∧ CHUNK_STORE_NAME ∈ ns'
                ∧ (oldVersion < 2 → "models" ∉ ns')
                ∧ (∀ name, name ≠ "models" → name ≠ METADATA_STORE_NAME →
                           name ≠ CHUNK_STORE_NAME → name ∈ ns' ↔ name ∈ ns)) as Hup.
  { intros ns. unfold onupgradeneeded. cbn [negb fst]. cbn zeta.
    set (n1 := if bool_decide (oldVersion < 2) && bool_decide ("models" ∈ ns)
               then ns ∖ {["models"]} else ns).
    set (n2 := if bool_decide (METADATA_STORE_NAME ∈ n1) then n1
               else n1 ∪ {[METADATA_STORE_NAME]}).
    set (n3 := if bool_decide (CHUNK_STORE_NAME ∈ n2) then n2
               else n2 ∪ {[CHUNK_STORE_NAME]}).
    assert (∀ name, name ∈ n1 ↔ name ∈ ns ∧ ¬ (oldVersion < 2 ∧ name = "models"))
      as H1.
    { intros name. subst n1.
      destruct (bool_decide (oldVersion < 2)) eqn:Hv;
        [apply bool_decide_eq_true in Hv|apply bool_decide_eq_false in Hv];
        cbn [andb]; [|tauto].
      destruct (bool_decide ("models" ∈ ns)) eqn:Hin;
        [apply bool_decide_eq_true in Hin|apply bool_decide_eq_false in Hin].
      - rewrite elem_of_difference, elem_of_singleton. tauto.
      - split; [|tauto]. intros Hn. split; [done|]. intros [_ ->]. done. }
    assert (∀ name, name ∈ n2 ↔ name ∈ n1 ∨ name = METADATA_STORE_NAME) as H2.
    { intros name. subst n2.
      destruct (bool_decide (METADATA_STORE_NAME ∈ n1)) eqn:Hin;
        [apply bool_decide_eq_true in Hin|].
      - split; [tauto|]. by intros [?| ->].
      - by rewrite elem_of_union, elem_of_singleton. }
    assert (∀ name, name ∈ n3 ↔ name ∈ n2 ∨ name = CHUNK_STORE_NAME) as H3.
    { intros name. subst n3.
      destruct (bool_decide (CHUNK_STORE_NAME ∈ n2)) eqn:Hin;
        [apply bool_decide_eq_true in Hin|].
      - split; [tauto|]. by intros [?| ->].
      - by rewrite elem_of_union, elem_of_singleton. }
    clearbody n1 n2 n3. cbn [fst].
    split; [apply H3, or_introl, H2; by right|].
    split; [apply H3; by right|].
    split.
    { intros Hv. rewrite H3, H2, H1. intros [[[_ Hn]|Hn]|Hn]; [|done..].
      by apply Hn. }
    intros name Hn1 Hn2 Hn3. rewrite H3, H2, H1. split.
    - by intros [[[? _]|?]|?].
    - intros Hin. left. left. split; [done|]. by intros [_ ?]. }
  cbn zeta. destruct (Hup names) as (Hm & Hc & Hold & Hother).
  split; [done|]. split; [done|]. split; [done|].
  split; [intros Hv; by apply (Hup (Legacy_onupgradeneeded names))|].
  split; [done|]. split; [done|]. split; [|done].
  cbn zeta in *. revert Hm Hc Hold.
  generalize (onupgradeneeded true oldVersion names).1. intros ns Hm Hc Hold.
  unfold onupgradeneeded. cbn [negb]. cbn zeta.
  assert (bool_decide (oldVersion < 2) && bool_decide ("models" ∈ ns) = false) as ->.
  { destruct (bool_decide (oldVersion < 2)) eqn:Hv; [|done].
    apply bool_decide_eq_true in Hv. cbn [andb].
    by apply bool_decide_eq_false_2, Hold. }
  by rewrite (bool_decide_eq_true_2 _ Hm), (bool_decide_eq_true_2 _ Hc).
Qed.

(** * The single-store cache *)

(** X23: the single-store cache is a map with no eviction.  No read and no
    write of it rejects, whatever fails; with the store open and no failing
    request, a read after a write gives the buffer written under the same id,
    whatever was cached before, and what it gave before under any other. *)
Theorem Legacy_cache_is_a_map this getFails putFails now id id' bytes
    (st : gmap string Legacy.CachedModel) :
  (Legacy.cacheModel this putFails now id bytes st).1 = Resolved tt
  ∧ (∃ r, Legacy.getModelFromCache this getFails id' st = Resolved r)
  ∧ (is_Some (Legacy.db this) → putFails = false →
     Legacy.getModelFromCache this false id'
       (Legacy.cacheModel this putFails now id bytes st).2
     = if decide (id' = id) then Resolved (Some bytes)
       else Legacy.getModelFromCache this false id' st).
Proof.
  unfold Legacy.cacheModel, Legacy.getModelFromCache.
  split; [by destruct (Legacy.db this), putFails|].
  split; [destruct (Legacy.db this), getFails, (st !! id'); by eexists|].
  intros [h ->] ->. cbn [snd]. case_decide as Hid.
  - subst id'. by rewrite lookup_insert_eq.
  - by rewrite lookup_insert_ne.
Qed.

(** * The arguments of a run *)

Section runMain_args_facts.
Context {Number : Type} (number_falsy : Number → bool)
        (number_toString : Number → string).

Lemma or_toString_effective (x y : option Number) d :
  effective number_falsy x = effective number_falsy y →
  or_toString number_falsy number_toString x d
  = or_toString number_falsy number_toString y d.
Proof.
  unfold effective, or_toString.
  destruct x as [v|], y as [w|]; try destruct (number_falsy v) eqn:?;
    try destruct (number_falsy w) eqn:?; congruence.
Qed.

(** X24: what a run depends on.  The arguments [runMain] gives llama.cpp are
    the same for two settings that agree on the five numeric options it reads,
    where an option set to a falsy number such as 0 counts as unset, on
    whether [chatml] is on and on whether [no_display_prompt] is explicitly
    off: [batch_size] and [n_gpu_layers] are never passed on, and a
    temperature of 0 runs with the default. *)
Theorem runMain_args_depend_on prompt (p q : GenerateTextParams Number) sab hc hc' :
  effective number_falsy (n_predict p) = effective number_falsy (n_predict q) →
  effective number_falsy (ctx_size p) = effective number_falsy (ctx_size q) →
  effective number_falsy (temp p) = effective number_falsy (temp q) →
  effective number_falsy (top_k p) = effective number_falsy (top_k q) →
  effective number_falsy (top_p p) = effective number_falsy (top_p q) →
  (chatml p = Some true ↔ chatml q = Some true) →
  (no_display_prompt p = Some false ↔ no_display_prompt q = Some false) →
  effective number_falsy hc = effective number_falsy hc' →
  runMain_args number_falsy number_toString prompt p sab hc
  = runMain_args number_falsy number_toString prompt q sab hc'.
Proof.
  intros Hn Hx Ht Hk Hp Hc Hd Hh. unfold runMain_args.
  rewrite (or_toString_effective _ _ _ Hn), (or_toString_effective _ _ _ Hx),
    (or_toString_effective _ _ _ Ht), (or_toString_effective _ _ _ Hk),
    (or_toString_effective _ _ _ Hp), (or_toString_effective _ _ _ Hh).
  assert ((if chatml p is Some true then true else false)
          = (if chatml q is Some true then true else false)) as Hc'.
  { destruct (chatml p) as [[]|], (chatml q) as [[]|]; try done;
      destruct Hc as [H1 H2]; first [by discriminate H1|by discriminate H2]. }
  assert ((if no_display_prompt p is Some false then true else false)
          = (if no_display_prompt q is Some false then true else false)) as Hd'.
  { destruct (no_display_prompt p) as [[]|], (no_display_prompt q) as [[]|];
      try done; destruct Hd as [H1 H2];
      first [by discriminate H1|by discriminate H2]. }
  destruct (chatml p) as [[]|], (chatml q) as [[]|]; try discriminate Hc';
    destruct (no_display_prompt p) as [[]|], (no_display_prompt q) as [[]|];
    try discriminate Hd'; reflexivity.
Qed.

End runMain_args_facts.

Lemma Legacy_cache_is_a_map_witness :
  Legacy.getModelFromCache (Legacy.new_ModelCache OpenSucceeds) false "m"
    (Legacy.cacheModel (Legacy.new_ModelCache OpenSucceeds) false 1 "m"
       three_bytes ∅).2
  = Resolved (Some three_bytes).
Proof.
  destruct (Legacy_cache_is_a_map (Legacy.new_ModelCache OpenSucceeds) false
              false 1 "m" "m" three_bytes ∅) as (_ & _ & Hget).
  exact (Hget ltac:(by eexists) eq_refl).
Defined.

Lemma runMain_args_depend_on_witness :
  runMain_args Z_falsy pretty "Hello" zero_temp_params false None
  = runMain_args Z_falsy pretty "Hello" no_params false None.
Proof.
  apply (runMain_args_depend_on Z_falsy pretty "Hello" zero_temp_params
           no_params false None None); try reflexivity; split; discriminate.
Defined.

Example runMain_args_example :
  runMain_args Z_falsy pretty "Hello" zero_temp_params true (Some 8)
  = ["--model"; "/models/model.bin"; "--n-predict"; "-2"; "--ctx-size"; "2048";
     "--temp"; "0.8"; "--top_k"; "40"; "--top_p"; "0.9"; "--simple-io";
     "--log-disable"; "--prompt"; "Hello"; "--no-display-prompt";
     "--threads"; "8"].
Proof. vm_compute. reflexivity. Qed.

(** * The runner and the worker together *)

Section protocol_facts.
Context (decode : list Z → string).
Context {Number Callback : Type}.
Context (number_falsy : Number → bool).
Context (number_toString : Number → string).
Context (callMain : list string → list Z).
Implicit Types this : @LlamaRunner Callback.
Implicit Types env : WorkerEnv Number.

Local Abbreviation onmessage := (@onmessage Number Callback).
Local Abbreviation onmessages := (@onmessages Number Callback).
Local Abbreviation generateText := (@generateText Number Callback).
Local Abbreviation loadModel := (@loadModel Number Callback).
Local Abbreviation new_LlamaRunner := (@new_LlamaRunner Number Callback).
Local Abbreviation Worker_onmessage :=
  (Worker_onmessage decode number_falsy number_toString callMain).

(** X25: the worker's answer settles the load, or nothing does.  On a runner
    with a pending load, the answer of an instantiated worker whose file
    system accepts the model is one [INITIALIZED]: the load resolves and the
    runner is initialized and free.  When the module is not instantiated or its
    file system raises, the worker answers nothing: the load stays pending and
    every further [loadModel] throws. *)
Theorem worker_answer_settles_load env (modelData : ArrayBuffer) (w : Worker) this :
  worker this = true →
  isLoadingModel this = true →
  onModelLoadedCallback this = true →
  (wasmModuleInstance w = true → fs_throws env = false →
   (Worker_onmessage env (LOAD_MODEL_DATA modelData) w).2 = [INITIALIZED]
   ∧ (onmessages (Worker_onmessage env (LOAD_MODEL_DATA modelData) w).2 this).2
     = [LoadResolved]
   ∧ isInitialized
       (onmessages (Worker_onmessage env (LOAD_MODEL_DATA modelData) w).2 this).1
     = true
   ∧ isLoadingModel
       (onmessages (Worker_onmessage env (LOAD_MODEL_DATA modelData) w).2 this).1
     = false)
  ∧ (wasmModuleInstance w = false ∨ fs_throws env = true →
     Worker_onmessage env (LOAD_MODEL_DATA modelData) w = (w, [])
     ∧ onmessages (Worker_onmessage env (LOAD_MODEL_DATA modelData) w).2 this
       = (this, [])
     ∧ ∀ {S} (cache : CacheAPI S) source modelId progress fetched fileRead st,
         loadModel cache source modelId progress fetched fileRead this st
         = inl "Another model is already being loaded.").
Proof.
  intros Hw Hl Hc. split.
  - intros Hi Hfs. unfold Worker_onmessage, loadModelData. rewrite Hi, Hfs.
    cbn. by rewrite Hl, Hc.
  - intros Hbad.
    assert (Worker_onmessage env (LOAD_MODEL_DATA modelData) w = (w, [])) as ->.
    { unfold Worker_onmessage, loadModelData.
      destruct Hbad as [-> | ->]; [done|]. by destruct (wasmModuleInstance w). }
    split; [done|]. split; [done|]. intros.
    unfold loadModel. by rewrite Hw, Hl.
Qed.

(** X26: ready before any model.  The worker answers the [LOAD] of a new
    runner with [INITIALIZED] as soon as the module is instantiated.  That
    answer alone makes the runner initialized, so that a generation is accepted
    and run by the worker although no model was ever loaded; and it resolves a
    load that was started before it arrived, before the worker has seen the
    model. *)
Theorem ready_before_any_model env href wasmModulePath wasmPath :
  imported env = Instantiated →
  let this := (new_LlamaRunner href wasmModulePath wasmPath).1 in
  let answer :=
    (Worker_onmessage env (LOAD (href wasmModulePath) (href wasmPath)) new_Worker) in
  (new_LlamaRunner href wasmModulePath wasmPath).2
  = [PostMessage (LOAD (href wasmModulePath) (href wasmPath))]
  ∧ answer.2 = [INITIALIZED]
  ∧ (onmessages answer.2 (loading this)).2 = [LoadResolved]
  ∧ ∀ prompt params (tokenCallback completionCallback : Callback),
      ∃ this',
        generateText prompt params tokenCallback completionCallback
          (onmessages answer.2 this).1
        = inr (this', [PostMessage (RUN_MAIN prompt params)])
        ∧ ∃ texts,
            (Worker_onmessage env (RUN_MAIN prompt params) answer.1).2
            = texts ++ [RUN_COMPLETED].
Proof.
  intros Himp. cbn zeta. unfold Worker_onmessage, initWasmModule. rewrite Himp.
  cbn [fst snd].
  split; [done|]. split; [done|]. split; [done|].
  intros prompt params tokenCallback completionCallback.
  eexists. split; [done|].
  cbn [wasmModuleInstance stdoutBuffer new_Worker snd].
  destruct (runMain_ready decode number_falsy number_toString callMain prompt
              params (sharedArrayBuffer env) (hardwareConcurrency env) []
              ltac:(cbn; lia) ltac:(constructor)) as (segments & -> & _).
  by eexists.
Qed.

(** X27: when the module cannot be loaded.  The worker answers [LOAD] with
    one [ERROR] and stays without a module: a load that is pending rejects
    with that error's message, the runner is never initialized, so that
    [generateText] throws, and the worker answers no later message of the
    runner, be it a model or a run. *)
Theorem wasm_failure_rejects_load env errorMessage wasmModulePath wasmPath this :
  imported env = ImportThrows errorMessage →
  isInitialized this = false →
  isLoadingModel this = true →
  onModelLoadErrorCallback this = true →
  let answer := Worker_onmessage env (LOAD wasmModulePath wasmPath) new_Worker in
  answer = (new_Worker, [ERROR ("Failed to load Wasm module: " +:+ errorMessage)])
  ∧ (onmessages answer.2 this).2
    = [LoadRejected (ErrorMessage ("Failed to load Wasm module: " +:+ errorMessage))]
  ∧ isLoadingModel (onmessages answer.2 this).1 = false
  ∧ (∀ prompt params (tokenCallback completionCallback : Callback),
       generateText prompt params tokenCallback completionCallback
         (onmessages answer.2 this).1
       = inl "LlamaRunner is not initialized or model not loaded.")
  ∧ ∀ m, (∀ a b, m ≠ LOAD a b) → Worker_onmessage env m answer.1 = (answer.1, []).
Proof.
  intros Himp Hi Hl Hc. cbn zeta.
  assert (Worker_onmessage env (LOAD wasmModulePath wasmPath) new_Worker
          = (new_Worker, [ERROR ("Failed to load Wasm module: " +:+ errorMessage)]))
    as -> by (unfold Worker_onmessage, initWasmModule; by rewrite Himp).
  cbn [fst snd].
  split; [done|]. split; [cbn; by rewrite Hl, Hc|]. split; [done|].
  split.
  - intros. unfold generateText. cbn. rewrite Hi. by rewrite orb_true_r.
  - intros [a b|d|prompt params] Hm; [by destruct (Hm a b)|done..].
Qed.

End protocol_facts.

Lemma worker_answer_settles_load_witness :
  (@onmessages Z nat
     (Worker_onmessage latin1_decode Z_falsy pretty hi_main good_env
        (LOAD_MODEL_DATA three_bytes)
        {| wasmModuleInstance := true; stdoutBuffer := [] |}).2
     (loading fresh_runner)).2
  = [LoadResolved].
Proof.
  destruct (@worker_answer_settles_load latin1_decode Z nat Z_falsy pretty hi_main
              good_env three_bytes
              {| wasmModuleInstance := true; stdoutBuffer := [] |}
              (loading fresh_runner) eq_refl eq_refl eq_refl) as [Hgood _].
  exact (proj1 (proj2 (Hgood eq_refl eq_refl))).
Defined.

Lemma ready_before_any_model_witness :
  (@onmessages Z nat
     (Worker_onmessage latin1_decode Z_falsy pretty hi_main good_env
        (LOAD "main.js" "main.wasm") new_Worker).2
     (loading fresh_runner)).2
  = [LoadResolved].
Proof.
  exact (proj1 (proj2 (proj2
           (@ready_before_any_model latin1_decode Z nat Z_falsy pretty hi_main
              good_env (λ path, path) "main.js" "main.wasm" eq_refl)))).
Defined.

Lemma wasm_failure_rejects_load_witness :
  (@onmessages Z nat
     (Worker_onmessage latin1_decode Z_falsy pretty hi_main no_wasm_env
        (LOAD "main.js" "main.wasm") new_Worker).2
     (loading fresh_runner)).2
  = [LoadRejected (ErrorMessage "Failed to load Wasm module: 404")].
Proof.
  exact (proj1 (proj2
           (@wasm_failure_rejects_load latin1_decode Z nat Z_falsy pretty hi_main
              no_wasm_env "404" "main.js" "main.wasm" (loading fresh_runner)
              eq_refl eq_refl eq_refl eq_refl))).
Defined.
